(** * Slack desktop shell (renderer): team registry, primary team, badges

    A shallow embedding of the renderer-side controller of the Slack
    desktop client (app-1.2.7):

    - [TeamsViewController] (src/renderer/teams-view-controller.js): the
      team registry and its reconciliation ([mergeTeamList],
      [shouldMergeTeamList], [presentAvailableTeams]), the primary team
      ([makeTeamPrimary]), badge aggregation ([updateBadgeInfoForTeam]),
      the network status handler, the crash handler and
      [getInitialsOfName];
    - [SlackWebViewContext] (src/renderer/web-view-ctx.js):
      [executeJavaScript] and the crash kinds of [setUpErrorHandling];
    - [ThemeCache] (src/renderer/theme-cache.coffee):
      [fetchThemeInfoAndIconsForTeam].

    JavaScript objects that the controller mutates in place (the team
    hashes) live in an explicit heap and are referred to by location, so
    that aliasing between the registry, the incoming list and the primary
    team handle is the aliasing of the source.  Calls on collaborators
    (loading screen, browser IPC, web views, badge manager) are recorded in
    a chronological effect log.  Calls to the logger are not modelled. *)

From Stdlib Require Import ZArith Lia Ascii String.
From stdpp Require Import base option list gmap strings sorting pretty.

Open Scope string_scope.
Open Scope Z_scope.

(** ** JavaScript values *)

(** The values that occur in team hashes.  [VRef] is a reference to a host
    object whose contents are not modelled (a web view context, an
    observable, an icon hash); two references are [===] exactly when they
    are the same reference.  [VFunction] is a function object, such as a
    method read off an object without calling it.  Numbers are the
    integers. *)
Inductive val :=
| VUndefined
| VNull
| VBool (b : bool)
| VNum (n : Z)
| VStr (s : string)
| VRef (r : nat)
| VFunction (name : string).

#[global] Instance val_eq_dec : EqDecision val.
Proof. solve_decision. Defined.

(** ToBoolean. *)
Definition truthy (v : val) : bool :=
  match v with
  | VUndefined | VNull => false
  | VBool b => b
  | VNum n => negb (n =? 0)
  | VStr s => negb (String.eqb s "")
  | VRef _ | VFunction _ => true
  end.

(** [a === b]. *)
Definition strictEq (a b : val) : bool := bool_decide (a = b).

(** ToString, as used for property keys and by [Array.prototype.sort]. *)
Definition toString (v : val) : string :=
  match v with
  | VUndefined => "undefined"
  | VNull => "null"
  | VBool true => "true"
  | VBool false => "false"
  | VNum n => pretty n
  | VStr s => s
  | VRef _ => "[object Object]"
  | VFunction name => String.append "function " name
  end.

(** Reading a property that may be absent: an absent key reads as
    [undefined]. *)
Definition readProp (o : option val) : val := default VUndefined o.

(** ** Strings *)

(** [s.split(sep)] for a one-character separator. *)
Fixpoint split (sep : ascii) (s : string) : list string :=
  match s with
  | EmptyString => [EmptyString]
  | String c rest =>
      if Ascii.eqb c sep then EmptyString :: split sep rest
      else match split sep rest with
           | w :: ws => String c w :: ws
           | [] => [String c EmptyString]
           end
  end.

(** [s.substring(0, n)]. *)
Definition substring0 (n : nat) (s : string) : string := String.substring 0 n s.

Module Initials.

(** [getInitialsOfName(name, maxLength=2)].  The loop appends the first
    character of every word of length at least one.  [None] is the
    [TypeError] raised by [name.split] when [name] is truthy but not a
    string. *)
Definition appendInitial (initials word : string) : string :=
  if (String.length word <? 1)%nat then initials
  else String.append initials (substring0 1 word).

Definition getInitialsOfName (name : val) (maxLength : option nat) : option string :=
  let maxLength := default 2%nat maxLength in
  if negb (truthy name) then Some ""
  else match name with
       | VStr s =>
           let words := split " "%char s in
           let initials := fold_left appendInitial words "" in
           Some (substring0 maxLength initials)
       | _ => None
       end.

(** The description of the result in the words of the documentation: the
    first characters of the non-empty space-separated words, cut to
    [maxLength] characters. *)
Definition firstCharacters (name : string) : string :=
  String.concat ""
    (map (substring0 1)
       (filter (λ w, w ≠ "") (split " "%char name))).

Definition initials_described (name : string) (maxLength : nat) : string :=
  substring0 maxLength (firstCharacters name).

End Initials.

(** ** Team hashes *)

Definition loc := nat.

(** JavaScript numbers as far as badge counts need them: the doubles
    whose value is an integer, the two infinities and [NaN]. *)
Inductive number :=
| Finite (z : Z)
| Infinity (negative : bool)
| NaN.

(** The double nearest to an integer, ties to the even significand: an
    integer below [2^53] in absolute value is a double; a larger one
    keeps its 53 leading bits, and what rounds to [2^1024] or more is an
    infinity. *)
Definition roundToDouble (z : Z) : number :=
  let a := Z.abs z in
  if a <? 2 ^ 53 then Finite z
  else
    let e := Z.log2 a - 52 in
    let q := Z.shiftr a e in
    let r := a - Z.shiftl q e in
    let half := Z.shiftl 1 (e - 1) in
    let q' := if (half <? r) || ((r =? half) && Z.odd q) then q + 1 else q in
    let m := Z.shiftl q' e in
    if 2 ^ 1024 <=? m then Infinity (z <? 0) else Finite (Z.sgn z * m).

(** [a + b] on numbers. *)
Definition number_add (a b : number) : number :=
  match a, b with
  | Finite x, Finite y => roundToDouble (x + y)
  | Finite _, Infinity n | Infinity n, Finite _ => Infinity n
  | Infinity n, Infinity n' => if Bool.eqb n n' then Infinity n else NaN
  | NaN, _ | _, NaN => NaN
  end.

(** The number read off a key of a hash that came as JSON: the double
    nearest to the integer written there, and [undefined], which counts
    as [NaN] in a sum, for a key that is absent. *)
Definition numberOfKey (key : option Z) : number :=
  match key with
  | Some z => roundToDouble z
  | None => NaN
  end.

(** The [badgeInfo] hash of a team.  A field that is [None] is absent:
    the page sends the two counts, the handler of [setConnectionStatus]
    adds the code of the status, and makes a hash with only that when
    the team has none yet.  The counts are integers. *)
Record BadgeInfo := mkBadgeInfo {
  unread : option Z;
  unreadHighlights : option Z;
  connectionStatus : option Z
}.

(** A hash used as the source of [_.extend]: the result of
    [_.pick(item, 'webView', 'webViewLoaded', 'icons', 'initials')] or an
    entry of the theme cache.  [None] means that the key is absent, so
    [Some VNull] is a key that is present and holds [null]. *)
Record Partial := mkPartial {
  p_webView : option val;
  p_webViewLoaded : option val;
  p_icons : option val;
  p_initials : option val;
  p_theme : option val;
  p_webViewId : option val
}.

Module Team.

(** A team hash.  [id], [team_id], [team_name], [team_url] and [reason]
    come from the embedded page and read as [VUndefined] when absent; the
    keys that [_.pick] and [_.extend] move around keep their presence. *)
Record t := mk {
  id : val;
  team_id : val;
  team_name : val;
  team_url : val;
  reason : val;
  webView : option val;
  webViewLoaded : option val;
  icons : option val;
  initials : option val;
  theme : option val;
  webViewId : option val;
  badgeInfo : option BadgeInfo;
  shouldDelete : bool
}.

(** The hash [{}]. *)
Definition empty : t :=
  mk VUndefined VUndefined VUndefined VUndefined VUndefined
     None None None None None None None false.

(** One key of [_.extend(target, source)]: a key of the source replaces
    the target's. *)
Definition overwrite (source target : option val) : option val :=
  match source with
  | Some v => Some v
  | None => target
  end.

(** [_.pick(item, 'webView', 'webViewLoaded', 'icons', 'initials')]:
    the keys that are [in] the item. *)
Definition pick (item : t) : Partial :=
  mkPartial (webView item) (webViewLoaded item) (icons item) (initials item)
            None None.

(** [_.extend(target, source)]. *)
Definition extend (target : t) (source : Partial) : t :=
  mk (id target) (team_id target) (team_name target) (team_url target)
     (reason target)
     (overwrite (p_webView source) (webView target))
     (overwrite (p_webViewLoaded source) (webViewLoaded target))
     (overwrite (p_icons source) (icons target))
     (overwrite (p_initials source) (initials target))
     (overwrite (p_theme source) (theme target))
     (overwrite (p_webViewId source) (webViewId target))
     (badgeInfo target) (shouldDelete target).

Definition set_shouldDelete (b : bool) (x : t) : t :=
  mk (id x) (team_id x) (team_name x) (team_url x) (reason x) (webView x)
     (webViewLoaded x) (icons x) (initials x) (theme x) (webViewId x)
     (badgeInfo x) b.

Definition set_badgeInfo (b : option BadgeInfo) (x : t) : t :=
  mk (id x) (team_id x) (team_name x) (team_url x) (reason x) (webView x)
     (webViewLoaded x) (icons x) (initials x) (theme x) (webViewId x)
     b (shouldDelete x).

Definition set_initials (v : val) (x : t) : t :=
  mk (id x) (team_id x) (team_name x) (team_url x) (reason x) (webView x)
     (webViewLoaded x) (icons x) (Some v) (theme x) (webViewId x)
     (badgeInfo x) (shouldDelete x).

Definition set_webView (w l : val) (x : t) : t :=
  mk (id x) (team_id x) (team_name x) (team_url x) (reason x) (Some w)
     (Some l) (icons x) (initials x) (theme x) (webViewId x)
     (badgeInfo x) (shouldDelete x).

(** [_.omit(team, 'webView', 'webViewLoaded', 'badgeInfo', 'icons',
    'initials')]. *)
Definition prepareTeamForSerialization (x : t) : t :=
  mk (id x) (team_id x) (team_name x) (team_url x) (reason x) None None
     None None (theme x) (webViewId x) None (shouldDelete x).

End Team.

(** ** The theme cache *)

Module ThemeCache.

(** An entry of [@data.themeInfo].  [updateTheme] extends an entry with
    the hash [{webViewId, theme}] that [getTheme] yields, and
    [updateIconsAndInitials] assigns [icons] and [initials]; an entry has
    no other keys. *)
Record ThemeData := mkThemeData {
  td_theme : option val;
  td_webViewId : option val;
  td_icons : option val;
  td_initials : option val
}.

Definition toPartial (d : ThemeData) : Partial :=
  mkPartial None None (td_icons d) (td_initials d) (td_theme d)
            (td_webViewId d).

(** [fetchThemeInfoAndIconsForTeam(team)]: [@data.themeInfo[team.team_id]
    ? {}].  The property key is the string form of [team_id]. *)
Definition fetchThemeInfoAndIconsForTeam
    (themeInfo : gmap string ThemeData) (team : Team.t) : Partial :=
  match themeInfo !! toString (Team.team_id team) with
  | Some themeData => toPartial themeData
  | None => mkPartial None None None None None None
  end.

End ThemeCache.

(** ** Effects and controller state *)

(** Calls on collaborators, in the order in which they are made. *)
#[warnings="-register-all"]
Inductive Effect :=
| LoadingScreen_showTrying
| LoadingScreen_hideAll
| LoadingScreen_showSlackDown
| LoadingScreen_showOffline
| SendToBrowser (channel : string) (args : list (string * val))
| WebView_new (w : nat) (targetUrl : val)
| WebView_show (w : nat)
| WebView_hide (w : nat)
| WebView_dispose (w : nat)
| WebView_refreshTeams (w : nat)
| WebViewLoaded_subscribe_refreshTeams (observable : nat)
| WindowFocus_listen (team : loc)
| WindowFocus_unlisten (team : loc)
| Crashed_subscribe (w : nat) (team : loc)
| Crashed_unsubscribe (w : nat) (team : loc)
| Bugsnag_user (team user : val)
| TeamSelector_setSelectionStatus (team : loc) (isCurrentTeam : bool)
| TeamSelector_updateTeamList (teams : list loc) (primary : option loc)
| BadgeManager_setGlobalBadgeCount
    (unreadHighlights unread : number) (connectionStatus : string)
| LoadDisposable_dispose
| LoginDialog_setCancelable (cancelable : bool)
| LoginDialog_show
| LocalStorage_setItem_teamList (toSave : list Team.t)
| Fs_writeDevMenu
| Reporter_sendEvent (category action : string) (value : option Z)
| UpdateTeamThemes
| UpdateTeamMenu
| Shell_openLogs
| Dialog_showMessageBox (detail : string) (callback : Z → list Effect).

(** What [primaryTeamDisp] holds when it is not [Disposable.empty]: the
    composite disposable that [makeTeamPrimary] built for [owner], with its
    subscription to the [crashed] observable of web view [crashedOn]. *)
Record PrimaryDisposable := mkPrimaryDisposable {
  owner : loc;
  crashedOn : nat
}.

Record State := mkState {
  heap : gmap loc Team.t;
  teamList : list loc;
  primaryTeam : option loc;
  primaryTeamDisp : option PrimaryDisposable;
  haveMergedTeamListOnce : bool;
  themeInfo : gmap string ThemeCache.ThemeData;
  savedTsDevMenu : bool;
  hasReporter : bool;
  hasBugsnag : bool;
  nextRef : nat;
  effects : list Effect
}.

Definition set_heap (h : gmap loc Team.t) (s : State) : State :=
  mkState h (teamList s) (primaryTeam s) (primaryTeamDisp s)
    (haveMergedTeamListOnce s) (themeInfo s) (savedTsDevMenu s)
    (hasReporter s) (hasBugsnag s) (nextRef s) (effects s).

Definition set_teamList (l : list loc) (s : State) : State :=
  mkState (heap s) l (primaryTeam s) (primaryTeamDisp s)
    (haveMergedTeamListOnce s) (themeInfo s) (savedTsDevMenu s)
    (hasReporter s) (hasBugsnag s) (nextRef s) (effects s).

Definition set_primaryTeam (p : option loc) (s : State) : State :=
  mkState (heap s) (teamList s) p (primaryTeamDisp s)
    (haveMergedTeamListOnce s) (themeInfo s) (savedTsDevMenu s)
    (hasReporter s) (hasBugsnag s) (nextRef s) (effects s).

Definition set_primaryTeamDisp (d : option PrimaryDisposable) (s : State) : State :=
  mkState (heap s) (teamList s) (primaryTeam s) d
    (haveMergedTeamListOnce s) (themeInfo s) (savedTsDevMenu s)
    (hasReporter s) (hasBugsnag s) (nextRef s) (effects s).

Definition set_haveMergedTeamListOnce (b : bool) (s : State) : State :=
  mkState (heap s) (teamList s) (primaryTeam s) (primaryTeamDisp s)
    b (themeInfo s) (savedTsDevMenu s)
    (hasReporter s) (hasBugsnag s) (nextRef s) (effects s).

Definition set_savedTsDevMenu (b : bool) (s : State) : State :=
  mkState (heap s) (teamList s) (primaryTeam s) (primaryTeamDisp s)
    (haveMergedTeamListOnce s) (themeInfo s) b
    (hasReporter s) (hasBugsnag s) (nextRef s) (effects s).

Definition set_nextRef (n : nat) (s : State) : State :=
  mkState (heap s) (teamList s) (primaryTeam s) (primaryTeamDisp s)
    (haveMergedTeamListOnce s) (themeInfo s) (savedTsDevMenu s)
    (hasReporter s) (hasBugsnag s) n (effects s).

Definition set_effects (e : list Effect) (s : State) : State :=
  mkState (heap s) (teamList s) (primaryTeam s) (primaryTeamDisp s)
    (haveMergedTeamListOnce s) (themeInfo s) (savedTsDevMenu s)
    (hasReporter s) (hasBugsnag s) (nextRef s) e.

(** ** The monad of controller methods

    A method runs on the controller state and either returns or throws; a
    throw keeps the state as it was when the exception was raised. *)
Inductive Outcome (A : Type) :=
| Returns (a : A) (s : State)
| Throws (e : string) (s : State).
Arguments Returns {A} a s.
Arguments Throws {A} e s.

Definition M (A : Type) : Type := State → Outcome A.

Definition ret {A} (a : A) : M A := λ s, Returns a s.

Definition bind {A B} (m : M A) (k : A → M B) : M B :=
  λ s, match m s with
       | Returns a s' => k a s'
       | Throws e s' => Throws e s'
       end.

Notation "x <- m ;; k" := (bind m (λ x, k))
  (at level 100, m at next level, right associativity).
Notation "m ;; k" := (bind m (λ _, k))
  (at level 100, right associativity).

Definition throw {A} (e : string) : M A := λ s, Throws e s.
Definition get : M State := λ s, Returns s s.
Definition modify (f : State → State) : M unit := λ s, Returns tt (f s).
Definition emit (e : Effect) : M unit :=
  modify (λ s, set_effects (effects s ++ [e]) s).
Definition when (b : bool) (m : M unit) : M unit := if b then m else ret tt.

(** [for (x of l) body(x)]. *)
Fixpoint forEach {A} (body : A → M unit) (l : list A) : M unit :=
  match l with
  | [] => ret tt
  | x :: l' => body x ;; forEach body l'
  end.

Definition finalState {A} (o : Outcome A) : State :=
  match o with
  | Returns _ s => s
  | Throws _ s => s
  end.

(** The team hash at a location; a location without a hash reads as [{}]. *)
Definition deref (h : gmap loc Team.t) (l : loc) : Team.t :=
  default Team.empty (h !! l).

Definition update (l : loc) (f : Team.t → Team.t) (h : gmap loc Team.t)
  : gmap loc Team.t :=
  <[l := f (deref h l)]> h.

Definition readTeam (l : loc) : M Team.t := s <- get ;; ret (deref (heap s) l).
Definition updateTeam (l : loc) (f : Team.t → Team.t) : M unit :=
  modify (λ s, set_heap (update l f (heap s)) s).

(** A method call [v.method()] on a value that should be a web view
    context: anything but an object reference raises a [TypeError]. *)
Definition callWebView (v : val) (method : nat → Effect) : M unit :=
  match v with
  | VRef w => emit (method w)
  | _ => throw "TypeError"
  end.

(** [_.find(list, predicate)] on a list of team locations. *)
Definition findTeam (h : gmap loc Team.t) (p : Team.t → bool) (l : list loc)
  : option loc :=
  List.find (λ x, p (deref h x)) l.

Definition SIGNIN : val := VStr "__signin__".

(** ** TeamsViewController *)

Module TeamsViewController.

(** [sortableConnectionStatus] and its [_.invert]. *)
Definition sortableConnectionStatus : list (string * Z) :=
  [("online", 0); ("connecting", 1); ("offline", 2)].

Definition sortableConnectionStatusToName : list (Z * string) :=
  map (λ kv, (kv.2, kv.1)) sortableConnectionStatus.


Fixpoint lookupName (code : Z) (table : list (Z * string)) : option string :=
  match table with
  | [] => None
  | (k, v) :: rest => if k =? code then Some v else lookupName code rest
  end.


(** The [webViewId] of the web view context behind a reference.  The
    source numbers the contexts as they are created ([webView0],
    [webView1], ...); here the number is the reference, which is as
    good for what the controller does with the id: it tells the
    contexts apart. *)
Definition webViewIdOf (w : nat) : val := VStr (String.append "webView" (pretty w)).

(** *** constructor *)

(** The hashes of an array, allocated at consecutive locations from
    [base] on. *)
Fixpoint allocate (base : loc) (teams : list Team.t) (h : gmap loc Team.t)
  : gmap loc Team.t :=
  match teams with
  | [] => h
  | t :: rest => allocate (S base) rest (<[base := t]> h)
  end.

(** [new TeamsViewController(options)]: the team list parsed from local
    storage is kept when it is non-empty and every entry has a truthy
    [team_id]; every team is extended with its entry of the theme cache.
    No team is primary. *)
Definition constructor (stored : list Team.t)
    (themeInfo : gmap string ThemeCache.ThemeData)
    (reporter bugsnag : bool) : State :=
  let teamList :=
    if forallb (λ x, truthy (Team.team_id x)) stored then stored else [] in
  let teamList :=
    map (λ t, Team.extend t
                (ThemeCache.fetchThemeInfoAndIconsForTeam themeInfo t))
        teamList in
  mkState (allocate 0%nat teamList ∅) (seq 0 (length teamList)) None None
          false themeInfo false reporter bugsnag 0%nat [].

(** *** updateBadgeInfoForTeam *)

Record BadgeAcc := mkBadgeAcc {
  acc_unread : number;
  acc_unreadHighlights : number;
  acc_connectionStatus : Z
}.

(** The arithmetic of one round of the loop over [this.teamList]. *)
Definition accumulate (acc : BadgeAcc) (badgeInfo : option BadgeInfo) : BadgeAcc :=
  let unread' :=
    match badgeInfo with
    | Some b => number_add (acc_unread acc) (numberOfKey (unread b))
    | None => acc_unread acc
    end in
  let unreadHighlights' :=
    match badgeInfo with
    | Some b =>
        number_add (acc_unreadHighlights acc) (numberOfKey (unreadHighlights b))
    | None => acc_unreadHighlights acc
    end in
  let thisStatus :=
    match badgeInfo with
    | None => -1
    | Some b =>
        match connectionStatus b with
        | None => -1
        | Some c => if c =? 0 then -1 else c
        end
    end in
  mkBadgeAcc unread' unreadHighlights'
             (Z.max (acc_connectionStatus acc) thisStatus).

(** [this.teamsView.teamSelector.setSelectionStatus(team, team.team_id
    === this.primaryTeam.team_id)]; reading [team_id] of a [null] primary
    team raises a [TypeError]. *)
Definition setSelectionStatus (team : loc) : M unit :=
  s <- get ;;
  match primaryTeam s with
  | None => throw "TypeError"
  | Some p =>
      emit (TeamSelector_setSelectionStatus team
              (strictEq (Team.team_id (deref (heap s) team))
                        (Team.team_id (deref (heap s) p))))
  end.

Fixpoint badgeLoop (updateAll : bool) (teams : list loc) (acc : BadgeAcc)
  : M BadgeAcc :=
  match teams with
  | [] => ret acc
  | team :: rest =>
      t <- readTeam team ;;
      let acc' := accumulate acc (Team.badgeInfo t) in
      when updateAll (setSelectionStatus team) ;;
      badgeLoop updateAll rest acc'
  end.

Definition initialAcc : BadgeAcc := mkBadgeAcc (Finite 0) (Finite 0) (-1).

Definition realConnectionStatus (connectionStatus : Z) : string :=
  default "online" (lookupName connectionStatus sortableConnectionStatusToName).

Definition updateBadgeInfoForTeam
    (teamToUpdate : option loc) (badgeInfo : option BadgeInfo)
    (updateAll : bool) : M unit :=
  match teamToUpdate with
  | None => ret tt
  | Some given =>
      s <- get ;;
      let wanted := Team.team_id (deref (heap s) given) in
      if negb (truthy wanted) then ret tt
      else
        match findTeam (heap s) (λ x, strictEq (Team.team_id x) wanted)
                       (teamList s) with
        | None => ret tt
        | Some found =>
            match badgeInfo with
            | Some b => updateTeam found (Team.set_badgeInfo (Some b))
            | None => ret tt
            end ;;
            acc <- badgeLoop updateAll (teamList s) initialAcc ;;
            when (negb updateAll) (setSelectionStatus found) ;;
            emit (BadgeManager_setGlobalBadgeCount
                    (acc_unreadHighlights acc) (acc_unread acc)
                    (realConnectionStatus (acc_connectionStatus acc)))
        end
  end.

(** *** makeTeamPrimary *)

(** [this.primaryTeamDisp.setDisposable(d)]: the serial disposable takes
    the new disposable and disposes the one it held.  Disposing the
    composite of a former primary team hides that team's web view if it
    still has one, and cancels the [windowFocus] and [crashed]
    subscriptions. *)
Definition setDisposable (d : option PrimaryDisposable) : M unit :=
  s <- get ;;
  modify (set_primaryTeamDisp d) ;;
  match primaryTeamDisp s with
  | None => ret tt
  | Some old =>
      t <- readTeam (owner old) ;;
      when (truthy (readProp (Team.webView t)))
           (callWebView (readProp (Team.webView t)) WebView_hide) ;;
      emit (WindowFocus_unlisten (owner old)) ;;
      emit (Crashed_unsubscribe (crashedOn old) (owner old))
  end.

Inductive MakePrimaryResult :=
| ReturnedNull
| ReturnedTeam (team : loc)
| ReturnedDisposable (d : PrimaryDisposable).

Definition makeTeamPrimary (team : option loc) : M MakePrimaryResult :=
  match team with
  | None =>
      modify (set_primaryTeam None) ;;
      setDisposable None ;;
      emit LoadingScreen_showTrying ;;
      emit (SendToBrowser "teams:team-changed" []) ;;
      ret ReturnedNull
  | Some team =>
      emit LoadingScreen_hideAll ;;
      s <- get ;;
      let t := deref (heap s) team in
      let alreadyPrimary :=
        match primaryTeam s with
        | Some p => strictEq (Team.team_id t) (Team.team_id (deref (heap s) p))
        | None => false
        end in
      if alreadyPrimary then ret (ReturnedTeam team)
      else
        let webView := readProp (Team.webView t) in
        let webViewId :=
          if truthy webView
          then match webView with VRef w => webViewIdOf w | _ => VUndefined end
          else VNull in
        emit (SendToBrowser "teams:team-changed"
                [("teamName", Team.team_name t); ("webViewId", webViewId)]) ;;
        emit (WindowFocus_listen team) ;;
        match webView with
        | VRef w =>
            emit (Crashed_subscribe w team) ;;
            when (hasBugsnag s)
                 (emit (Bugsnag_user (Team.team_id t) (Team.id t))) ;;
            modify (set_primaryTeam (Some team)) ;;
            setDisposable (Some (mkPrimaryDisposable team w)) ;;
            emit (WebView_show w) ;;
            updateBadgeInfoForTeam (Some team) None true ;;
            emit LoadDisposable_dispose ;;
            ret (ReturnedDisposable (mkPrimaryDisposable team w))
        | _ => throw "TypeError"
        end
  end.

(** *** fetchTeam *)

Definition fetchTeam (teamId : val) (forceCreate : bool) : M (option loc) :=
  s <- get ;;
  match findTeam (heap s) (λ x, strictEq (Team.team_id x) teamId) (teamList s) with
  | None => ret None
  | Some team =>
      let t := deref (heap s) team in
      let webView := readProp (Team.webView t) in
      if truthy webView && negb forceCreate then ret (Some team)
      else
        when (truthy webView) (callWebView webView WebView_dispose) ;;
        match Initials.getInitialsOfName (Team.team_name t) None with
        | None => throw "TypeError"
        | Some initials =>
            updateTeam team (Team.set_initials (VStr initials)) ;;
            let w := nextRef s in
            modify (set_nextRef (S (S w))) ;;
            emit (WebView_new w (Team.team_url t)) ;;
            updateTeam team (Team.set_webView (VRef w) (VRef (S w))) ;;
            ret (Some team)
        end
  end.

(** *** serializeTeamList *)

Definition serializeTeamList : M unit :=
  s <- get ;;
  let toSave := map (λ l, Team.prepareTeamForSerialization (deref (heap s) l))
                    (teamList s) in
  emit (LocalStorage_setItem_teamList toSave) ;;
  match findTeam (heap s) (λ x, strictEq (Team.team_id x) (VStr "T024BE7LD"))
                 (teamList s) with
  | Some _ =>
      when (negb (savedTsDevMenu s))
           (emit Fs_writeDevMenu ;; modify (set_savedTsDevMenu true))
  | None => ret tt
  end.

(** *** shouldMergeTeamList *)

(** The order of [Array.prototype.sort] without a comparator:
    [undefined] goes last, everything else is ordered by its string
    form. *)
Definition sortCompare (a b : val) : Prop :=
  match a, b with
  | _, VUndefined => True
  | VUndefined, _ => False
  | _, _ => String.le (toString a) (toString b)
  end.

#[global] Instance sortCompare_dec : RelDecision sortCompare.
Proof. intros a b. destruct a, b; simpl; apply _. Defined.

(** [_.map(list, (x) => x.team_id).sort()]. *)
Definition sortedTeamIds (h : gmap loc Team.t) (l : list loc) : list val :=
  merge_sort sortCompare (map (λ x, Team.team_id (deref h x)) l).

(** [_.map] of [null] or [undefined] is the empty array. *)
Definition shouldMergeTeamList (updatedTeamList : option (list loc)) : M bool :=
  s <- get ;;
  if (length (teamList s) =? 0)%nat then ret true
  else if negb (haveMergedTeamListOnce s) then
    modify (set_haveMergedTeamListOnce true) ;;
    ret true
  else
    let ourTeams := sortedTeamIds (heap s) (teamList s) in
    let theirTeams := sortedTeamIds (heap s) (default [] updatedTeamList) in
    ret (negb (bool_decide (ourTeams = theirTeams))).

(** *** mergeTeamList *)

(** [toDispose] is a disposable; what matters of it is the list of web
    views that it disposes ([rx.Disposable.empty] disposes none). *)
Record MergeResult := mkMergeResult {
  newTeams : list loc;
  toDispose : list val
}.

Definition nothingMerged : MergeResult := mkMergeResult [] [].

Definition sameTeamId (h : gmap loc Team.t) (team : loc) (x : Team.t) : bool :=
  strictEq (Team.team_id x) (Team.team_id (deref h team)).

Definition isSigninTeam (x : Team.t) : bool := strictEq (Team.team_id x) SIGNIN.

(** [_.extend(team, this.themeCache.fetchThemeInfoAndIconsForTeam(team))]. *)
Definition extendWithTheme (team : loc) : M unit :=
  s <- get ;;
  updateTeam team (λ t,
    Team.extend t (ThemeCache.fetchThemeInfoAndIconsForTeam (themeInfo s) t)).

(** 1. Fixup any team called ['__signin__']. *)
Definition fixupSigninTeam (updatedTeamList : list loc) : M unit :=
  s <- get ;;
  match findTeam (heap s) isSigninTeam (teamList s), updatedTeamList with
  | Some signinTeam, first :: _ =>
      updateTeam first (λ t, Team.extend t (Team.pick (deref (heap s) signinTeam))) ;;
      modify (set_teamList [first])
  | _, _ => ret tt
  end.

(** 2. Add teams not in the list: one round of the loop. *)
Definition addTeam (team : loc) (newTeams : list loc) : M (list loc) :=
  s <- get ;;
  match findTeam (heap s) (sameTeamId (heap s) team) (teamList s) with
  | Some _ => ret newTeams
  | None =>
      extendWithTheme team ;;
      modify (λ s, set_teamList (teamList s ++ [team]) s) ;;
      ret (newTeams ++ [team])%list
  end.

Fixpoint addTeams (updatedTeamList : list loc) (newTeams : list loc)
  : M (list loc) :=
  match updatedTeamList with
  | [] => ret newTeams
  | team :: rest =>
      newTeams' <- addTeam team newTeams ;;
      addTeams rest newTeams'
  end.

(** 3. Update teams that are in the list: the round for index [i]. *)
Definition updateTeamAt (updatedTeamList : list loc) (i : nat) : M unit :=
  s <- get ;;
  match teamList s !! i with
  | None => ret tt
  | Some item =>
      match findTeam (heap s) (sameTeamId (heap s) item) updatedTeamList with
      | Some newTeam =>
          updateTeam newTeam (λ t, Team.extend t (Team.pick (deref (heap s) item))) ;;
          modify (λ s, set_teamList (<[i := newTeam]> (teamList s)) s) ;;
          extendWithTheme newTeam
      | None => updateTeam item (Team.set_shouldDelete true)
      end
  end.

(** 4. Remove items no longer in the list. *)
Fixpoint removeDeleted (h : gmap loc Team.t) (l : list loc)
  : list loc * list val :=
  match l with
  | [] => ([], [])
  | team :: rest =>
      let (newList, toDispose) := removeDeleted h rest in
      if Team.shouldDelete (deref h team) then
        if truthy (readProp (Team.webView (deref h team)))
        then (newList, readProp (Team.webView (deref h team)) :: toDispose)
        else (newList, toDispose)
      else (team :: newList, toDispose)
  end.

Definition mergeTeamList (updatedTeamList : option (list loc)) : M MergeResult :=
  match updatedTeamList with
  | None => ret nothingMerged
  | Some updatedTeamList =>
      s <- get ;;
      match teamList s with
      | [] =>
          modify (set_teamList updatedTeamList) ;;
          ret nothingMerged
      | first :: _ =>
          match findTeam (heap s) isSigninTeam updatedTeamList with
          | Some _ =>
              (* 0. Special-case the sign-out case *)
              callWebView (readProp (Team.webView (deref (heap s) first)))
                          WebView_refreshTeams ;;
              ret nothingMerged
          | None =>
              fixupSigninTeam updatedTeamList ;;
              newTeams <- addTeams updatedTeamList [] ;;
              s2 <- get ;;
              forEach (updateTeamAt updatedTeamList)
                      (seq 0 (length (teamList s2))) ;;
              s3 <- get ;;
              let (newList, toDispose) := removeDeleted (heap s3) (teamList s3) in
              modify (set_teamList newList) ;;
              ret (mkMergeResult newTeams toDispose)
          end
      end
  end.

(** *** presentAvailableTeams *)

(** The merge step of [presentAvailableTeams]: run [mergeTeamList]
    unless [shouldMergeTeamList] tells that the update is a duplicate.
    Returns the merge result and [didMergeTeamList]. *)
Definition reconcile (updatedTeamList : option (list loc))
  : M (MergeResult * bool) :=
  should <- shouldMergeTeamList updatedTeamList ;;
  if should then
    tl <- mergeTeamList updatedTeamList ;;
    ret (tl, true)
  else ret (nothingMerged, false).

Definition hasSigninId (x : Team.t) : bool := strictEq (Team.id x) SIGNIN.

Definition subscribeRefreshOnLoaded (team : loc) : M unit :=
  t <- readTeam team ;;
  match readProp (Team.webViewLoaded t) with
  | VRef o => emit (WebViewLoaded_subscribe_refreshTeams o)
  | _ => throw "TypeError"
  end.

(** [presentAvailableTeams] from the call of [shouldMergeTeamList] on. *)
Definition presentMerged (loggedOffTheLastUser : bool)
    (updatedTeamList : option (list loc)) : M unit :=
  r <- reconcile updatedTeamList ;;
  let newTeams := newTeams r.1 in
  let didMergeTeamList := r.2 in
  serializeTeamList ;;
  s <- get ;;
  if (length (teamList s) =? 0)%nat || loggedOffTheLastUser then
    makeTeamPrimary None ;;
    emit (LoginDialog_setCancelable false) ;;
    emit LoginDialog_show
  else
    forEach (λ team, t <- readTeam team ;;
                     fetchTeam (Team.team_id t) false ;;
                     ret tt)
            (teamList s) ;;
    match newTeams with
    | first :: _ => makeTeamPrimary (Some first) ;; ret tt
    | [] =>
        s <- get ;;
        let stillThere :=
          match primaryTeam s with
          | None => false
          | Some p =>
              bool_decide (is_Some (findTeam (heap s) (sameTeamId (heap s) p)
                                             (teamList s)))
          end in
        if stillThere then ret tt
        else makeTeamPrimary (head (teamList s)) ;; ret tt
    end ;;
    s <- get ;;
    match teamList s with
    | [only] =>
        when (hasSigninId (deref (heap s) only)) (subscribeRefreshOnLoaded only)
    | _ => ret tt
    end ;;
    when didMergeTeamList
         (s <- get ;;
          emit (TeamSelector_updateTeamList (teamList s) (primaryTeam s)) ;;
          emit UpdateTeamThemes ;;
          emit UpdateTeamMenu ;;
          when (hasReporter s)
               (emit (Reporter_sendEvent "session" "teamCount"
                        (Some (Z.of_nat (length (teamList s))))))) ;;
    forEach (λ w, callWebView w WebView_dispose) (toDispose r.1).

Definition presentAvailableTeams (updatedTeamList : option (list loc)) : M unit :=
  s <- get ;;
  let loggedOffTheLastUser :=
    match updatedTeamList with
    | Some [only] =>
        strictEq (Team.reason (deref (heap s) only)) (VStr "didSignOut")
        && hasSigninId (deref (heap s) only)
        && (length (teamList s) =? 1)%nat
    | _ => false
    end in
  let updatedTeamList :=
    if loggedOffTheLastUser then Some [] else updatedTeamList in
  if bool_decide (is_Some (findTeam (heap s) hasSigninId (default [] updatedTeamList)))
     && (0 <? length (teamList s))%nat
  then
    match findTeam (heap s)
            (λ x, negb (hasSigninId x) && truthy (readProp (Team.webView x)))
            (teamList s) with
    | Some anyOtherTeam =>
        callWebView (readProp (Team.webView (deref (heap s) anyOtherTeam)))
                    WebView_refreshTeams
    | None => ret tt
    end ;;
    if negb loggedOffTheLastUser then ret tt
    else presentMerged loggedOffTheLastUser None
  else presentMerged loggedOffTheLastUser updatedTeamList.

(** *** handleWebViewCrash *)

(** The callback of the "Tiny Speck Only" dialog. *)
Definition crashDialogCallback (response : Z) : list Effect :=
  (if response =? 1 then [Shell_openLogs] else [])
    ++ [SendToBrowser "window:reload" []].

(** The line feed of the template string. *)
Definition newline : string := String "010" "".

(** The [detail] of the dialog. *)
Definition crashDetail (type : string) : string :=
  String.append type
    (String.append " crashed! What were you doing, anyway?"
       (String.append newline
          (String.append newline
             "Tell the devs in #ssb-team and bring the log file."))).

Definition handleWebViewCrash (type : string) (teamUrl : val) : M unit :=
  if String.prefix "Plugin" type then ret tt
  else if negb (strictEq teamUrl (VStr "https://tinyspeck.slack.com/")) then
    emit (SendToBrowser "window:reload" [])
  else
    emit (Dialog_showMessageBox (crashDetail type) crashDialogCallback).

(** The subscriber that [makeTeamPrimary] attaches to [team.webView.crashed]:
    a crash of web view [w] reaches [handleWebViewCrash] while the
    subscription of the primary team stands. *)
Definition onWebViewCrashed (w : nat) (type : string) : M unit :=
  s <- get ;;
  match primaryTeamDisp s with
  | Some d =>
      if (crashedOn d =? w)%nat
      then handleWebViewCrash type (Team.team_url (deref (heap s) (owner d)))
      else ret tt
  | None => ret tt
  end.

End TeamsViewController.

(** ** NetworkStatus (src/network-status.coffee) *)

Module NetworkStatus.

(** An instance: what [@isOnline()] answers and the [@_reason] that the
    last check left. *)
Record t := mk {
  isOnline : bool;
  _reason : val
}.

(** The methods [reason: -> @_reason] and
    [browserIsOnline: -> @isOnline()], called. *)
Definition reason (n : t) : val := _reason n.
Definition browserIsOnline (n : t) : bool := isOnline n.

(** A member read off the instance without a call: [reason] and
    [browserIsOnline] are methods of the prototype, so the read yields
    the function; [_reason] is a field. *)
Definition member (n : t) (name : string) : val :=
  if String.eqb name "reason" then VFunction "reason"
  else if String.eqb name "browserIsOnline" then VFunction "browserIsOnline"
  else if String.eqb name "_reason" then _reason n
  else VUndefined.


End NetworkStatus.

Module NetworkStateMachine.
Import TeamsViewController.

(** [setupNetworkStatusStateMachine]: the synchronous part. *)
Definition setupNetworkStatusStateMachine : M unit := emit LoadingScreen_showTrying.

(** The subscriber of [this.networkStatus.statusObservable()]. *)
Definition onStatus (networkStatus : NetworkStatus.t) (online : bool) : M unit :=
  if online then presentAvailableTeams None
  else
    makeTeamPrimary None ;;
    if NetworkStatus.browserIsOnline networkStatus
       && strictEq (NetworkStatus.member networkStatus "reason") (VStr "slackDown")
    then
      s <- get ;;
      when (hasReporter s) (emit (Reporter_sendEvent "session" "slackIsDown" None)) ;;
      emit LoadingScreen_showSlackDown
    else emit LoadingScreen_showOffline.

End NetworkStateMachine.

(** ** SlackWebViewContext (src/renderer/web-view-ctx.js) *)

Module SlackWebViewContext.

(** *** setUpErrorHandling: the kinds of crash *)



(** *** executeJavaScript *)

(** How an observable that yields at most one value ends. *)
Inductive Settled (A : Type) :=
| Resolved (v : A)
| Rejected (e : string)
| CompletedEmpty.
Arguments Resolved {A} v.
Arguments Rejected {A} e.
Arguments CompletedEmpty {A}.

(** The argument of an ['eval-async'] reply.  [reply_result] is the JSON
    text of the result ([None] when [null] or absent) and [reply_error]
    the message and stack of the error, if any. *)
Record EvalReply := mkEvalReply {
  reply_id : string;
  reply_result : option string;
  reply_error : option (string * string)
}.

Record IpcMessage := mkIpcMessage {
  channel : string;
  args : list EvalReply
}.

(** What is handed to [this.wv.executeJavaScript]: the code with its
    correlation id ([uuid.v4()]). *)
Record Request := mkRequest {
  code : string;
  request_id : string
}.

Section ExecuteJavaScript.
(** [JSON.parse]; [None] is a [SyntaxError]. *)
Context {Json : Type} (JSON_parse : string → option Json).

(** The predicate of [.where]. *)
Definition isReplyTo (msg : Request) (x : IpcMessage) : bool :=
  if negb (String.eqb (channel x) "eval-async") then false
  else if negb (length (args x) =? 1)%nat then false
  else match args x with
       | r :: _ =>
           if negb (match reply_result r with
                    | Some txt => negb (String.eqb txt "")
                    | None => false
                    end
                    || bool_decide (is_Some (reply_error r)))
           then false
           else String.eqb (reply_id r) (request_id msg)
       | [] => false
       end.

(** The selector of [.flatMap]. *)
Definition replyValue (x : IpcMessage) : Settled (option Json) :=
  match args x with
  | thisMsg :: _ =>
      match reply_error thisMsg with
      | Some (message, stack) =>
          Rejected (String.append message (String.append "
" stack))
      | None =>
          match reply_result thisMsg with
          | None => Resolved None
          | Some txt =>
              match JSON_parse txt with
              | Some v => Resolved (Some v)
              | None => Rejected "SyntaxError"
              end
          end
      end
  | [] => Rejected "TypeError"
  end.

(** [.where(..).flatMap(..).take(1).timeout(10*1000)] over the messages
    that arrive on [webViewIpc], each with its arrival time in
    milliseconds after the call: the first reply counts if it arrives
    before the timer fires. *)
Definition firstReplyOrTimeout (msg : Request)
    (incoming : list (nat * IpcMessage)) : Settled (option Json) :=
  match List.find (λ tx, isReplyTo msg tx.2) incoming with
  | Some (time, x) =>
      if (time <? 10 * 1000)%nat then replyValue x
      else Rejected "TimeoutError"
  | None => Rejected "TimeoutError"
  end.

(** [.catch(() => rx.Observable.return(null))]. *)
Definition catchReturnNull (source : Settled (option Json))
  : Settled (option Json) :=
  match source with
  | Rejected _ => Resolved None
  | other => other
  end.

(** [executeJavaScript(code)] on a context whose web view element is
    present or not: the request sent to the embedded page, if any, and
    how the returned observable settles. *)
Definition executeJavaScript (wv : bool) (code uuid : string)
    (incoming : list (nat * IpcMessage))
  : option Request * Settled (option Json) :=
  let msg := mkRequest code uuid in
  if negb wv then (None, CompletedEmpty)
  else (Some msg, catchReturnNull (firstReplyOrTimeout msg incoming)).

End ExecuteJavaScript.

End SlackWebViewContext.

(** ** TeamsViewController: loading, navigation and teardown *)

Module TeamList.
Import TeamsViewController.

(** The loop of [presentAvailableTeams] that kicks off the loading of
    the web views: [for (var team of this.teamList)
    this.fetchTeam(team.team_id)]. *)
Definition loadAllTeams : M unit :=
  s <- get ;;
  forEach (λ team, t <- readTeam team ;;
                   fetchTeam (Team.team_id t) false ;;
                   ret tt)
          (teamList s).

(** [x.webView.webViewId] for a truthy [x.webView]: a value that is not
    a web view context has no such property. *)
Definition webViewIdOfVal (webView : val) : val :=
  match webView with
  | VRef w => webViewIdOf w
  | _ => VUndefined
  end.

(** [teamFromWebViewId(webViewId)]. *)
Definition teamFromWebViewId (webViewId : val) : M (option loc) :=
  s <- get ;;
  ret (findTeam (heap s)
         (λ x, truthy (readProp (Team.webView x))
               && strictEq (webViewIdOfVal (readProp (Team.webView x))) webViewId)
         (teamList s)).

(** The loop of [indexOfTeamInList]. *)
Fixpoint indexFrom (h : gmap loc Team.t) (wanted : val) (i : nat) (l : list loc)
  : option nat :=
  match l with
  | [] => None
  | x :: rest =>
      if strictEq (Team.team_id (deref h x)) wanted then Some i
      else indexFrom h wanted (S i) rest
  end.

(** [indexOfTeamInList(team)]: the index of the first team with the
    [team_id] of [team || this.primaryTeam], or [null].  Reading the
    [team_id] of [null] raises a [TypeError] once the loop reaches a
    team. *)
Definition indexOfTeamInList (team : option loc) : M (option nat) :=
  s <- get ;;
  match teamList s with
  | [] => ret None
  | _ :: _ =>
      match (match team with Some t => Some t | None => primaryTeam s end) with
      | None => throw "TypeError"
      | Some t =>
          ret (indexFrom (heap s) (Team.team_id (deref (heap s) t)) 0%nat
                         (teamList s))
      end
  end.

(** [(idx + this.teamList.length + offset) % this.teamList.length] with
    [null] counting as 0; the remainder takes the sign of the dividend. *)
Definition offsetIndex (idx : option nat) (length : nat) (offset : Z) : Z :=
  Z.rem (Z.of_nat (default 0%nat idx) + Z.of_nat length + offset)
        (Z.of_nat length).

(** [this.teamList[idx]]: [undefined] outside the array. *)
Definition teamAt (l : list loc) (idx : Z) : option loc :=
  if idx <? 0 then None else l !! Z.to_nat idx.

(** [moveTeamByOffset(offset)]. *)
Definition moveTeamByOffset (offset : Z) : M unit :=
  s <- get ;;
  match primaryTeam s with
  | None => ret tt
  | Some p =>
      if (length (teamList s) <? 2)%nat then ret tt
      else
        idx <- indexOfTeamInList (Some p) ;;
        s <- get ;;
        makeTeamPrimary
          (teamAt (teamList s) (offsetIndex idx (length (teamList s)) offset)) ;;
        ret tt
  end.

(** One round of [trashAllTeamWebviews]. *)
Definition trashTeamWebview (team : loc) : M unit :=
  t <- readTeam team ;;
  when (truthy (readProp (Team.webView t)))
       (callWebView (readProp (Team.webView t)) WebView_dispose) ;;
  updateTeam team (Team.set_webView VNull VNull).

(** [trashAllTeamWebviews()]. *)
Definition trashAllTeamWebviews : M unit :=
  s <- get ;;
  forEach trashTeamWebview (teamList s).

(** [getTrimmedTeamList(maxItems=9)]. *)
Definition getTrimmedTeamList (maxItems : option nat) : M (list Team.t) :=
  s <- get ;;
  ret (take (default 9%nat maxItems)
            (map (λ l, Team.prepareTeamForSerialization (deref (heap s) l))
                 (teamList s))).

(** The loop of the subscriber of [teamSelector.sorted]: the teams found
    for the ids, in the order of the ids, each with the position
    ([index + 1]) that is passed to [updateExistingTeamInList]. *)
Fixpoint sortedTeams (h : gmap loc Team.t) (teamList : list loc)
    (sortedIds : list val) (index : nat) : list (loc * nat) :=
  match sortedIds with
  | [] => []
  | team_id :: rest =>
      match findTeam h (λ x, strictEq (Team.team_id x) team_id) teamList with
      | None => sortedTeams h teamList rest (S index)
      | Some team => (team, S index) :: sortedTeams h teamList rest (S index)
      end
  end.

(** What the subscriber hands to collaborators that the effect log does
    not record: the calls of [updateExistingTeamInList] and the payload
    of the ['teams:update-menu'] message. *)
Record Rearranged := mkRearranged {
  selectorUpdates : list (loc * nat);
  menu : list Team.t
}.

(** The subscriber of [this.teamsView.teamSelector.sorted]. *)
Definition onSorted (sortedIds : list val) : M Rearranged :=
  s <- get ;;
  when (hasReporter s)
       (emit (Reporter_sendEvent "team-selector" "rearrange" None)) ;;
  let found := sortedTeams (heap s) (teamList s) sortedIds 0%nat in
  modify (set_teamList (map fst found)) ;;
  menu <- getTrimmedTeamList None ;;
  emit (SendToBrowser "teams:update-menu" []) ;;
  serializeTeamList ;;
  ret (mkRearranged found menu).

(** The subscriber of the ['setBadgeCount'] messages of the web views:
    [updateBadgeInfoForTeam(team, args[0])] for the team of the web
    view, an event for the reporter when there is none. *)
Definition onSetBadgeCount (webViewId : val) (badgeInfo : option BadgeInfo)
  : M unit :=
  team <- teamFromWebViewId webViewId ;;
  match team with
  | None =>
      s <- get ;;
      when (hasReporter s)
           (emit (Reporter_sendEvent "team-selector"
                    "settingBadgeOnBorkedWebView" None))
  | Some team => updateBadgeInfoForTeam (Some team) badgeInfo false
  end.

End TeamList.

(** ** BadgeManager (src/renderer/badge-manager.coffee) *)

Module BadgeManager.

(** Calls on the tray and the dock. *)
Inductive Call :=
| Tray_setState (state : string)
| Tray_setConnectionStatus (status : string)
| Tray_setToolTip (tip : string)
| Dock_setBadge (badge : string).

(** An argument of [setGlobalBadgeCount]: [null], [undefined] or a
    number. *)
Inductive Count :=
| CountNull
| CountUndefined
| CountOf (n : number).

(** [count > 0]: false for [NaN], [undefined] and [null]. *)
Definition positive (count : Count) : bool :=
  match count with
  | CountOf (Finite z) => 0 <? z
  | CountOf (Infinity negative) => negb negative
  | _ => false
  end.

(** The truth value of a count: false for 0, [NaN], [undefined] and
    [null]. *)
Definition nonzero (count : Count) : bool :=
  match count with
  | CountOf (Finite z) => negb (z =? 0)
  | CountOf (Infinity _) => true
  | _ => false
  end.

(** [count > 1]. *)
Definition several (count : Count) : bool :=
  match count with
  | CountOf (Finite z) => 1 <? z
  | CountOf (Infinity negative) => negb negative
  | _ => false
  end.

(** [count?]: neither [null] nor [undefined]. *)
Definition given (count : Count) : bool :=
  match count with
  | CountOf _ => true
  | _ => false
  end.

Fixpoint dropZeros (reversed : list Ascii.ascii) : list Ascii.ascii :=
  match reversed with
  | c :: rest => if Ascii.eqb c "0" then dropZeros rest else reversed
  | [] => []
  end.

(** The digits of a scaled significand without the zeros at the end. *)
Definition significantDigits (n : Z) : list Ascii.ascii :=
  rev (dropZeros (rev (list_ascii_of_string (pretty n)))).

(** The shortest decimal significand that the double [m] is nearest to:
    with [k] digits, the multiples of [10^(e+1-k)] on both sides of [m]
    are tried, the nearer one first and the even one of two that are as
    near; the result is the significand and the exponent of ten of its
    first digit. *)
Fixpoint shortestDigits (fuel : nat) (k e m : Z) : Z * Z :=
  match fuel with
  | O => (m, e)
  | S fuel =>
      let p := 10 ^ (e + 1 - k) in
      let lo := m / p in
      let hi := lo + 1 in
      let below := m - lo * p in
      let above := hi * p - m in
      let loFirst := (below <? above) || ((below =? above) && Z.even lo) in
      let first := if loFirst then lo else hi in
      let second := if loFirst then hi else lo in
      let fits n :=
        match roundToDouble (n * p) with
        | Finite x => x =? m
        | _ => false
        end in
      let exponent n :=
        e + (Z.of_nat (String.length (pretty n)) - k) in
      if fits first then (first, exponent first)
      else if fits second then (second, exponent second)
      else shortestDigits fuel (k + 1) e m
  end.

(** The exponent notation of a double of [10^21] or more: the first
    digit, a point and the other digits if there are any, then [e+] and
    the exponent. *)
Definition exponentString (m : Z) : string :=
  let e := Z.of_nat (String.length (pretty m)) - 1 in
  let '(n, e') := shortestDigits 17 1 e m in
  let digits := significantDigits n in
  String.append (string_of_list_ascii (take 1 digits))
    (String.append
       (match drop 1 digits with
        | [] => ""
        | rest => String.append "." (string_of_list_ascii rest)
        end)
       (String.append "e+" (pretty e'))).

(** The decimal notation of a double from [2^53] to below [10^21]:
    the digits of the shortest significand, then zeros. *)
Definition paddedString (m : Z) : string :=
  let e := Z.of_nat (String.length (pretty m)) - 1 in
  let '(n, e') := shortestDigits 17 1 e m in
  match list_ascii_of_string (pretty n) with
  | [] => "0"
  | digits =>
      string_of_list_ascii
        (digits ++ replicate (Z.to_nat (e' + 1) - length digits) "0"%char)
  end.

(** [String(n)] and the interpolation of a number in a string.  An
    integer below [2^53] is written out; a larger double is written
    with the shortest significand that denotes it, followed by zeros
    below [10^21] and in exponent notation from there on. *)
Definition numberString (n : number) : string :=
  match n with
  | Finite z =>
      let a := Z.abs z in
      let sign := if z <? 0 then "-" else "" in
      if a <? 2 ^ 53 then pretty z
      else if a <? 10 ^ 21 then String.append sign (paddedString a)
      else String.append sign (exponentString a)
  | Infinity negative => if negative then "-Infinity" else "Infinity"
  | NaN => "NaN"
  end.

(** The interpolation of a count: ["null"] and ["undefined"] for the
    two that are none. *)
Definition countString (count : Count) : string :=
  match count with
  | CountNull => "null"
  | CountUndefined => "undefined"
  | CountOf n => numberString n
  end.

Definition plural (count : Count) : string :=
  if several count then "s" else "".

(** [setGlobalBadgeCount(unreadHighlights, unread, connectionStatus)],
    with the [@connectionStatus] that the manager remembers ([None]
    before the first call): the calls made, in order, and the status
    remembered afterwards. *)
Definition setGlobalBadgeCount (unreadHighlights unread : Count)
    (connectionStatus : string) (remembered : option string)
  : list Call * option string :=
  let state :=
    if positive unreadHighlights then "highlight"
    else if positive unread then "unread"
    else "rest" in
  let connectionStatus :=
    if nonzero unreadHighlights && String.eqb connectionStatus "online"
    then "highlight"
    else if nonzero unread && String.eqb connectionStatus "online"
    then "unread"
    else connectionStatus in
  let changed := negb (bool_decide (remembered = Some connectionStatus)) in
  let statusCalls :=
    if changed then [Tray_setConnectionStatus connectionStatus] else [] in
  let cleared :=
    if negb (given unreadHighlights) || negb (given unread)
    then [Dock_setBadge ""] else [] in
  let tail :=
    if positive unreadHighlights then
      [Dock_setBadge (countString unreadHighlights);
       Tray_setToolTip
         (String.append (countString unreadHighlights)
            (String.append " unread mention" (plural unreadHighlights)))]
    else if positive unread then
      [Tray_setToolTip
         (String.append (countString unread)
            (String.append " unread message" (plural unread)));
       Dock_setBadge "â€¢"]
    else [Tray_setToolTip "No unread messages"; Dock_setBadge ""] in
  (Tray_setState state :: statusCalls ++ cleared ++ tail,
   Some connectionStatus).

End BadgeManager.

(** ** NetworkStatus.checkInternetConnection (src/network-status.coffee) *)

Module NetworkCheck.


(** What the observable that the selector returns does: it yields a
    value, or fails.  An exception in the selector fails the
    observable. *)
Inductive Outcome :=
| Next (value : bool)
| Error (message : string).



End NetworkCheck.

(** ** LoadingScreen (src/renderer/loading-screen.js) *)

Module LoadingScreen.

(** The three messages of the loading screen. *)
Inductive Message := slackdown | offline | trying.

#[global] Instance Message_eq_dec : EqDecision Message.
Proof. solve_decision. Defined.

(** The style of an element: [display] and [opacity]. *)
Record Style := mkStyle {
  display : string;
  opacity : Z
}.

(** The styles of the three elements, and the callbacks handed to
    [rx.Scheduler.timeout.schedule] that did not run yet: each sets the
    opacity of its element to 1. *)
Record t := mk {
  style : Message → Style;
  scheduled : list Message
}.

Definition setStyle (m : Message) (f : Style → Style) (s : t) : t :=
  mk (λ x, if decide (x = m) then f (style s x) else style s x) (scheduled s).

Definition hide (m : Message) (s : t) : t :=
  setStyle m (λ _, mkStyle "none" 0) s.

(** [hideAll()]. *)
Definition hideAll (s : t) : t := hide trying (hide offline (hide slackdown s)).

(** [showOffline()], [showSlackDown()] and [showTrying()]: the three
    methods differ in the element only. *)
Definition show (m : Message) (s : t) : t :=
  let s := hideAll s in
  let s := setStyle m (λ st, mkStyle "table-cell" (opacity st)) s in
  mk (style s) (scheduled s ++ [m]).

Definition showOffline : t → t := show offline.
Definition showSlackDown : t → t := show slackdown.
Definition showTrying : t → t := show trying.

(** The scheduler runs the oldest callback. *)
Definition runScheduled (s : t) : t :=
  match scheduled s with
  | [] => s
  | m :: rest =>
      mk (style (setStyle m (λ st, mkStyle (display st) 1) s)) rest
  end.

(** What happens to a loading screen. *)
Inductive Call :=
| CallHideAll
| CallShow (m : Message)
| Tick.

Definition step (s : t) (c : Call) : t :=
  match c with
  | CallHideAll => hideAll s
  | CallShow m => show m s
  | Tick => runScheduled s
  end.

Definition run (calls : list Call) (s : t) : t := fold_left step calls s.

End LoadingScreen.

(** ** The calls that reach the controller between two updates *)

Module Events.
Import TeamsViewController.

(** The methods of the controller that web views, the team selector,
    the window and the timers call, apart from those that take a team
    list ([presentAvailableTeams], the [sorted] subscriber). *)
Inductive Event :=
| FetchTeam (teamId : val) (forceCreate : bool)
| MakeTeamPrimary (team : option loc)
| UpdateBadgeInfoForTeam (team : option loc) (badgeInfo : option BadgeInfo)
                         (updateAll : bool)
| SetBadgeCount (webViewId : val) (badgeInfo : option BadgeInfo)
| MoveTeamByOffset (offset : Z)
| WebViewCrashed (w : nat) (type : string)
| SerializeTeamList
| TrashAllTeamWebviews.

Definition handle (e : Event) : M unit :=
  match e with
  | FetchTeam teamId forceCreate => fetchTeam teamId forceCreate ;; ret tt
  | MakeTeamPrimary team => makeTeamPrimary team ;; ret tt
  | UpdateBadgeInfoForTeam team badgeInfo updateAll =>
      updateBadgeInfoForTeam team badgeInfo updateAll
  | SetBadgeCount webViewId badgeInfo =>
      TeamList.onSetBadgeCount webViewId badgeInfo
  | MoveTeamByOffset offset => TeamList.moveTeamByOffset offset
  | WebViewCrashed w type => onWebViewCrashed w type
  | SerializeTeamList => serializeTeamList
  | TrashAllTeamWebviews => TeamList.trashAllTeamWebviews
  end.

(** The events are handled one after the other; an exception ends the
    call that raised it, and the state it left is the state the next
    call finds. *)
Definition handleAll (events : list Event) (s : State) : State :=
  fold_left (λ s e, finalState (handle e s)) events s.

End Events.

Open Scope list_scope.

(** ** Vocabulary of the properties *)

Module Properties.
Import TeamsViewController.

(** *** Sample data *)

(** A team hash as the page sends it. *)
Definition incomingTeam (team_id user : string) (name : string) : Team.t :=
  Team.mk (VStr user) (VStr team_id) (VStr name)
          (VStr (String.append "https://" (String.append name ".slack.com/")))
          VUndefined None None None None None None None false.

(** A fresh controller over one stored team, after [fetchTeam] gave the
    team its web view. *)
Definition oneTeamLoaded : State :=
  finalState
    (fetchTeam (VStr "T1") false
       (constructor [incomingTeam "T1" "U1" "acme"] ∅ false false)).

(** The [team_id] of the hash at a location. *)
Definition tid (h : gmap loc Team.t) (l : loc) : val := Team.team_id (deref h l).

(** The [team_id]s of a list of team locations, in order. *)
Definition teamIds (h : gmap loc Team.t) (l : list loc) : list val :=
  map (tid h) l.

(** The registry invariant: no two records share a [team_id]. *)
Definition uniqueIds (s : State) : Prop :=
  NoDup (teamIds (heap s) (teamList s)).

(** The number of records of the registry whose [team_id] is
    ['__signin__']. *)
Definition signinCount (s : State) : nat :=
  length (filter (λ v, v = SIGNIN) (teamIds (heap s) (teamList s))).

(** Everything in the controller state but the heap and the team list. *)
Definition others (s : State) :=
  (primaryTeam s, primaryTeamDisp s, haveMergedTeamListOnce s, themeInfo s,
   savedTsDevMenu s, hasReporter s, hasBugsnag s, nextRef s, effects s).

(** A hash with the cached theme and icon data refreshed onto it. *)
Definition themed (themeInfo : gmap string ThemeCache.ThemeData) (t : Team.t)
  : Team.t :=
  Team.extend t (ThemeCache.fetchThemeInfoAndIconsForTeam themeInfo t).

(** The record that replaces [item] when the incoming hash [newTeam]
    matches it: the incoming data, with [webView], [webViewLoaded],
    [icons] and [initials] of the item, then the cached data. *)
Definition updatedRecord (themeInfo : gmap string ThemeCache.ThemeData)
    (newTeam item : Team.t) : Team.t :=
  themed themeInfo (Team.extend newTeam (Team.pick item)).

(** What step 3 of [mergeTeamList] makes of the slot [i] that held
    [item]: the first incoming hash with the item's [team_id] takes the
    slot, as an [updatedRecord]; without one the item is marked. *)
Definition slotSpec (us : list loc) (s s' : State) (i : nat) (item : loc)
  : Prop :=
  match findTeam (heap s) (sameTeamId (heap s) item) us with
  | Some newTeam =>
      teamList s' !! i = Some newTeam
      ∧ deref (heap s') newTeam
        = updatedRecord (themeInfo s) (deref (heap s) newTeam)
                        (deref (heap s) item)
  | None =>
      teamList s' !! i = Some item
      ∧ deref (heap s') item = Team.set_shouldDelete true (deref (heap s) item)
  end.

(** The state after step 1 of [mergeTeamList]. *)
Definition fixupState (us : list loc) (s : State) : State :=
  match findTeam (heap s) isSigninTeam (teamList s), us with
  | Some signinTeam, first :: _ =>
      set_teamList [first]
        (set_heap
           (update first
              (λ t, Team.extend t (Team.pick (deref (heap s) signinTeam)))
              (heap s))
           s)
  | _, _ => s
  end.

(** What step 2 did between [s] and [s']: it appended the teams [added],
    all incoming and each with an id that was new, and refreshed the
    cached data onto them. *)
Definition addedBy (us : list loc) (s : State) (added : list loc) (s' : State)
  : Prop :=
  teamList s' = teamList s ++ added
  ∧ others s' = others s
  ∧ (∀ x, x ∈ added → x ∈ us)
  ∧ (∀ x, tid (heap s') x = tid (heap s) x)
  ∧ (∀ x, (deref (heap s') x = deref (heap s) x)
          ∨ (x ∈ added
             ∧ (tid (heap s) x ∉ teamIds (heap s) (teamList s))
             ∧ deref (heap s') x = themed (themeInfo s) (deref (heap s) x)))
  ∧ (uniqueIds s → uniqueIds s')
  ∧ (∀ u, u ∈ us → tid (heap s) u ∈ teamIds (heap s') (teamList s')).

(** What step 3 did between [s] and [s']. *)
Definition updatedBy (us : list loc) (s s' : State) : Prop :=
  others s' = others s
  ∧ (∀ x, tid (heap s') x = tid (heap s) x)
  ∧ length (teamList s') = length (teamList s)
  ∧ (∀ x, (∀ item, item ∈ teamList s → tid (heap s) x ≠ tid (heap s) item) →
          deref (heap s') x = deref (heap s) x)
  ∧ (∀ i item, teamList s !! i = Some item → slotSpec us s s' i item)
  ∧ teamIds (heap s') (teamList s') = teamIds (heap s) (teamList s).

(** The teams that step 4 keeps and the web views that it hands over
    for disposal. *)
Definition kept (h : gmap loc Team.t) (l : list loc) : list loc :=
  filter (λ x, Team.shouldDelete (deref h x) = false) l.

Definition disposed (h : gmap loc Team.t) (l : list loc) : list val :=
  omap (λ x, if Team.shouldDelete (deref h x)
                && truthy (readProp (Team.webView (deref h x)))
             then Some (readProp (Team.webView (deref h x))) else None) l.

(** A sequence of [mergeTeamList] calls: the states after each call.  A
    call that throws leaves the state as it was when it threw. *)
Fixpoint registries (calls : list (option (list loc))) (s : State)
  : list State :=
  match calls with
  | [] => []
  | updatedTeamList :: rest =>
      let s' := finalState (mergeTeamList updatedTeamList s) in
      s' :: registries rest s'
  end.

(** The incoming lists that meet an empty registry, and are adopted as
    they are, have no duplicate [team_id]. *)
Fixpoint adoptsUnique (calls : list (option (list loc))) (s : State) : Prop :=
  match calls with
  | [] => True
  | updatedTeamList :: rest =>
      (teamList s = [] →
       NoDup (teamIds (heap s) (default [] updatedTeamList)))
      ∧ adoptsUnique rest (finalState (mergeTeamList updatedTeamList s))
  end.

(** A registry with the team T1, loaded, and two incoming hashes in the
    heap: T1 under a new name at location 1, and T2 at location 2. *)
Definition oneTeamAndIncoming : State :=
  set_heap
    (allocate 1%nat
       [incomingTeam "T1" "U1" "acme-corp"; incomingTeam "T2" "U2" "umbrella"]
       (heap oneTeamLoaded))
    oneTeamLoaded.

(** A ['__signin__'] placeholder, if the registry has one, is its only
    record. *)
Definition placeholderAlone (s : State) : Prop :=
  ∀ x, x ∈ teamList s → tid (heap s) x = SIGNIN → teamList s = [x].

(** A registry with the team T1, loaded, whose cached initials (from an
    earlier session) differ from the ones computed from its name, and an
    incoming hash for T1 at location 1. *)
Definition staleInitials : State :=
  let s :=
    finalState
      (fetchTeam (VStr "T1") false
         (constructor [incomingTeam "T1" "U1" "acme"]
            {[ "T1" := ThemeCache.mkThemeData None None None (Some (VStr "AC")) ]}
            false false)) in
  set_heap (allocate 1%nat [incomingTeam "T1" "U1" "acme"] (heap s)) s.



(** A controller that merged before and whose registry is empty again. *)
Definition mergedAndEmpty : State :=
  set_haveMergedTeamListOnce true (constructor [] ∅ false false).

(** Two incoming hashes with the same [team_id], and no registry yet. *)
Definition duplicateIncoming : State :=
  set_heap
    (allocate 0%nat [incomingTeam "T1" "U1" "acme"; incomingTeam "T1" "U1" "acme"] ∅)
    (constructor [] ∅ false false).



(** The state after one more effect. *)
Definition andThen (s : State) (es : list Effect) : State :=
  set_effects (effects s ++ es) s.

(** A team is the primary team, by [team_id]. *)
Definition isPrimary (s : State) (team : loc) : Prop :=
  ∃ p, primaryTeam s = Some p
       ∧ Team.team_id (deref (heap s) team) = Team.team_id (deref (heap s) p).

(** *** Badges *)














(** The calls of [setSelectionStatus] that [updateBadgeInfoForTeam]
    makes: one per team when [updateAll], else one for the team found. *)
Definition selectionStatus (s : State) (p team : loc) : Effect :=
  TeamSelector_setSelectionStatus team
    (strictEq (Team.team_id (deref (heap s) team))
              (Team.team_id (deref (heap s) p))).





End Properties.

(** ** Further vocabulary *)

Module MoreProperties.
Import TeamsViewController Properties.

(** No two records of the registry hold the same live web view. *)
Definition distinctWebViews (s : State) : Prop :=
∀ i j l l' v,
  i ≠ j →
  teamList s !! i = Some l →
  teamList s !! j = Some l' →
  Team.webView (deref (heap s) l) = Some v →
  truthy v = true →
  Team.webView (deref (heap s) l') ≠ Some v.

(** The registry has no ['__signin__'] placeholder. *)
Definition noPlaceholder (s : State) : Prop :=
∀ x, x ∈ teamList s → tid (heap s) x ≠ SIGNIN.

(** The web view of a record that is handed over for disposal when the
  record is dropped. *)
Definition liveWebView (h : gmap loc Team.t) (l : loc) : option val :=
if truthy (readProp (Team.webView (deref h l)))
then Some (readProp (Team.webView (deref h l))) else None.

(** Every web view held by the registry was created before the next
  reference to be handed out. *)
Definition webViewsAllocated (s : State) : Prop :=
∀ l w, l ∈ teamList s →
       Team.webView (deref (heap s) l) = Some (VRef w) → (w < nextRef s)%nat.

(** The registry as the controller expects it: distinct ids, web views
  that exist, no web view shared by two records. *)
Definition registryOk (s : State) : Prop :=
uniqueIds s ∧ webViewsAllocated s ∧ distinctWebViews s.

(** A record holds a web view. *)
Definition loaded (h : gmap loc Team.t) (l : loc) : Prop :=
truthy (readProp (Team.webView (deref h l))) = true.

(** The name of a record is one [getInitialsOfName] accepts: falsy, or a
  string. *)
Definition nameOk (h : gmap loc Team.t) (l : loc) : Prop :=
Initials.getInitialsOfName (Team.team_name (deref h l)) None ≠ None.

(** The web view of a record, when it holds one, is a web view context. *)
Definition webViewOk (h : gmap loc Team.t) (l : loc) : Prop :=
truthy (readProp (Team.webView (deref h l))) = true →
∃ w, Team.webView (deref h l) = Some (VRef w).

(** A registry of two teams, the first with a web view and the second
  without. *)
Definition twoTeams : State :=
set_nextRef 2%nat
  (set_teamList [0%nat; 1%nat]
     (set_heap
        (<[0%nat := Team.set_webView (VRef 0%nat) (VRef 1%nat)
                      (Team.mk VUndefined (VStr "T1") (VStr "Acme Corp")
                         (VStr "https://acme.slack.com") VUndefined None None
                         None None None None None false)]>
           (<[1%nat := Team.mk VUndefined (VStr "T2") (VStr "Beta Labs Inc")
                         (VStr "https://beta.slack.com") VUndefined None None
                         None None None None None false]> ∅))
        (TeamsViewController.constructor [] ∅ false false))).

(** The web views that loading a list of records creates, in order, when
  [n] is the next reference: one for each record without a web view. *)
Fixpoint newWebViews (h : gmap loc Team.t) (n : nat) (l : list loc) : list Effect :=
match l with
| [] => []
| x :: rest =>
    if truthy (readProp (Team.webView (deref h x))) then newWebViews h n rest
    else WebView_new n (Team.team_url (deref h x))
         :: newWebViews h (S (S n)) rest
end.

(** The registry after the badge state [b] was stored on the record [l]. *)
Definition storeBadge (l : loc) (b : BadgeInfo) (s : State) : State :=
set_heap (update l (Team.set_badgeInfo (Some b)) (heap s)) s.

(** A method that only adds to the effect log. *)
Definition onlyEffects {A} (m : M A) : Prop :=
∀ s, ∃ es, finalState (m s) = set_effects (effects s ++ es) s.

(** The serial disposable goes with the primary team: it holds the
  composite made for the primary team, and the empty disposable when
  there is no primary team. *)
Definition disposableFollowsPrimary (s : State) : Prop :=
match primaryTeamDisp s with
| Some d => primaryTeam s = Some (owner d)
| None => primaryTeam s = None
end.

(** A subscription: the [windowFocus] listener made for a team, or the
  subscription to the [crashed] observable of a web view made for a
  team. *)
Inductive Subscription :=
| FocusOf (team : loc)
| CrashOf (w : nat) (team : loc).

#[global] Instance Subscription_eq_dec : EqDecision Subscription.
Proof. solve_decision. Defined.

(** One subscription less: the oldest of that kind. *)
Fixpoint cancel (x : Subscription) (live : list Subscription)
: list Subscription :=
match live with
| [] => []
| y :: rest => if decide (x = y) then rest else y :: cancel x rest
end.

(** What an effect does to the subscriptions that are live. *)
Definition subscribe (live : list Subscription) (e : Effect)
: list Subscription :=
match e with
| WindowFocus_listen team => live ++ [FocusOf team]
| WindowFocus_unlisten team => cancel (FocusOf team) live
| Crashed_subscribe w team => live ++ [CrashOf w team]
| Crashed_unsubscribe w team => cancel (CrashOf w team) live
| _ => live
end.

(** The subscriptions made and not cancelled in a log, oldest first. *)
Definition liveSubscriptions (log : list Effect) : list Subscription :=
fold_left subscribe log [].

(** The subscriptions that the serial disposable holds, and so can
  cancel. *)
Definition held (s : State) : list Subscription :=
match primaryTeamDisp s with
| Some d => [FocusOf (owner d); CrashOf (crashedOn d) (owner d)]
| None => []
end.

(** The subscriptions are in step with the primary team: those that are
  live are the ones that the serial disposable holds, and they are the
  primary team's. *)
Definition subscriptionsInStep (s : State) : Prop :=
disposableFollowsPrimary s ∧ liveSubscriptions (effects s) = held s.

(** A call on the team selector or on the badge manager. *)
Definition badgeEffect (e : Effect) : Prop :=
match e with
| TeamSelector_setSelectionStatus _ _ => True
| BadgeManager_setGlobalBadgeCount _ _ _ => True
| _ => False
end.

(** The calls of [dispose] that burning the web views of a list of
  records makes, in order. *)
Definition disposals (h : gmap loc Team.t) (l : list loc) : list Effect :=
omap (λ x, match Team.webView (deref h x) with
           | Some (VRef w) => Some (WebView_dispose w)
           | _ => None
           end) l.

(** The team hashes, the registry, the primary team and its
  subscriptions. *)
Definition primaryView (s : State) :=
(heap s, teamList s, primaryTeam s, primaryTeamDisp s).

(** Three loaded teams; the second one is primary. *)
Definition threeTeams : State :=
let team (id url : string) (w : nat) :=
  Team.set_webView (VRef w) (VRef (S w))
    (Team.mk VUndefined (VStr id) (VStr id) (VStr url) VUndefined
             None None None None None None None false) in
set_primaryTeamDisp (Some (mkPrimaryDisposable 1%nat 2%nat))
  (set_primaryTeam (Some 1%nat)
     (set_nextRef 6%nat
        (set_teamList [0%nat; 1%nat; 2%nat]
           (set_heap
              (<[0%nat := team "T1" "https://a.slack.com" 0%nat]>
                 (<[1%nat := team "T2" "https://b.slack.com" 2%nat]>
                    (<[2%nat := team "T3" "https://c.slack.com" 4%nat]> ∅)))
              (TeamsViewController.constructor [] ∅ false false))))).

(** *** The calls of the badge manager, by receiver *)

Definition trayStates (calls : list BadgeManager.Call) : list string :=
omap (λ c, match c with BadgeManager.Tray_setState x => Some x | _ => None end)
     calls.

Definition overlayStatuses (calls : list BadgeManager.Call) : list string :=
omap (λ c, match c with
           | BadgeManager.Tray_setConnectionStatus x => Some x
           | _ => None
           end) calls.

Definition toolTips (calls : list BadgeManager.Call) : list string :=
omap (λ c, match c with BadgeManager.Tray_setToolTip x => Some x | _ => None end)
     calls.

Definition dockBadges (calls : list BadgeManager.Call) : list string :=
omap (λ c, match c with BadgeManager.Dock_setBadge x => Some x | _ => None end)
     calls.

(** *** Replies to a request *)


(** *** Presenting the teams *)

(** The update tells that the user signed out of the last team. *)
Definition lastSignOut (s : State) (us : list loc) : bool :=
match us with
| [only] =>
    strictEq (Team.reason (deref (heap s) only)) (VStr "didSignOut")
    && TeamsViewController.hasSigninId (deref (heap s) only)
    && (length (teamList s) =? 1)%nat
| _ => false
end.

(** A team that can be asked to send the teams again: it is not the
  placeholder and it holds a web view. *)
Definition canRefresh (h : gmap loc Team.t) (l : loc) : bool :=
negb (TeamsViewController.hasSigninId (deref h l))
&& truthy (readProp (Team.webView (deref h l))).

(** What disposing the subscriptions of the primary team does. *)
Definition released (s : State) : list Effect :=
match primaryTeamDisp s with
| None => []
| Some old =>
    match Team.webView (deref (heap s) (owner old)) with
    | Some (VRef w) => [WebView_hide w]
    | _ => []
    end
    ++ [WindowFocus_unlisten (owner old);
        Crashed_unsubscribe (crashedOn old) (owner old)]
end.

(** The effects of a call of [makeTeamPrimary] that changes the primary
  team to a team that holds web view [w], in order; [badge] stands for
  the calls of [updateBadgeInfoForTeam]. *)
Definition switched (s : State) (team : loc) (w : nat) (badge : list Effect)
: list Effect :=
[LoadingScreen_hideAll;
 SendToBrowser "teams:team-changed"
   [("teamName", Team.team_name (deref (heap s) team));
    ("webViewId", TeamsViewController.webViewIdOf w)];
 WindowFocus_listen team;
 Crashed_subscribe w team]
++ (if hasBugsnag s
    then [Bugsnag_user (Team.team_id (deref (heap s) team))
                       (Team.id (deref (heap s) team))]
    else [])
++ released s
++ [WebView_show w]
++ badge
++ [LoadDisposable_dispose].

(** The three teams once the subscriptions of the primary one were
  made. *)
Definition threeTeamsSubscribed : State :=
set_effects [WindowFocus_listen 1%nat; Crashed_subscribe 2%nat 1%nat]
  threeTeams.

(** The web view of the team whose subscriptions are held, if it has one,
  is a web view context. *)
Definition ownerOk (s : State) : Prop :=
∀ d, primaryTeamDisp s = Some d → webViewOk (heap s) (owner d).

(** The state after the last team was signed out of. *)
Definition signedOut (l : loc) (s : State) : State :=
set_primaryTeamDisp None
  (set_primaryTeam None
     (set_teamList []
        (set_haveMergedTeamListOnce true
           (set_heap (update l (Team.set_shouldDelete true) (heap s)) s)))).

(** One loaded team that is primary, and the dummy hash that the web app
  sends when the user signs out of it. *)
Definition lastTeam : State :=
set_primaryTeamDisp (Some (mkPrimaryDisposable 0%nat 0%nat))
  (set_primaryTeam (Some 0%nat)
     (set_nextRef 2%nat
        (set_teamList [0%nat]
           (set_heap
              (<[0%nat := Team.set_webView (VRef 0%nat) (VRef 1%nat)
                            (Team.mk (VStr "T1") (VStr "T1") (VStr "Acme")
                               (VStr "https://acme.slack.com") VUndefined
                               None None None None None None None false)]>
                 (<[1%nat := Team.mk SIGNIN SIGNIN VUndefined VUndefined
                               (VStr "didSignOut")
                               None None None None None None None false]> ∅))
              (TeamsViewController.constructor [] ∅ false false))))).

(** Three loaded teams and the dummy hash that the web app sends while
  the user signs in to another one. *)
Definition signingIn : State :=
set_heap
  (<[3%nat := Team.mk SIGNIN SIGNIN VUndefined VUndefined (VStr "didSignIn")
                None None None None None None None false]> (heap threeTeams))
  threeTeams.

(** The part of the state that loading web views does not touch. *)
Definition controlView (s : State) :=
(teamList s, primaryTeam s, primaryTeamDisp s, haveMergedTeamListOnce s,
 savedTsDevMenu s, hasReporter s, hasBugsnag s).

(** [s'] differs from [s] at most in the primary team, its subscriptions
  and a longer effect log. *)
Definition restView (s : State) :=
(heap s, teamList s, haveMergedTeamListOnce s, themeInfo s,
 savedTsDevMenu s, hasReporter s, hasBugsnag s, nextRef s).

Definition sameButPrimary (s s' : State) : Prop :=
restView s' = restView s ∧ ∃ es, effects s' = effects s ++ es.

(** A method that changes nothing but the primary team, its subscriptions
  and the effect log. *)
Definition primaryOnly {A} (m : M A) : Prop :=
∀ s, sameButPrimary s (finalState (m s)).

(** [s'] has the registry of [s], with the same [team_id]s. *)
Definition sameIds (s s' : State) : Prop :=
teamList s' = teamList s ∧ ∀ l, tid (heap s') l = tid (heap s) l.

(** A method that changes neither the registry nor a [team_id]. *)
Definition idsKept {A} (m : M A) : Prop :=
∀ s, sameIds s (finalState (m s)).

(** A method that keeps the registry well formed, whether it returns or
  raises. *)
Definition okKept {A} (m : M A) : Prop :=
∀ s, registryOk s → registryOk (finalState (m s)).

(** The primary team and what the serial disposable holds. *)
Definition primaryPair (s : State) := (primaryTeam s, primaryTeamDisp s).

(** A method after which the serial disposable still goes with the
  primary team. *)
Definition followKept {A} (m : M A) : Prop :=
∀ s, disposableFollowsPrimary s → disposableFollowsPrimary (finalState (m s)).

End MoreProperties.

(** * Proofs *)

(** ** Strings *)

Lemma append_nil_r (s : string) : String.append s "" = s.
Proof.
  induction s as [|c s IH]; [done|].
  change (String c (String.append s "") = String c s). by rewrite IH.
Qed.

Lemma append_assoc (a b c : string) :
  String.append (String.append a b) c = String.append a (String.append b c).
Proof.
  induction a as [|x a IH]; [done|].
  change (String x (String.append (String.append a b) c)
          = String x (String.append a (String.append b c))).
  by rewrite IH.
Qed.

Lemma substring0_length (n : nat) (s : string) :
  (String.length (substring0 n s) ≤ n)%nat.
Proof.
  unfold substring0. revert s.
  induction n as [|n IH]; intros [|c s]; simpl; try lia.
  specialize (IH s). lia.
Qed.

Lemma length_zero_empty (w : string) : (String.length w <? 1)%nat = true ↔ w = "".
Proof.
  destruct w; simpl; split; intros H; try done.
Qed.

(** ** getInitialsOfName *)

Section InitialsFacts.
Import Initials.

Lemma fold_appendInitial (words : list string) (acc : string) :
  fold_left appendInitial words acc
  = String.append acc
      (String.concat "" (map (substring0 1) (filter (λ w, w ≠ "") words))).
Proof.
  revert acc. induction words as [|w words IH]; intros acc; simpl.
  { by rewrite append_nil_r. }
  rewrite IH. unfold appendInitial.
  destruct (String.length w <? 1)%nat eqn:Hw.
  - apply length_zero_empty in Hw as ->.
    by rewrite filter_cons_False by (intros ?; done).
  - assert (w ≠ "") as Hne.
    { intros ->. simpl in Hw. done. }
    rewrite filter_cons_True by done. simpl.
    rewrite append_assoc. f_equal.
    destruct (map (substring0 1) (filter (λ w0, w0 ≠ "") words)) as [|y ys] eqn:E;
      simpl; [by rewrite append_nil_r | done].
Qed.

End InitialsFacts.

(** C10. [getInitialsOfName] returns the empty string for a [null],
    [undefined] or empty name; for any other string it returns the first
    characters of the non-empty space-separated words, cut to [maxLength]
    characters (2 by default); whatever it returns is never longer than
    [maxLength]. *)
Theorem getInitialsOfName_initials :
  (∀ maxLength,
      Initials.getInitialsOfName VNull maxLength = Some ""
      ∧ Initials.getInitialsOfName VUndefined maxLength = Some ""
      ∧ Initials.getInitialsOfName (VStr "") maxLength = Some "")
  ∧ (∀ name maxLength,
      Initials.getInitialsOfName (VStr name) maxLength
      = Some (Initials.initials_described name (default 2%nat maxLength)))
  ∧ (∀ name maxLength,
      match Initials.getInitialsOfName name maxLength with
      | Some initials => (String.length initials ≤ default 2%nat maxLength)%nat
      | None => True
      end).
Proof.
  assert (∀ name maxLength,
      Initials.getInitialsOfName (VStr name) maxLength
      = Some (Initials.initials_described name (default 2%nat maxLength))) as Hstr.
  { intros name maxLength. unfold Initials.getInitialsOfName. simpl.
    destruct (String.eqb name "") eqn:E; simpl.
    - apply String.eqb_eq in E as ->. by destruct (default 2%nat maxLength).
    - by rewrite fold_appendInitial. }
  split; [|split].
  - done.
  - exact Hstr.
  - intros name maxLength.
    destruct name as [| |[]|n|s|r|f];
      try (rewrite Hstr; apply substring0_length);
      unfold Initials.getInitialsOfName; simpl; try lia; try done.
    destruct (n =? 0); simpl; [lia|done].
Qed.

(** ** handleWebViewCrash *)





(** ** executeJavaScript *)

Section ExecuteJavaScriptFacts.
Import SlackWebViewContext.
Context {Json : Type} (JSON_parse : string → option Json).

Lemma catchReturnNull_not_rejected (source : Settled (option Json)) e :
  catchReturnNull source ≠ Rejected e.
Proof. by destruct source. Qed.

Lemma executeJavaScript_not_rejected wv code uuid incoming e :
  (executeJavaScript JSON_parse wv code uuid incoming).2 ≠ Rejected e.
Proof.
  unfold executeJavaScript. destruct wv; simpl; [|done].
  apply catchReturnNull_not_rejected.
Qed.

End ExecuteJavaScriptFacts.

(** C8 (the code departs from the claim). A reply that carries an error
    and arrives in time does not reject the observable that
    [executeJavaScript] returns: the [catch] that turns the timeout into
    [null] also swallows the error of the reply, so the observable never
    rejects at all. *)
Theorem executeJavaScript_error_reply_resolves_null :
  (∀ (Json : Type) (JSON_parse : string → option Json) wv code uuid incoming e,
      (SlackWebViewContext.executeJavaScript JSON_parse wv code uuid incoming).2
      ≠ SlackWebViewContext.Rejected e)
  ∧ (∀ (Json : Type) (JSON_parse : string → option Json),
      SlackWebViewContext.executeJavaScript JSON_parse true "TS.refreshTeams()" "id-1"
        [(5%nat,
          SlackWebViewContext.mkIpcMessage "eval-async"
            [SlackWebViewContext.mkEvalReply "id-1" None
               (Some ("TS is not defined", "at <anonymous>"))])]
      = (Some (SlackWebViewContext.mkRequest "TS.refreshTeams()" "id-1"),
         SlackWebViewContext.Resolved None)).
Proof.
  split.
  - intros. apply executeJavaScript_not_rejected.
  - intros. reflexivity.
Qed.

(** ** The network status handler *)

(** C7 (the code departs from the claim). When the status turns offline
    the handler clears the primary team and then always shows the offline
    screen: it compares the method [reason] itself, not its result, with
    ['slackDown'], so the "slack is down" screen is never shown, not even
    when the browser is online and the reason of the failed check is
    ['slackDown'].  Turning online presents the teams again. *)
Theorem onStatus_never_shows_slack_down :
  (∀ networkStatus s,
      NetworkStateMachine.onStatus networkStatus false s
      = (TeamsViewController.makeTeamPrimary None ;;
         emit LoadingScreen_showOffline) s)
  ∧ (∀ networkStatus s,
      NetworkStateMachine.onStatus networkStatus true s
      = TeamsViewController.presentAvailableTeams None s)
  ∧ effects (finalState
       (NetworkStateMachine.onStatus (NetworkStatus.mk true (VStr "slackDown"))
          false (TeamsViewController.constructor [] ∅ true false)))
    = [LoadingScreen_showTrying; SendToBrowser "teams:team-changed" [];
       LoadingScreen_showOffline].
Proof.
  split; [|split].
  - intros ns s. unfold NetworkStateMachine.onStatus.
    replace (strictEq (NetworkStatus.member ns "reason") (VStr "slackDown"))
      with false by done.
    by rewrite andb_false_r.
  - done.
  - reflexivity.
Qed.

(** ** What a method leaves unchanged *)

(** [keeps f m]: the component [f] of the state is the same after [m],
    whether [m] returns or throws. *)
Definition keeps {A X} (f : State → X) (m : M A) : Prop :=
  ∀ s, f (finalState (m s)) = f s.

Section Keeps.
Context {X : Type} (f : State → X).

Lemma keeps_ret {A} (a : A) : keeps f (ret a).
Proof. by intros s. Qed.

Lemma keeps_throw {A} e : keeps f (@throw A e).
Proof. by intros s. Qed.

Lemma keeps_get : keeps f get.
Proof. by intros s. Qed.

Lemma keeps_bind {A B} (m : M A) (k : A → M B) :
  keeps f m → (∀ a, keeps f (k a)) → keeps f (bind m k).
Proof.
  intros Hm Hk s. unfold bind. specialize (Hm s).
  destruct (m s) as [a s'|e s']; simpl in *; [|done].
  by rewrite Hk.
Qed.

Lemma keeps_modify (g : State → State) :
  (∀ s, f (g s) = f s) → keeps f (modify g).
Proof. intros Hg s. apply Hg. Qed.

Lemma keeps_when (b : bool) (m : M unit) : keeps f m → keeps f (when b m).
Proof. destruct b; [done|]. intros _. apply keeps_ret. Qed.

Lemma keeps_forEach {A} (body : A → M unit) (l : list A) :
  (∀ x, keeps f (body x)) → keeps f (forEach body l).
Proof.
  intros Hbody. induction l as [|x l IH]; simpl.
  - apply keeps_ret.
  - apply keeps_bind; [apply Hbody | intros _; apply IH].
Qed.

Hypothesis f_effects : ∀ e s, f (set_effects e s) = f s.

Lemma keeps_emit (e : Effect) : keeps f (emit e).
Proof. apply keeps_modify. intros s. apply f_effects. Qed.

Lemma keeps_callWebView v method : keeps f (callWebView v method).
Proof. destruct v; simpl; try apply keeps_throw. apply keeps_emit. Qed.

End Keeps.

(** ** What a method ensures when it returns *)


Section Ensures.
Context {A : Type}.






End Ensures.





(** The registry part of the state: everything but the effect log, the
    primary disposable and the counter of fresh references. *)
Definition registryView (s : State) :=
  (heap s, teamList s, primaryTeam s, haveMergedTeamListOnce s).

Section PrimaryFacts.
Import TeamsViewController.





(** A team that is primary stays so by one more [makeTeamPrimary]: the
    call hides the loading screen and returns the team. *)
Lemma makeTeamPrimary_already_primary s team :
  Properties.isPrimary s team →
  makeTeamPrimary (Some team) s
  = Returns (ReturnedTeam team) (Properties.andThen s [LoadingScreen_hideAll]).
Proof.
  intros (p & Hp & Hid).
  unfold makeTeamPrimary, bind, emit, modify, get. simpl.
  rewrite Hp. unfold strictEq. rewrite bool_decide_eq_true_2 by done. done.
Qed.


End PrimaryFacts.

(** ** Badge aggregation *)

Section BadgeFacts.
Import TeamsViewController Properties.

Lemma andThen_andThen s a b : andThen (andThen s a) b = andThen s (a ++ b).
Proof. unfold andThen, set_effects. simpl. by rewrite app_assoc. Qed.

Lemma andThen_nil s : andThen s [] = s.
Proof. unfold andThen, set_effects. rewrite app_nil_r. by destruct s. Qed.












Lemma badgeLoop_returns s p updateAll teams acc :
  primaryTeam s = Some p →
  badgeLoop updateAll teams acc s
  = Returns
      (fold_left accumulate (map (λ t, Team.badgeInfo (deref (heap s) t)) teams) acc)
      (andThen s (if updateAll then map (selectionStatus s p) teams else [])).
Proof.
  intros Hp. revert s acc Hp.
  induction teams as [|t teams IH]; intros s acc Hp; simpl.
  - unfold ret. f_equal. symmetry. destruct updateAll; apply andThen_nil.
  - unfold bind at 1, readTeam, bind at 1, get, ret. unfold bind at 1.
    destruct updateAll; simpl.
    + unfold setSelectionStatus, bind at 1, get. rewrite Hp.
      unfold emit, modify.
      change (set_effects _ s) with (andThen s [selectionStatus s p t]).
      rewrite (IH (andThen s [selectionStatus s p t])) by done.
      by rewrite andThen_andThen.
    + unfold ret. by rewrite IH.
Qed.

End BadgeFacts.



(** ** Switching the primary team *)

Section Switch.
Import TeamsViewController Properties MoreProperties.

Lemma bind_when_emit {B} b e (k : unit → M B) s :
  bind (when b (emit e)) k s
  = k tt (if b then set_effects (effects s ++ [e]) s else s).
Proof. by destruct b. Qed.

Lemma bind_emit {B} e (k : unit → M B) s :
  bind (emit e) k s = k tt (andThen s [e]).
Proof. done. Qed.

Lemma bind_get {B} (k : State → M B) s : bind get k s = k s s.
Proof. done. Qed.

Lemma bind_modify {B} f (k : unit → M B) s : bind (modify f) k s = k tt (f s).
Proof. done. Qed.

Lemma bind_when_emit_andThen {B} b e (k : unit → M B) s :
  bind (when b (emit e)) k s = k tt (andThen s (if b then [e] else [])).
Proof. destruct b; [done|]. by rewrite andThen_nil. Qed.

Lemma heap_andThen s es : heap (andThen s es) = heap s.
Proof. done. Qed.

Lemma primaryTeam_andThen s es : primaryTeam (andThen s es) = primaryTeam s.
Proof. done. Qed.

Lemma hasBugsnag_andThen s es : hasBugsnag (andThen s es) = hasBugsnag s.
Proof. done. Qed.

Lemma set_primaryTeam_andThen p s es :
  set_primaryTeam p (andThen s es) = andThen (set_primaryTeam p s) es.
Proof. done. Qed.

Lemma set_primaryTeamDisp_andThen d s es :
  set_primaryTeamDisp d (andThen s es) = andThen (set_primaryTeamDisp d s) es.
Proof. done. Qed.

Lemma released_andThen p s es :
  released (andThen (set_primaryTeam p s) es) = released s.
Proof. done. Qed.

(** The serial disposable takes the new disposable and releases what
    it held. *)
Lemma setDisposable_eq d s :
  ownerOk s →
  setDisposable d s
  = Returns tt (andThen (set_primaryTeamDisp d s) (released s)).
Proof.
  intros Hok. unfold setDisposable, released.
  unfold bind at 1, get. unfold bind at 1, modify at 1.
  destruct (primaryTeamDisp s) as [old|] eqn:Hold.
  - specialize (Hok old Hold). unfold webViewOk in Hok.
    unfold readTeam, bind, get, ret, emit, modify.
    cbn [heap set_primaryTeamDisp].
    destruct (truthy (readProp (Team.webView (deref (heap s) (owner old)))))
      eqn:Htr.
    + destruct (Hok eq_refl) as [w Hw]. rewrite Hw. simpl.
      unfold andThen, set_effects. simpl. f_equal. f_equal.
      by rewrite <- !app_assoc.
    + simpl.
      replace (match Team.webView (deref (heap s) (owner old)) with
               | Some (VRef w) => [WebView_hide w] | _ => [] end)
        with (@nil Effect).
      * unfold andThen, set_effects. simpl. f_equal. f_equal.
        by rewrite <- !app_assoc.
      * destruct (Team.webView (deref (heap s) (owner old)))
          as [[| | | | |w|]|]; simpl in Htr; done.
  - unfold ret. by rewrite andThen_nil.
Qed.

(** Clearing the primary team, when the subscriptions can be disposed. *)
Lemma makeTeamPrimary_None_eq s :
  ownerOk s →
  makeTeamPrimary None s
  = Returns ReturnedNull
      (set_effects
         (effects s ++ released s
          ++ [LoadingScreen_showTrying; SendToBrowser "teams:team-changed" []])
         (set_primaryTeamDisp None (set_primaryTeam None s))).
Proof.
  intros Hok. unfold makeTeamPrimary, setDisposable, released.
  unfold bind at 1, modify at 1. unfold bind at 1. unfold bind at 1, get.
  unfold bind at 1, modify at 1. cbn [primaryTeamDisp set_primaryTeam].
  destruct (primaryTeamDisp s) as [old|] eqn:Hold.
  - specialize (Hok old Hold). unfold webViewOk in Hok.
    unfold readTeam, bind, get, ret, emit, modify.
    cbn [heap set_primaryTeam set_primaryTeamDisp].
    destruct (truthy (readProp (Team.webView (deref (heap s) (owner old)))))
      eqn:Htr.
    + destruct (Hok eq_refl) as [w Hw]. rewrite Hw. simpl.
      unfold set_effects. simpl. f_equal. f_equal.
      by rewrite <- !app_assoc.
    + simpl.
      replace (match Team.webView (deref (heap s) (owner old)) with
               | Some (VRef w) => [WebView_hide w] | _ => [] end)
        with (@nil Effect).
      * unfold set_effects. simpl. f_equal. f_equal. by rewrite <- !app_assoc.
      * destruct (Team.webView (deref (heap s) (owner old)))
          as [[| | | | |w|]|]; simpl in Htr; done.
  - unfold ret, bind, emit, modify. simpl. unfold set_effects. simpl.
    f_equal. f_equal. by rewrite <- !app_assoc.
Qed.

(** With a primary team, [updateBadgeInfoForTeam] without a hash to
    store returns and only calls the team selector and the badge
    manager. *)
Lemma updateBadgeInfoForTeam_badgeEffects s p team updateAll :
  primaryTeam s = Some p →
  ∃ es,
    updateBadgeInfoForTeam team None updateAll s = Returns tt (andThen s es)
    ∧ Forall badgeEffect es.
Proof.
  intros Hp. unfold updateBadgeInfoForTeam.
  destruct team as [given|];
    [|exists []; split; [by rewrite andThen_nil|done]].
  unfold bind at 1, get.
  destruct (negb _); [exists []; split; [by rewrite andThen_nil|done]|].
  destruct (findTeam _ _ _) as [found|];
    [|exists []; split; [by rewrite andThen_nil|done]].
  unfold bind at 1, ret at 1. unfold bind at 1.
  rewrite (badgeLoop_returns s p) by done.
  assert (Hsel : ∀ teams, Forall badgeEffect (map (selectionStatus s p) teams)).
  { intros teams. apply Forall_forall. intros e [t [-> _]]%list_elem_of_fmap.
    done. }
  destruct updateAll; simpl.
  - eexists. split.
    + unfold bind, ret, emit, modify. f_equal.
      unfold andThen, set_effects. simpl. by rewrite <- app_assoc.
    + apply Forall_app. split; [apply Hsel|]. by apply Forall_singleton.
  - eexists. split.
    + unfold bind at 1, setSelectionStatus, bind at 1, get.
      simpl. rewrite Hp. unfold emit, modify, bind. f_equal.
      unfold andThen, set_effects. simpl. by rewrite <- !app_assoc.
    + simpl. by repeat constructor.
Qed.

Lemma not_isPrimary s team :
  ¬ isPrimary s team →
  match primaryTeam s with
  | Some p => strictEq (Team.team_id (deref (heap s) team))
                       (Team.team_id (deref (heap s) p))
  | None => false
  end = false.
Proof.
  intros Hnot. destruct (primaryTeam s) as [p|] eqn:Hp; [|done].
  unfold strictEq. apply bool_decide_eq_false_2. intros Hid.
  apply Hnot. by exists p.
Qed.

(** Making a team primary that holds a web view and is not primary
    yet. *)
Lemma makeTeamPrimary_switches s team w :
  ¬ isPrimary s team →
  Team.webView (deref (heap s) team) = Some (VRef w) →
  ownerOk s →
  ∃ badge,
    Forall badgeEffect badge
    ∧ makeTeamPrimary (Some team) s
      = Returns (ReturnedDisposable (mkPrimaryDisposable team w))
          (andThen
             (set_primaryTeamDisp (Some (mkPrimaryDisposable team w))
                (set_primaryTeam (Some team) s))
             (switched s team w badge)).
Proof.
  intros Hnot Hw Hok. apply not_isPrimary in Hnot.
  unfold makeTeamPrimary. rewrite bind_emit, bind_get.
  rewrite !heap_andThen, primaryTeam_andThen, hasBugsnag_andThen.
  rewrite Hnot, Hw. change (readProp (Some (VRef w))) with (VRef w).
  cbv beta iota. change (truthy (VRef w)) with true. cbv iota.
  rewrite bind_emit, andThen_andThen.
  rewrite bind_emit, andThen_andThen.
  rewrite bind_emit, andThen_andThen.
  rewrite bind_when_emit_andThen, andThen_andThen.
  rewrite bind_modify, set_primaryTeam_andThen.
  unfold bind at 1. rewrite setDisposable_eq by done.
  rewrite released_andThen, set_primaryTeamDisp_andThen, andThen_andThen.
  rewrite bind_emit, andThen_andThen.
  match goal with
  | |- context [bind (updateBadgeInfoForTeam ?a None ?u) _ ?s5] =>
      destruct (updateBadgeInfoForTeam_badgeEffects s5 team a u)
        as (badge & Hbadge & Honly); [done|]
  end.
  unfold bind at 1. rewrite Hbadge, andThen_andThen.
  exists badge. split; [done|].
  rewrite bind_emit, andThen_andThen. unfold ret. f_equal. f_equal.
  unfold switched. simpl. by rewrite <- !app_assoc.
Qed.

(** Making a team primary that is not primary yet and holds no web
    view context: the call raises once it has begun to listen to
    [windowFocus]. *)
Lemma makeTeamPrimary_raises s team :
  ¬ isPrimary s team →
  (∀ w, Team.webView (deref (heap s) team) ≠ Some (VRef w)) →
  ∃ changed,
    makeTeamPrimary (Some team) s
    = Throws "TypeError"
        (andThen s [LoadingScreen_hideAll;
                    SendToBrowser "teams:team-changed" changed;
                    WindowFocus_listen team]).
Proof.
  intros Hnot Hw. apply not_isPrimary in Hnot.
  unfold makeTeamPrimary. rewrite bind_emit, bind_get.
  rewrite !heap_andThen, primaryTeam_andThen. rewrite Hnot.
  rewrite bind_emit, andThen_andThen. rewrite bind_emit, andThen_andThen.
  destruct (Team.webView (deref (heap s) team)) as [[| | | | |w|]|] eqn:Hv;
    try (eexists; reflexivity).
  by destruct (Hw w).
Qed.

Lemma isPrimary_strictEq s team :
  match primaryTeam s with
  | Some p => strictEq (Team.team_id (deref (heap s) team))
                       (Team.team_id (deref (heap s) p))
  | None => false
  end = true →
  isPrimary s team.
Proof.
  destruct (primaryTeam s) as [p|] eqn:Hp; [|done].
  intros Hid%bool_decide_eq_true_1. by exists p.
Qed.

(** *** The subscriptions that are live *)

Lemma liveSubscriptions_app log es :
  liveSubscriptions (log ++ es) = fold_left subscribe es (liveSubscriptions log).
Proof. apply fold_left_app. Qed.

Lemma subscribe_badgeEffects es live :
  Forall badgeEffect es → fold_left subscribe es live = live.
Proof.
  induction 1 as [|e es He _ IH]; [done|]. simpl. rewrite <- IH at 2.
  by destruct e.
Qed.

(** Releasing what the serial disposable holds cancels it. *)
Lemma subscribe_released s more :
  fold_left subscribe (released s) (held s ++ more) = more.
Proof.
  unfold released, held. destruct (primaryTeamDisp s) as [old|]; [|done].
  rewrite fold_left_app.
  replace (fold_left subscribe
             match Team.webView (deref (heap s) (owner old)) with
             | Some (VRef w) => [WebView_hide w]
             | _ => []
             end
             ([FocusOf (owner old); CrashOf (crashedOn old) (owner old)] ++ more))
    with ([FocusOf (owner old); CrashOf (crashedOn old) (owner old)] ++ more)
    by (by destruct (Team.webView (deref (heap s) (owner old)))
             as [[| | | | |w|]|]).
  simpl. rewrite decide_True by done. simpl. by rewrite decide_True.
Qed.

Lemma subscribe_switched s team w badge :
  Forall badgeEffect badge →
  fold_left subscribe (switched s team w badge) (held s)
  = [FocusOf team; CrashOf w team].
Proof.
  intros Honly. unfold switched. rewrite !fold_left_app.
  rewrite (subscribe_badgeEffects badge) by done.
  cbn [fold_left subscribe].
  replace (fold_left subscribe
             (if hasBugsnag s
              then [Bugsnag_user (Team.team_id (deref (heap s) team))
                      (Team.id (deref (heap s) team))]
              else [])
             (((held s ++ [FocusOf team]) ++ [CrashOf w team])))
    with (held s ++ [FocusOf team; CrashOf w team])
    by (rewrite <- app_assoc; by destruct (hasBugsnag s)).
  by rewrite subscribe_released.
Qed.

End Switch.





(** ** The heap of team hashes *)

Section HeapFacts.
Import Properties.

Lemma deref_update_eq h l f : deref (update l f h) l = f (deref h l).
Proof. unfold deref at 1, update. by rewrite lookup_insert_eq. Qed.

Lemma deref_update_ne h l l' f : l ≠ l' → deref (update l f h) l' = deref h l'.
Proof. intros Hne. unfold deref, update. by rewrite lookup_insert_ne. Qed.

Lemma deref_update h l l' f :
  deref (update l f h) l' = if decide (l = l') then f (deref h l) else deref h l'.
Proof.
  destruct (decide (l = l')) as [<-|Hne];
    [apply deref_update_eq | by apply deref_update_ne].
Qed.

(** An update that keeps the [team_id] keeps every [team_id]. *)
Lemma tid_update h l f :
  (∀ t, Team.team_id (f t) = Team.team_id t) →
  ∀ x, tid (update l f h) x = tid h x.
Proof.
  intros Hf x. unfold tid. rewrite deref_update.
  destruct (decide (l = x)) as [<-|]; [apply Hf | done].
Qed.

Lemma teamIds_ext h h' l :
  (∀ x, tid h' x = tid h x) → teamIds h' l = teamIds h l.
Proof. intros H. unfold teamIds. apply map_ext. intros x. apply H. Qed.

Lemma findTeam_ext h h' p p' l :
  (∀ x, x ∈ l → p' (deref h' x) = p (deref h x)) →
  findTeam h' p' l = findTeam h p l.
Proof.
  unfold findTeam. induction l as [|x l IH]; intros H; simpl; [done|].
  rewrite (H x) by left. destruct (p (deref h x)); [done|].
  apply IH. intros y Hy. apply H. by right.
Qed.

Lemma findTeam_Some h p l x :
  findTeam h p l = Some x → x ∈ l ∧ p (deref h x) = true.
Proof.
  unfold findTeam. intros H. apply find_some in H as [H1 H2].
  split; [by apply list_elem_of_In | done].
Qed.

Lemma findTeam_None h p l :
  findTeam h p l = None ↔ ∀ x, x ∈ l → p (deref h x) = false.
Proof.
  unfold findTeam. split.
  - intros H x Hx. apply (find_none _ _ H). by apply list_elem_of_In.
  - intros H. induction l as [|y l IH]; simpl; [done|].
    rewrite (H y) by left. apply IH. intros x Hx. apply H. by right.
Qed.

Lemma strictEq_true a b : strictEq a b = true ↔ a = b.
Proof. unfold strictEq. apply bool_decide_eq_true. Qed.

Lemma strictEq_false a b : strictEq a b = false ↔ a ≠ b.
Proof. unfold strictEq. apply bool_decide_eq_false. Qed.

(** Looking for a [team_id] finds a team exactly when the id occurs. *)
Lemma findTeam_sameTeamId_None h team l :
  findTeam h (TeamsViewController.sameTeamId h team) l = None
  ↔ tid h team ∉ teamIds h l.
Proof.
  rewrite findTeam_None. unfold teamIds, TeamsViewController.sameTeamId.
  rewrite list_elem_of_fmap. split.
  - intros H (x & Hx1 & Hx2). specialize (H x Hx2).
    apply strictEq_false in H. by apply H.
  - intros H x Hx. apply strictEq_false. intros Heq. apply H.
    exists x. by split.
Qed.

Lemma findTeam_sameTeamId_Some h team l x :
  findTeam h (TeamsViewController.sameTeamId h team) l = Some x →
  x ∈ l ∧ tid h x = tid h team.
Proof.
  intros H. apply findTeam_Some in H as [H1 H2]. split; [done|].
  by apply strictEq_true in H2.
Qed.

End HeapFacts.

(** ** What a method returns *)

Definition returns {A} (m : M A) (s : State) (Q : A → State → Prop) : Prop :=
  ∃ a s', m s = Returns a s' ∧ Q a s'.

Section Returns.
Context {A : Type}.

Lemma returns_ret (a : A) s (Q : A → State → Prop) : Q a s → returns (ret a) s Q.
Proof. intros HQ. by exists a, s. Qed.

Lemma returns_bind {B} (m : M B) (k : B → M A) s (Q : A → State → Prop) :
  returns m s (λ b s1, returns (k b) s1 Q) → returns (bind m k) s Q.
Proof.
  intros (b & s1 & Hm & a & s' & Hk & HQ). exists a, s'.
  unfold bind. rewrite Hm. by split.
Qed.

Lemma returns_mono (m : M A) s (Q Q' : A → State → Prop) :
  returns m s Q → (∀ a s', Q a s' → Q' a s') → returns m s Q'.
Proof. intros (a & s' & Hm & HQ) H. exists a, s'. split; [done|by apply H]. Qed.

Lemma returns_eq (m : M A) s a s' (Q : A → State → Prop) :
  m s = Returns a s' → Q a s' → returns m s Q.
Proof. intros Hm HQ. by exists a, s'. Qed.

Lemma returns_inv (m : M A) s a s' (Q : A → State → Prop) :
  returns m s Q → m s = Returns a s' → Q a s'.
Proof. intros (a0 & s0 & Hm & HQ) E. rewrite Hm in E. by injection E as <- <-. Qed.

End Returns.

Lemma returns_get s (Q : State → State → Prop) : Q s s → returns get s Q.
Proof. intros HQ. by exists s, s. Qed.

Lemma returns_modify g s (Q : unit → State → Prop) :
  Q tt (g s) → returns (modify g) s Q.
Proof. intros HQ. by exists tt, (g s). Qed.

(** ** The steps of mergeTeamList *)

Section MergeSteps.
Import TeamsViewController Properties.

Lemma tid_themed ti t : Team.team_id (themed ti t) = Team.team_id t.
Proof. done. Qed.

Lemma addTeam_eq team nt s :
  addTeam team nt s
  = match findTeam (heap s) (sameTeamId (heap s) team) (teamList s) with
    | Some _ => Returns nt s
    | None =>
        Returns (nt ++ [team])
          (set_teamList (teamList s ++ [team])
             (set_heap (update team (themed (themeInfo s)) (heap s)) s))
    end.
Proof.
  unfold addTeam, bind, get.
  by destruct (findTeam (heap s) (sameTeamId (heap s) team) (teamList s)).
Qed.

(** Step 2 appends the incoming teams whose id is new, each with the
    cached data refreshed onto it, and touches nothing else. *)
Lemma addTeams_spec us nt s :
  returns (addTeams us nt) s (λ nt' s', ∃ added,
    nt' = nt ++ added
    ∧ teamList s' = teamList s ++ added
    ∧ others s' = others s
    ∧ (∀ x, x ∈ added → x ∈ us)
    ∧ (∀ x, tid (heap s') x = tid (heap s) x)
    ∧ (∀ x, (deref (heap s') x = deref (heap s) x)
            ∨ (x ∈ added
               ∧ (tid (heap s) x ∉ teamIds (heap s) (teamList s))
               ∧ deref (heap s') x = themed (themeInfo s) (deref (heap s) x)))
    ∧ (uniqueIds s → uniqueIds s')
    ∧ (∀ u, u ∈ us → tid (heap s) u ∈ teamIds (heap s') (teamList s'))).
Proof.
  revert nt s. induction us as [|u us IH]; intros nt s; simpl.
  { apply returns_ret. exists []. rewrite !app_nil_r.
    repeat split; try done; auto. intros u Hu. inv Hu. }
  apply returns_bind.
  destruct (findTeam (heap s) (sameTeamId (heap s) u) (teamList s)) as [y|] eqn:Hfind.
  - eapply returns_eq; [by rewrite addTeam_eq, Hfind|].
    eapply returns_mono; [apply IH|]. simpl.
    intros nt' s' (added & -> & Htl & Ho & Hin & Htid & Hheap & Huniq & Hall).
    exists added. repeat split; try done.
    + intros x Hx. right. by apply Hin.
    + intros v [->|Hv]%elem_of_cons; [|by apply Hall].
      apply findTeam_sameTeamId_Some in Hfind as [Hy1 Hy2].
      rewrite <- Hy2, Htl. unfold teamIds. rewrite map_app, elem_of_app. left.
      apply list_elem_of_fmap. exists y. rewrite <- Htid. done.
  - eapply returns_eq; [by rewrite addTeam_eq, Hfind|].
    apply findTeam_sameTeamId_None in Hfind.
    set (s1 := set_teamList _ _).
    assert (∀ x, tid (heap s1) x = tid (heap s) x) as Htid1.
    { intros x. simpl. by apply tid_update. }
    eapply returns_mono; [apply IH|]. simpl.
    intros nt' s' (added & -> & Htl & Ho & Hin & Htid & Hheap & Huniq & Hall).
    exists (u :: added).
    split; [by rewrite <- app_assoc|].
    split; [by rewrite Htl; simpl; rewrite <- app_assoc|].
    split; [done|].
    split; [intros x [->|Hx]%elem_of_cons; [left|right; by apply Hin]|].
    split; [intros x; by rewrite Htid, Htid1|].
    split; [|split].
    + intros x. destruct (Hheap x) as [Hx|(Hx1 & Hx2 & Hx3)].
      * rewrite Hx. simpl. rewrite deref_update.
        destruct (decide (u = x)) as [<-|Hne]; [|by left].
        right. split; [left|]. done.
      * destruct (decide (u = x)) as [<-|Hne].
        { exfalso. apply Hx2. simpl. unfold teamIds.
          rewrite map_app, elem_of_app. right. simpl. left. }
        right. split; [by right|]. split.
        { intros Hin'. apply Hx2. rewrite Htid1. simpl.
          rewrite (teamIds_ext (heap s)) by (intros y; by apply tid_update).
          unfold teamIds. rewrite map_app, elem_of_app. by left. }
        rewrite Hx3. simpl. by rewrite deref_update_ne.
    + intros Hu. apply Huniq. unfold uniqueIds. simpl.
      rewrite (teamIds_ext (heap s)) by (intros y; by apply tid_update).
      unfold teamIds. rewrite map_app. apply NoDup_app. split; [done|].
      split; [|apply NoDup_singleton].
      intros v Hv [->|Habs]%elem_of_cons; [done|inv Habs].
    + intros v [->|Hv]%elem_of_cons.
      * rewrite Htl. rewrite <- Htid1, <- Htid.
        unfold teamIds. rewrite map_app, elem_of_app. left.
        apply list_elem_of_fmap. exists u. split; [done|].
        simpl. rewrite elem_of_app. right. left.
      * rewrite <- Htid1. by apply Hall.
Qed.

Lemma updateTeamAt_eq us i s :
  updateTeamAt us i s
  = Returns tt
      match teamList s !! i with
      | None => s
      | Some item =>
          match findTeam (heap s) (sameTeamId (heap s) item) us with
          | Some newTeam =>
              set_heap
                (update newTeam (themed (themeInfo s))
                   (update newTeam
                      (λ t, Team.extend t (Team.pick (deref (heap s) item)))
                      (heap s)))
                (set_teamList (<[i:=newTeam]> (teamList s)) s)
          | None => set_heap (update item (Team.set_shouldDelete true) (heap s)) s
          end
      end.
Proof.
  unfold updateTeamAt, bind, get.
  destruct (teamList s !! i) as [item|]; [|done].
  by destruct (findTeam (heap s) (sameTeamId (heap s) item) us).
Qed.

Lemma NoDup_fmap_lookup {A B} (f : A → B) (l : list A) i j a b :
  NoDup (map f l) → l !! i = Some a → l !! j = Some b → i ≠ j → f a ≠ f b.
Proof.
  intros Hnd Hi Hj Hne Heq. apply Hne.
  apply (NoDup_lookup (map f l) i j (f a)); [done|..].
  - change (map f l) with (f <$> l). by rewrite list_lookup_fmap, Hi.
  - change (map f l) with (f <$> l). by rewrite list_lookup_fmap, Hj, Heq.
Qed.

(** One round of step 3. *)
Lemma updateTeamAt_spec us k s :
  returns (updateTeamAt us k) s (λ _ s',
    others s' = others s
    ∧ (∀ x, tid (heap s') x = tid (heap s) x)
    ∧ length (teamList s') = length (teamList s)
    ∧ (∀ i, i ≠ k → teamList s' !! i = teamList s !! i)
    ∧ (∀ x, (∀ item, teamList s !! k = Some item →
                     tid (heap s) x ≠ tid (heap s) item) →
            deref (heap s') x = deref (heap s) x)
    ∧ (∀ item, teamList s !! k = Some item → slotSpec us s s' k item)
    ∧ teamIds (heap s') (teamList s') = teamIds (heap s) (teamList s)).
Proof.
  eapply returns_eq; [apply updateTeamAt_eq|].
  destruct (teamList s !! k) as [item|] eqn:Hk.
  2:{ repeat split; try done. }
  destruct (findTeam (heap s) (sameTeamId (heap s) item) us) as [newTeam|] eqn:Hf.
  - pose proof (findTeam_sameTeamId_Some _ _ _ _ Hf) as [Hin Hid].
    assert (∀ x, tid (update newTeam (themed (themeInfo s))
              (update newTeam
                 (λ t, Team.extend t (Team.pick (deref (heap s) item)))
                 (heap s))) x = tid (heap s) x) as Htid.
    { intros x. rewrite tid_update by done. by rewrite tid_update. }
    simpl. repeat split; try done.
    + by rewrite length_insert.
    + intros i Hi. by rewrite list_lookup_insert_ne.
    + intros x Hx. specialize (Hx item eq_refl).
      rewrite !deref_update_ne; [done|intros ->; by apply Hx..].
    + intros item' [= <-]. unfold slotSpec. rewrite Hf. simpl. split.
      * apply list_lookup_insert_eq. by apply lookup_lt_Some in Hk.
      * by rewrite !deref_update_eq.
    + rewrite (teamIds_ext (heap s)) by done.
      unfold teamIds. change (map ?f ?l) with (f <$> l).
      rewrite list_fmap_insert. apply list_insert_id.
      rewrite list_lookup_fmap, Hk. simpl. f_equal. symmetry. apply Hid.
  - assert (∀ x, tid (update item (Team.set_shouldDelete true) (heap s)) x
                 = tid (heap s) x) as Htid.
    { intros x. by rewrite tid_update. }
    simpl. repeat split; try done.
    + intros x Hx. specialize (Hx item eq_refl).
      rewrite deref_update_ne; [done|intros ->; by apply Hx].
    + intros item' [= <-]. unfold slotSpec. rewrite Hf. simpl. split; [done|].
      by rewrite deref_update_eq.
    + by apply teamIds_ext.
Qed.

(** Step 3 over the slots [k .. k+n-1] of a registry with unique ids. *)
Lemma updateLoop_spec us n : ∀ k s,
  uniqueIds s →
  returns (forEach (updateTeamAt us) (seq k n)) s (λ _ s',
    others s' = others s
    ∧ (∀ x, tid (heap s') x = tid (heap s) x)
    ∧ length (teamList s') = length (teamList s)
    ∧ (∀ i, ¬ (k ≤ i < k + n)%nat → teamList s' !! i = teamList s !! i)
    ∧ (∀ x, (∀ i item, (k ≤ i < k + n)%nat → teamList s !! i = Some item →
                       tid (heap s) x ≠ tid (heap s) item) →
            deref (heap s') x = deref (heap s) x)
    ∧ (∀ i item, (k ≤ i < k + n)%nat → teamList s !! i = Some item →
                 slotSpec us s s' i item)
    ∧ teamIds (heap s') (teamList s') = teamIds (heap s) (teamList s)).
Proof.
  induction n as [|n IH]; intros k s Hu; simpl.
  { apply returns_ret. repeat split; try done; intros; lia. }
  apply returns_bind. eapply returns_mono; [apply updateTeamAt_spec|].
  intros [] s1 (Ho1 & Ht1 & Hl1 & Hs1 & Hh1 & Hslot1 & Hids1).
  assert (uniqueIds s1) as Hu1 by (unfold uniqueIds; by rewrite Hids1).
  eapply returns_mono; [by apply (IH (S k) s1)|].
  intros [] s' (Ho & Ht & Hl & Hs & Hh & Hslot & Hids).
  assert (∀ i j a b, teamList s !! i = Some a → teamList s !! j = Some b →
                     i ≠ j → tid (heap s) a ≠ tid (heap s) b) as Hdistinct.
  { intros i j a b Hi Hj Hne.
    by apply (NoDup_fmap_lookup (tid (heap s)) (teamList s) i j). }
  split; [by rewrite Ho|]. split; [intros x; by rewrite Ht|].
  split; [by rewrite Hl|].
  split; [intros i Hi; rewrite Hs by lia; apply Hs1; lia|].
  split.
  { intros x Hx. rewrite Hh.
    - apply Hh1. intros item Hitem. apply (Hx k); [lia|done].
    - intros i item Hi Hitem. rewrite !Ht1.
      rewrite Hs1 in Hitem by lia. apply (Hx i); [lia|done]. }
  split; [|by rewrite Hids].
  intros i item Hi Hitem.
  destruct (decide (i = k)) as [->|Hne].
  - specialize (Hslot1 item Hitem). unfold slotSpec in *.
    destruct (findTeam (heap s) (sameTeamId (heap s) item) us)
      as [newTeam|] eqn:Hf.
    + destruct Hslot1 as [Ha Hb]. split; [by rewrite Hs by lia|].
      rewrite Hh; [done|]. intros j item' Hj Hitem'. rewrite !Ht1.
      rewrite Hs1 in Hitem' by lia.
      apply findTeam_sameTeamId_Some in Hf as [_ Hid]. rewrite Hid.
      apply (Hdistinct k j); [done..|lia].
    + destruct Hslot1 as [Ha Hb]. split; [by rewrite Hs by lia|].
      rewrite Hh; [done|]. intros j item' Hj Hitem'. rewrite !Ht1.
      rewrite Hs1 in Hitem' by lia.
      apply (Hdistinct k j); [done..|lia].
  - assert (teamList s1 !! i = Some item) as Hitem1 by (by rewrite Hs1).
    assert (teamList s !! k = None ∨ ∃ itemk, teamList s !! k = Some itemk)
      as Hk by (destruct (teamList s !! k); eauto).
    assert (∀ x, tid (heap s) x = tid (heap s) item →
                 deref (heap s1) x = deref (heap s) x) as Hsame.
    { intros x Hx. apply Hh1. intros itemk Hitemk. rewrite Hx.
      apply (Hdistinct i k); [done..|lia]. }
    assert (Hslot' := Hslot i item ltac:(lia) Hitem1). unfold slotSpec in *.
    rewrite (findTeam_ext (heap s) (heap s1) (sameTeamId (heap s) item)) in Hslot'.
    2:{ intros x _. unfold sameTeamId. f_equal; apply Ht1. }
    injection Ho1 as _ _ _ Hti _ _ _ _ _.
    destruct (findTeam (heap s) (sameTeamId (heap s) item) us)
      as [newTeam|] eqn:Hf.
    + destruct Hslot' as [Ha Hb]. split; [done|].
      apply findTeam_sameTeamId_Some in Hf as [_ Hid].
      by rewrite Hb, Hti, !Hsame.
    + destruct Hslot' as [Ha Hb]. split; [done|].
      by rewrite Hb, Hsame.
Qed.

Lemma removeDeleted_spec h l : removeDeleted h l = (kept h l, disposed h l).
Proof.
  induction l as [|x l IH]; simpl; [done|]. rewrite IH. unfold kept.
  destruct (Team.shouldDelete (deref h x)) eqn:Hd; simpl.
  - rewrite filter_cons_False by (by rewrite Hd).
    by destruct (truthy (readProp (Team.webView (deref h x)))).
  - by rewrite filter_cons_True by done.
Qed.

Lemma fixupSigninTeam_eq us s :
  fixupSigninTeam us s = Returns tt (fixupState us s).
Proof.
  unfold fixupSigninTeam, fixupState, bind, get.
  destruct (findTeam (heap s) isSigninTeam (teamList s)); [|done].
  by destruct us.
Qed.

Lemma fixupState_facts us s :
  others (fixupState us s) = others s
  ∧ (∀ x, tid (heap (fixupState us s)) x = tid (heap s) x)
  ∧ (uniqueIds s → uniqueIds (fixupState us s)).
Proof.
  unfold fixupState.
  destruct (findTeam (heap s) isSigninTeam (teamList s)); [|done].
  destruct us as [|first us]; [done|]. simpl. repeat split.
  - intros x. by apply tid_update.
  - intros _. unfold uniqueIds. simpl. apply NoDup_singleton.
Qed.

(** The main path of [mergeTeamList]: a registry that is not empty and an
    incoming list without a ['__signin__'] entry. *)
Lemma mergeTeamList_main us s :
  teamList s ≠ [] →
  findTeam (heap s) isSigninTeam us = None →
  uniqueIds s →
  ∃ added s2 s3,
    addedBy us (fixupState us s) added s2
    ∧ updatedBy us s2 s3
    ∧ mergeTeamList (Some us) s
      = Returns (mkMergeResult added (disposed (heap s3) (teamList s3)))
                (set_teamList (kept (heap s3) (teamList s3)) s3).
Proof.
  intros Hne Hsignin Hu.
  destruct (fixupState_facts us s) as (Ho1 & Ht1 & Hu1). specialize (Hu1 Hu).
  destruct (addTeams_spec us [] (fixupState us s))
    as (nt & s2 & Hadd & added & -> & Hadded).
  assert (uniqueIds s2) as Hu2 by (by apply Hadded).
  destruct (updateLoop_spec us (length (teamList s2)) 0%nat s2 Hu2)
    as ([] & s3 & Hloop & Ho3 & Ht3 & Hl3 & _ & Hh3 & Hslot3 & Hids3).
  exists added, s2, s3. split; [exact Hadded|]. split.
  { repeat split; try done.
    - intros x Hx. apply Hh3. intros i item _ Hitem. apply Hx.
      apply list_elem_of_lookup. by exists i.
    - intros i item Hitem. apply Hslot3; [|done].
      apply lookup_lt_Some in Hitem. lia. }
  unfold mergeTeamList. unfold bind at 1, get.
  destruct (teamList s) as [|first0 rest0] eqn:Htl; [done|].
  rewrite Hsignin.
  unfold bind at 1. rewrite fixupSigninTeam_eq.
  unfold bind at 1. rewrite Hadd.
  unfold bind at 1, get. unfold bind at 1. simpl app. rewrite Hloop.
  unfold bind at 1. rewrite removeDeleted_spec. reflexivity.
Qed.

End MergeSteps.

(** ** Uniqueness of team ids *)

Section UniqueFacts.
Import TeamsViewController Properties.

Lemma filter_eq_absent (a : val) (l : list val) :
  a ∉ l → filter (λ v, v = a) l = [].
Proof.
  induction l as [|y l IH]; intros Ha; [done|].
  rewrite filter_cons. destruct (decide (y = a)) as [->|].
  - exfalso. apply Ha. left.
  - apply IH. intros Hin. apply Ha. by right.
Qed.

Lemma NoDup_count_le_1 (a : val) (l : list val) :
  NoDup l → (length (filter (λ v, v = a) l) ≤ 1)%nat.
Proof.
  induction 1 as [|x l Hx Hnd IH]; simpl; [lia|].
  rewrite filter_cons. destruct (decide (x = a)) as [->|]; [|done].
  rewrite filter_eq_absent by done. simpl. lia.
Qed.

Lemma uniqueIds_signinCount s : uniqueIds s → (signinCount s ≤ 1)%nat.
Proof. apply NoDup_count_le_1. Qed.

Lemma kept_unique s3 :
  uniqueIds s3 → uniqueIds (set_teamList (kept (heap s3) (teamList s3)) s3).
Proof.
  unfold uniqueIds, teamIds. simpl. intros H.
  eapply sublist_NoDup; [exact H|].
  change (map ?f ?l) with (f <$> l). apply fmap_sublist, sublist_filter.
Qed.

(** One call keeps the ids unique, unless it adopts an incoming list
    with duplicates onto the empty registry. *)
Lemma mergeTeamList_unique updatedTeamList s :
  uniqueIds s →
  (teamList s = [] → NoDup (teamIds (heap s) (default [] updatedTeamList))) →
  uniqueIds (finalState (mergeTeamList updatedTeamList s)).
Proof.
  intros Hu Hadopt. destruct updatedTeamList as [us|]; [|done].
  destruct (teamList s) as [|first0 rest0] eqn:Htl.
  { unfold mergeTeamList, bind, get. rewrite Htl. simpl. by apply Hadopt. }
  destruct (findTeam (heap s) isSigninTeam us) as [x|] eqn:Hsignin.
  - unfold mergeTeamList, bind at 1, get. rewrite Htl, Hsignin.
    unfold bind, callWebView.
    by destruct (readProp (Team.webView (deref (heap s) first0))).
  - destruct (mergeTeamList_main us s) as (added & s2 & s3 & Ha & Hb & ->);
      [by rewrite Htl|done..|].
    simpl. apply kept_unique.
    destruct Ha as (_ & _ & _ & _ & _ & Hu2 & _).
    destruct Hb as (_ & _ & _ & _ & _ & Hids).
    unfold uniqueIds. rewrite Hids. apply Hu2.
    by apply fixupState_facts.
Qed.

End UniqueFacts.

(** C1 (amended). Starting from a registry with unique [team_id]s, after
    every call of a sequence of [mergeTeamList] calls the registry has no
    two records with the same [team_id] and at most one record whose
    [team_id] is ['__signin__'], provided that the incoming lists adopted
    onto an empty registry have no duplicate [team_id]. *)
Theorem mergeTeamList_keeps_ids_unique
    (calls : list (option (list loc))) (s : State) :
  Properties.uniqueIds s →
  Properties.adoptsUnique calls s →
  Forall (λ s', Properties.uniqueIds s' ∧ (Properties.signinCount s' ≤ 1)%nat)
         (Properties.registries calls s).
Proof.
  revert s. induction calls as [|u calls IH]; intros s Hu Hadopt; simpl.
  { constructor. }
  destruct Hadopt as [Hfirst Hrest].
  assert (Properties.uniqueIds (finalState (TeamsViewController.mergeTeamList u s)))
    as Hu' by (by apply mergeTeamList_unique).
  constructor.
  - split; [done|]. by apply uniqueIds_signinCount.
  - by apply IH.
Qed.

Lemma mergeTeamList_keeps_ids_unique_witness :
  Forall (λ s', Properties.uniqueIds s' ∧ (Properties.signinCount s' ≤ 1)%nat)
         (Properties.registries
            [Some [1%nat; 2%nat]; None; Some [2%nat]; Some []; Some [1%nat]]
            Properties.oneTeamAndIncoming).
Proof.
  apply mergeTeamList_keeps_ids_unique.
  - apply (bool_decide_unpack _). vm_compute. exact I.
  - do 4 (split; [intros Hempty; vm_compute in Hempty; discriminate Hempty|]).
    split; [|exact I].
    intros _. apply (bool_decide_unpack _). vm_compute. exact I.
Defined.

(** C1 as stated fails: an incoming list with a duplicate [team_id] that
    meets the empty registry is adopted as it is. *)
Lemma mergeTeamList_adopts_duplicates :
  ¬ (∀ calls s,
       Properties.uniqueIds s →
       Forall (λ s', Properties.uniqueIds s' ∧ (Properties.signinCount s' ≤ 1)%nat)
              (Properties.registries calls s)).
Proof.
  intros H.
  specialize (H [Some [0%nat; 1%nat]] Properties.duplicateIncoming).
  assert (Properties.uniqueIds Properties.duplicateIncoming) as Hu
    by (apply (bool_decide_unpack _); vm_compute; exact I).
  specialize (H Hu). apply Forall_cons in H as [[H _] _].
  revert H. apply (bool_decide_unpack _). vm_compute. exact I.
Qed.

(** ** Preservation of the web view *)

Section WebViewFacts.
Import TeamsViewController Properties.

(** What a record of the registry after the main path is: an incoming
    hash that took the slot of a record with its [team_id]. *)
Lemma kept_slot us s2 s3 l' :
  updatedBy us s2 s3 →
  l' ∈ kept (heap s3) (teamList s3) →
  ∃ i item,
    teamList s2 !! i = Some item
    ∧ teamList s3 !! i = Some l'
    ∧ findTeam (heap s2) (sameTeamId (heap s2) item) us = Some l'
    ∧ deref (heap s3) l'
      = updatedRecord (themeInfo s2) (deref (heap s2) l') (deref (heap s2) item).
Proof.
  intros (Ho & Ht & Hl & Hh & Hslot & Hids) Hin.
  apply list_elem_of_filter in Hin as [Hflag Hin].
  apply list_elem_of_lookup in Hin as [i Hi].
  assert (is_Some (teamList s2 !! i)) as [item Hitem].
  { apply lookup_lt_is_Some. rewrite <- Hl. by apply lookup_lt_Some in Hi. }
  exists i, item. specialize (Hslot i item Hitem). unfold slotSpec in Hslot.
  destruct (findTeam (heap s2) (sameTeamId (heap s2) item) us) as [n|] eqn:Hf.
  - destruct Hslot as [Ha Hb]. rewrite Hi in Ha. injection Ha as ->. done.
  - destruct Hslot as [Ha Hb]. rewrite Hi in Ha. injection Ha as ->.
    rewrite Hb in Hflag. done.
Qed.

Lemma isSignin_not_incoming h us x :
  findTeam h isSigninTeam us = None → x ∈ us → tid h x ≠ SIGNIN.
Proof.
  intros Hnone Hx. rewrite findTeam_None in Hnone. specialize (Hnone x Hx).
  by apply strictEq_false in Hnone.
Qed.

(** Without a placeholder in the registry, step 1 does nothing. *)
Lemma fixupState_no_signin us s :
  (∀ x, x ∈ teamList s → tid (heap s) x ≠ SIGNIN) → fixupState us s = s.
Proof.
  intros H. unfold fixupState.
  destruct (findTeam (heap s) isSigninTeam (teamList s)) as [sl|] eqn:Hf; [|done].
  apply findTeam_Some in Hf as [Hin Hid]. apply strictEq_true in Hid.
  by destruct (H sl Hin).
Qed.

(** The main path on a registry without placeholder: a record that is
    there before and after is the [updatedRecord] of an incoming hash. *)
Lemma mergeTeamList_main_updates us s r s' l l' :
  teamList s ≠ [] →
  findTeam (heap s) isSigninTeam us = None →
  uniqueIds s →
  (∀ x, x ∈ teamList s → tid (heap s) x ≠ SIGNIN) →
  mergeTeamList (Some us) s = Returns r s' →
  l ∈ teamList s → l' ∈ teamList s' →
  tid (heap s') l' = tid (heap s) l →
  l' ∈ us
  ∧ deref (heap s') l'
    = updatedRecord (themeInfo s) (deref (heap s) l') (deref (heap s) l).
Proof.
  intros Hne Hsignin Hu Hnosignin Hmerge Hl Hl' Htid.
  destruct (mergeTeamList_main us s Hne Hsignin Hu)
    as (added & s2 & s3 & Ha & Hb & Heq).
  rewrite Heq in Hmerge. injection Hmerge as <- <-. simpl in *.
  rewrite fixupState_no_signin in Ha by done.
  destruct Ha as (Htl2 & Ho2 & Hadded & Ht2 & Hh2 & Hu2 & _).
  specialize (Hu2 Hu).
  destruct (kept_slot us s2 s3 l' Hb Hl')
    as (i & item & Hitem & Hi3 & Hfind & Hrec).
  destruct Hb as (Ho3 & Ht3 & Hl3 & Hh3 & Hslot3 & Hids3).
  pose proof (findTeam_sameTeamId_Some _ _ _ _ Hfind) as [Hin Hid].
  (* the slot of [l'] is the slot of [l] *)
  apply list_elem_of_lookup in Hl as [i0 Hi0].
  assert (teamList s2 !! i0 = Some l) as Hi0'.
  { rewrite Htl2. by apply lookup_app_l_Some. }
  assert (i = i0) as ->.
  { apply (NoDup_lookup (teamIds (heap s2) (teamList s2)) i i0 (tid (heap s2) l));
      [exact Hu2|..]; unfold teamIds; change (map ?f ?x) with (f <$> x);
      rewrite list_lookup_fmap.
    - rewrite Hitem. simpl. f_equal.
      rewrite <- Hid, <- Ht3, Htid. by rewrite Ht2.
    - by rewrite Hi0'. }
  rewrite Hitem in Hi0'. injection Hi0' as ->.
  (* step 2 touched neither [l] nor [l'] *)
  assert (∀ x, tid (heap s) x = tid (heap s) l →
               deref (heap s2) x = deref (heap s) x) as Hsame.
  { intros x Hx. destruct (Hh2 x) as [|(_ & Hnew & _)]; [done|].
    exfalso. apply Hnew. rewrite Hx. unfold teamIds.
    apply list_elem_of_fmap. exists l. split; [done|].
    apply list_elem_of_lookup. by exists i0. }
  split; [done|].
  rewrite Hrec. injection Ho2 as _ _ _ -> _ _ _ _ _.
  rewrite (Hsame l) by done. rewrite (Hsame l'); [done|].
  by rewrite <- Ht2, Hid, Ht2.
Qed.

(** The main path keeps every [team_id] and fills the registry with
    incoming hashes. *)
Lemma mergeTeamList_main_incoming us s r s' l' :
  teamList s ≠ [] →
  findTeam (heap s) isSigninTeam us = None →
  uniqueIds s →
  mergeTeamList (Some us) s = Returns r s' →
  (∀ x, tid (heap s') x = tid (heap s) x)
  ∧ (l' ∈ teamList s' → l' ∈ us).
Proof.
  intros Hne Hsignin Hu Hmerge.
  destruct (mergeTeamList_main us s Hne Hsignin Hu)
    as (added & s2 & s3 & Ha & Hb & Heq).
  rewrite Heq in Hmerge. injection Hmerge as <- <-. simpl. split.
  - intros x. destruct Ha as (_ & _ & _ & Ht2 & _).
    destruct Hb as (_ & Ht3 & _).
    rewrite Ht3, Ht2. apply fixupState_facts.
  - intros Hl'. destruct (kept_slot us s2 s3 l' Hb Hl')
      as (i & item & _ & _ & Hfind & _).
    by apply findTeam_Some in Hfind as [? _].
Qed.

Lemma uniqueIds_inj s l l' :
  uniqueIds s → l ∈ teamList s → l' ∈ teamList s →
  tid (heap s) l' = tid (heap s) l → l' = l.
Proof.
  intros Hu [i Hi]%list_elem_of_lookup [j Hj]%list_elem_of_lookup Hid.
  assert (j = i) as ->; [|by rewrite Hi in Hj; injection Hj].
  apply (NoDup_lookup (teamIds (heap s) (teamList s)) j i (tid (heap s) l));
    [exact Hu|..]; unfold teamIds; change (map ?f ?x) with (f <$> x);
    rewrite list_lookup_fmap.
  - rewrite Hj. simpl. by rewrite Hid.
  - by rewrite Hi.
Qed.

Lemma webView_updatedRecord ti n item :
  Team.webView (updatedRecord ti n item)
  = Team.overwrite (Team.webView item) (Team.webView n)
  ∧ Team.webViewLoaded (updatedRecord ti n item)
    = Team.overwrite (Team.webViewLoaded item) (Team.webViewLoaded n).
Proof.
  unfold updatedRecord, themed, ThemeCache.fetchThemeInfoAndIconsForTeam.
  by destruct (ti !! _).
Qed.

End WebViewFacts.

(** C2 (amended). Take a registry with unique [team_id]s in which a
    sign-in placeholder, if any, is the only record.  If a team whose
    record has a [webView] is in the registry before and after a
    [mergeTeamList] call under the same [team_id], the record after the
    call holds the identical [webView], and the identical [webViewLoaded]
    when the record before has one.  The record after the call is either
    the untouched record, or the incoming hash extended with the
    [webView], [webViewLoaded], [icons] and [initials] of the record
    before and then with the entry of the theme cache for the team, whose
    [icons] and [initials] replace the preserved ones. *)
Theorem mergeTeamList_preserves_webView
    (updatedTeamList : option (list loc)) (s s' : State)
    (r : TeamsViewController.MergeResult) (l l' : loc) (w : val) :
  Properties.uniqueIds s →
  Properties.placeholderAlone s →
  TeamsViewController.mergeTeamList updatedTeamList s = Returns r s' →
  l ∈ teamList s →
  l' ∈ teamList s' →
  Properties.tid (heap s') l' = Properties.tid (heap s) l →
  Team.webView (deref (heap s) l) = Some w →
  Team.webView (deref (heap s') l') = Some w
  ∧ (∀ v, Team.webViewLoaded (deref (heap s) l) = Some v →
          Team.webViewLoaded (deref (heap s') l') = Some v)
  ∧ ((l' = l ∧ deref (heap s') l' = deref (heap s) l)
     ∨ (∃ us, updatedTeamList = Some us ∧ l' ∈ us
              ∧ deref (heap s') l'
                = Properties.updatedRecord (themeInfo s) (deref (heap s) l')
                    (deref (heap s) l))).
Proof.
  intros Hu Halone Hmerge Hl Hl' Htid Hw.
  assert (heap s' = heap s → teamList s' = teamList s →
          Team.webView (deref (heap s') l') = Some w
          ∧ (∀ v, Team.webViewLoaded (deref (heap s) l) = Some v →
                  Team.webViewLoaded (deref (heap s') l') = Some v)
          ∧ ((l' = l ∧ deref (heap s') l' = deref (heap s) l)
             ∨ (∃ us, updatedTeamList = Some us ∧ l' ∈ us
                      ∧ deref (heap s') l'
                        = Properties.updatedRecord (themeInfo s)
                            (deref (heap s) l') (deref (heap s) l))))
    as Hunchanged.
  { intros Hh Ht. rewrite Hh, Ht in *.
    assert (l' = l) as -> by (by apply (uniqueIds_inj s)).
    split; [done|]. split; [done|]. by left. }
  destruct updatedTeamList as [us|].
  2:{ injection Hmerge as <- <-. by apply Hunchanged. }
  destruct (decide (teamList s = [])) as [Hempty|Hne].
  { rewrite Hempty in Hl. inv Hl. }
  destruct (findTeam (heap s) TeamsViewController.isSigninTeam us)
    as [x|] eqn:Hsignin.
  { apply Hunchanged.
    all: unfold TeamsViewController.mergeTeamList, bind at 1, get in Hmerge.
    all: destruct (teamList s) as [|first0 rest0] eqn:Htl; [done|].
    all: rewrite Hsignin in Hmerge; unfold bind, callWebView in Hmerge.
    all: destruct (readProp (Team.webView (deref (heap s) first0)));
      try discriminate Hmerge.
    all: injection Hmerge as <- <-; simpl; done. }
  destruct (mergeTeamList_main_incoming us s r s' l' Hne Hsignin Hu Hmerge)
    as [Hids Hfrom].
  specialize (Hfrom Hl').
  assert (∀ x, x ∈ teamList s → Properties.tid (heap s) x ≠ SIGNIN) as Hnosignin.
  { intros x Hx Hxid.
    assert (teamList s = [x]) as Hone by (by apply Halone).
    rewrite Hone in Hl. apply list_elem_of_singleton in Hl.
    apply (isSignin_not_incoming (heap s) us l' Hsignin Hfrom).
    rewrite <- Hids, Htid. congruence. }
  destruct (mergeTeamList_main_updates us s r s' l l') as [Hin Hrec]; try done.
  destruct (webView_updatedRecord (themeInfo s) (deref (heap s) l')
              (deref (heap s) l)) as [Hwv Hwvl].
  split; [by rewrite Hrec, Hwv, Hw|].
  split; [intros v Hv; by rewrite Hrec, Hwvl, Hv|].
  right. by exists us.
Qed.

Lemma mergeTeamList_preserves_webView_witness :
  let s := Properties.oneTeamAndIncoming in
  let s' := finalState (TeamsViewController.mergeTeamList (Some [1%nat; 2%nat]) s) in
  Team.webView (deref (heap s') 1%nat) = Some (VRef 0)
  ∧ (∀ v, Team.webViewLoaded (deref (heap s) 0%nat) = Some v →
          Team.webViewLoaded (deref (heap s') 1%nat) = Some v)
  ∧ ((1%nat = 0%nat ∧ deref (heap s') 1%nat = deref (heap s) 0%nat)
     ∨ (∃ us, Some [1%nat; 2%nat] = Some us ∧ 1%nat ∈ us
              ∧ deref (heap s') 1%nat
                = Properties.updatedRecord (themeInfo s) (deref (heap s) 1%nat)
                    (deref (heap s) 0%nat))).
Proof.
  intros s s'.
  apply (mergeTeamList_preserves_webView (Some [1%nat; 2%nat]) s s'
           (TeamsViewController.mkMergeResult [2%nat] []) 0%nat 1%nat (VRef 0)).
  - apply (bool_decide_unpack _). vm_compute. exact I.
  - intros x Hx Hid. exfalso.
    change (teamList s) with [0%nat] in Hx.
    apply list_elem_of_singleton in Hx as ->. vm_compute in Hid. discriminate Hid.
  - vm_compute. reflexivity.
  - change (teamList s) with [0%nat]. left.
  - change (teamList s') with [1%nat; 2%nat]. left.
  - vm_compute. reflexivity.
  - vm_compute. reflexivity.
Defined.

(** C2 as stated fails: the initials that the theme cache holds for the
    team replace the initials of the record. *)
Lemma mergeTeamList_replaces_initials :
  ¬ (∀ updatedTeamList s s' r l l' w,
       TeamsViewController.mergeTeamList updatedTeamList s = Returns r s' →
       l ∈ teamList s →
       l' ∈ teamList s' →
       Properties.tid (heap s') l' = Properties.tid (heap s) l →
       Team.webView (deref (heap s) l) = Some w →
       truthy w = true →
       Team.webView (deref (heap s') l') = Some w
       ∧ Team.webViewLoaded (deref (heap s') l')
         = Team.webViewLoaded (deref (heap s) l)
       ∧ Team.icons (deref (heap s') l') = Team.icons (deref (heap s) l)
       ∧ Team.initials (deref (heap s') l') = Team.initials (deref (heap s) l)).
Proof.
  intros H.
  destruct (H (Some [1%nat]) Properties.staleInitials
              (finalState (TeamsViewController.mergeTeamList (Some [1%nat])
                             Properties.staleInitials))
              (TeamsViewController.mkMergeResult [] []) 0%nat 1%nat (VRef 0))
    as (_ & _ & _ & Hinitials).
  - vm_compute. reflexivity.
  - change (teamList Properties.staleInitials) with [0%nat]. left.
  - vm_compute. left.
  - vm_compute. reflexivity.
  - vm_compute. reflexivity.
  - reflexivity.
  - vm_compute in Hinitials. discriminate Hinitials.
Qed.

(** ** The placeholder fixup *)

Section FixupFacts.
Import TeamsViewController Properties.


Lemma shouldDelete_updatedRecord ti n item :
  Team.shouldDelete (updatedRecord ti n item) = Team.shouldDelete n.
Proof. done. Qed.



End FixupFacts.



(** ** Suppression of duplicate updates *)

Section SortFacts.
Import TeamsViewController Properties.

#[local] Instance sortCompare_total : Total sortCompare.
Proof.
  intros a b.
  destruct (decide (b = VUndefined)) as [->|Hb]; [left; by destruct a|].
  destruct (decide (a = VUndefined)) as [->|Ha]; [right; by destruct b|].
  destruct (total String.le (toString a) (toString b)) as [H|H];
    [left|right]; by destruct a, b.
Qed.

#[local] Instance sortCompare_trans : Transitive sortCompare.
Proof.
  intros a b c Hab Hbc.
  destruct (decide (c = VUndefined)) as [->|Hc]; [by destruct a|].
  destruct (decide (b = VUndefined)) as [->|Hb]; [by destruct c|].
  destruct (decide (a = VUndefined)) as [->|Ha]; [by destruct b|].
  assert (String.le (toString a) (toString b)) as H1 by (by destruct a, b).
  assert (String.le (toString b) (toString c)) as H2 by (by destruct b, c).
  assert (String.le (toString a) (toString c)) as H3 by (by etrans).
  by destruct a, c.
Qed.

Lemma sortCompare_antisym_str (a b : string) :
  sortCompare (VStr a) (VStr b) → sortCompare (VStr b) (VStr a) → a = b.
Proof. simpl. intros H1 H2. by apply (anti_symm String.le). Qed.

(** Sorting forgets the order of a list of string ids. *)
Lemma sortedTeamIds_perm h l1 l2 :
  teamIds h l1 ≡ₚ teamIds h l2 →
  (∀ v, v ∈ teamIds h l1 → ∃ str, v = VStr str) →
  sortedTeamIds h l1 = sortedTeamIds h l2.
Proof.
  intros Hperm Hstr. unfold sortedTeamIds.
  change (map (λ x, Team.team_id (deref h x)) l1) with (teamIds h l1).
  change (map (λ x, Team.team_id (deref h x)) l2) with (teamIds h l2).
  apply (StronglySorted_unique_strong sortCompare).
  - intros x1 x2 Hx1 Hx2 H12 H21.
    rewrite merge_sort_Permutation in Hx1, Hx2. rewrite <- Hperm in Hx2.
    destruct (Hstr x1 Hx1) as [a ->]. destruct (Hstr x2 Hx2) as [b ->].
    f_equal. by apply sortCompare_antisym_str.
  - apply StronglySorted_merge_sort; apply _.
  - apply StronglySorted_merge_sort; apply _.
  - by rewrite !merge_sort_Permutation.
Qed.

End SortFacts.

Section DedupFacts.
Import TeamsViewController Properties.

(** With a registry that is not empty and the flag set,
    [shouldMergeTeamList] compares the sorted ids. *)
Lemma shouldMergeTeamList_compares s u :
  teamList s ≠ [] → haveMergedTeamListOnce s = true →
  shouldMergeTeamList u s
  = Returns (negb (bool_decide (sortedTeamIds (heap s) (teamList s)
                                = sortedTeamIds (heap s) (default [] u)))) s.
Proof.
  intros Hne Hflag. unfold shouldMergeTeamList, bind, get.
  destruct (teamList s) as [|x l] eqn:Htl; [done|]. simpl length. simpl Nat.eqb.
  cbv iota. by rewrite Hflag.
Qed.

Lemma reconcile_skips s us :
  teamList s ≠ [] → haveMergedTeamListOnce s = true →
  sortedTeamIds (heap s) us = sortedTeamIds (heap s) (teamList s) →
  shouldMergeTeamList (Some us) s = Returns false s
  ∧ reconcile (Some us) s = Returns (nothingMerged, false) s.
Proof.
  intros Hne Hflag Hsorted.
  assert (shouldMergeTeamList (Some us) s = Returns false s) as Hshould.
  { rewrite shouldMergeTeamList_compares by done. simpl.
    by rewrite bool_decide_eq_true_2. }
  split; [done|]. unfold reconcile, bind. by rewrite Hshould.
Qed.

(** Before the first merge the merge always runs. *)
Lemma shouldMergeTeamList_first s u :
  haveMergedTeamListOnce s = false →
  shouldMergeTeamList u s
  = Returns true (if (length (teamList s) =? 0)%nat then s
                  else set_haveMergedTeamListOnce true s).
Proof.
  intros Hflag. unfold shouldMergeTeamList, bind, get.
  destruct (length (teamList s) =? 0)%nat; [done|]. by rewrite Hflag.
Qed.

Lemma reconcile_merges s u sf :
  shouldMergeTeamList u s = Returns true sf →
  reconcile u s = (tl <- mergeTeamList u ;; ret (tl, true)) sf.
Proof. intros H. unfold reconcile. unfold bind at 1. by rewrite H. Qed.

Lemma fixupState_shouldDelete us s x :
  Team.shouldDelete (deref (heap (fixupState us s)) x)
  = Team.shouldDelete (deref (heap s) x).
Proof.
  unfold fixupState.
  destruct (findTeam (heap s) isSigninTeam (teamList s)); [|done].
  destruct us as [|first us]; [done|]. simpl. rewrite deref_update.
  by destruct (decide (first = x)) as [->|].
Qed.

(** After the main path the registry holds exactly the incoming ids,
    when these are distinct and no incoming hash is marked. *)
Lemma mergeTeamList_main_perm us s r s' :
  teamList s ≠ [] →
  findTeam (heap s) isSigninTeam us = None →
  uniqueIds s →
  NoDup (teamIds (heap s) us) →
  (∀ x, x ∈ us → Team.shouldDelete (deref (heap s) x) = false) →
  mergeTeamList (Some us) s = Returns r s' →
  teamIds (heap s') (teamList s') ≡ₚ teamIds (heap s') us
  ∧ others s' = others s.
Proof.
  intros Hne Hsignin Hu Hnd Hunmarked Hmerge.
  pose proof (mergeTeamList_unique (Some us) s Hu) as Hu'.
  rewrite Hmerge in Hu'. simpl in Hu'.
  assert (uniqueIds s') as Hunique by (apply Hu'; intros; done).
  destruct (mergeTeamList_main_incoming us s r s' 0%nat Hne Hsignin Hu Hmerge)
    as [Hids _].
  destruct (mergeTeamList_main us s Hne Hsignin Hu)
    as (added & s2 & s3 & Ha & Hb & Heq).
  rewrite Heq in Hmerge. injection Hmerge as <- <-.
  split.
  2:{ destruct Ha as (_ & Ho2 & _). destruct Hb as (Ho3 & _).
      destruct (fixupState_facts us s) as (Ho1 & _).
      simpl. change (others (set_teamList _ s3)) with (others s3).
      by rewrite Ho3, Ho2. }
  apply NoDup_Permutation.
  - exact Hunique.
  - rewrite (teamIds_ext (heap s)) by done. exact Hnd.
  - intros v. split.
    + intros (l' & -> & Hl')%list_elem_of_fmap.
      apply list_elem_of_fmap. exists l'. split; [done|].
      destruct (kept_slot us s2 s3 l' Hb Hl') as (i & item & _ & _ & Hfind & _).
      by apply findTeam_Some in Hfind as [? _].
    + intros (u & -> & Hin)%list_elem_of_fmap.
      destruct Ha as (Htl2 & Ho2 & Hadded & Ht2 & Hh2 & Hu2 & Hall).
      destruct Hb as (Ho3 & Ht3 & Hl3 & Hh3 & Hslot3 & Hids3).
      specialize (Hall u Hin).
      apply list_elem_of_fmap in Hall as (item & Hitemid & Hitem).
      apply list_elem_of_lookup in Hitem as [i Hi].
      specialize (Hslot3 i item Hi). unfold slotSpec in Hslot3.
      destruct (findTeam (heap s2) (sameTeamId (heap s2) item) us)
        as [n|] eqn:Hf.
      * destruct Hslot3 as [Hslot Hrec].
        pose proof (findTeam_sameTeamId_Some _ _ _ _ Hf) as [Hn Hnid].
        apply list_elem_of_fmap. exists n. split.
        { simpl. rewrite !Ht3. rewrite Hnid, <- Hitemid. by rewrite Ht2. }
        simpl. apply list_elem_of_filter. split.
        { rewrite Hrec, shouldDelete_updatedRecord.
          transitivity (Team.shouldDelete (deref (heap (fixupState us s)) n)).
          - destruct (Hh2 n) as [->|(_ & _ & ->)]; done.
          - rewrite fixupState_shouldDelete. by apply Hunmarked. }
        apply list_elem_of_lookup. by exists i.
      * exfalso. rewrite findTeam_None in Hf. specialize (Hf u Hin).
        unfold sameTeamId in Hf. apply strictEq_false in Hf. apply Hf.
        fold (tid (heap s2) u). fold (tid (heap s2) item).
        by rewrite Ht2, Hitemid.
Qed.

End DedupFacts.

Section TwiceFacts.
Import TeamsViewController Properties.

(** After a merge through the main path, an update with the same ids is
    a duplicate. *)
Lemma merged_then_skips us sf :
  teamList sf ≠ [] → haveMergedTeamListOnce sf = true →
  us ≠ [] → uniqueIds sf →
  NoDup (teamIds (heap sf) us) →
  (∀ v, v ∈ teamIds (heap sf) us → ∃ str, v = VStr str) →
  findTeam (heap sf) isSigninTeam us = None →
  (∀ x, x ∈ us → Team.shouldDelete (deref (heap sf) x) = false) →
  ∃ r s1,
    mergeTeamList (Some us) sf = Returns r s1
    ∧ ∀ us', sortedTeamIds (heap s1) us' = sortedTeamIds (heap s1) us →
             reconcile (Some us') s1 = Returns (nothingMerged, false) s1.
Proof.
  intros Hne Hflag Hus Hu Hnd Hstr Hsignin Hunmarked.
  destruct (mergeTeamList_main us sf Hne Hsignin Hu)
    as (added & s2 & s3 & _ & _ & Heq).
  eexists _, _. split; [exact Heq|].
  set (s1 := set_teamList _ s3) in *.
  destruct (mergeTeamList_main_perm us sf _ s1 Hne Hsignin Hu Hnd Hunmarked Heq)
    as [Hperm Ho].
  destruct (mergeTeamList_main_incoming us sf _ s1 0%nat Hne Hsignin Hu Heq)
    as [Hids _].
  intros us' Hsame. apply reconcile_skips.
  - intros Hempty. rewrite Hempty in Hperm. simpl in Hperm.
    apply Permutation_nil_l in Hperm. destruct us; [done|discriminate Hperm].
  - assert (haveMergedTeamListOnce s1 = haveMergedTeamListOnce sf) as Hf
      by (by injection Ho).
    by rewrite Hf.
  - rewrite Hsame. symmetry. apply sortedTeamIds_perm; [done|].
    intros v Hv. apply Hstr. rewrite Hperm in Hv.
    by rewrite (teamIds_ext (heap sf)) in Hv.
Qed.

End TwiceFacts.

(** C3 (amended). With a registry that is not empty, after the first-merge
    flag is set, an incoming list whose sorted [team_id]s equal the sorted
    [team_id]s of the registry makes [shouldMergeTeamList] return false:
    the merge is skipped, the state is unchanged and nothing is handed over
    for disposal.  While the flag is not set [shouldMergeTeamList] returns
    true and the merge runs; so it does whenever the registry is empty,
    whatever the flag, and then the flag is left as it is.  Let no two
    teams of the registry have the same [team_id], and let the registry
    be not empty or the flag be set: then a reconcile of a non-empty
    incoming list with distinct string [team_id]s, no ['__signin__'] entry
    and no marked entry returns, and a second reconcile with the same
    [team_id]s right after it is skipped. *)
Theorem reconcile_suppresses_duplicates :
  (∀ s us,
      teamList s ≠ [] →
      haveMergedTeamListOnce s = true →
      TeamsViewController.sortedTeamIds (heap s) us
      = TeamsViewController.sortedTeamIds (heap s) (teamList s) →
      TeamsViewController.shouldMergeTeamList (Some us) s = Returns false s
      ∧ TeamsViewController.reconcile (Some us) s
        = Returns (TeamsViewController.nothingMerged, false) s)
  ∧ (∀ s u,
      haveMergedTeamListOnce s = false →
      ∃ sf,
        TeamsViewController.shouldMergeTeamList u s = Returns true sf
        ∧ heap sf = heap s ∧ teamList sf = teamList s
        ∧ TeamsViewController.reconcile u s
          = (tl <- TeamsViewController.mergeTeamList u ;; ret (tl, true)) sf)
  ∧ (∀ s u,
      teamList s = [] →
      TeamsViewController.shouldMergeTeamList u s = Returns true s
      ∧ TeamsViewController.reconcile u s
        = (tl <- TeamsViewController.mergeTeamList u ;; ret (tl, true)) s)
  ∧ (∀ s us,
      teamList s ≠ [] ∨ haveMergedTeamListOnce s = true →
      us ≠ [] →
      Properties.uniqueIds s →
      NoDup (Properties.teamIds (heap s) us) →
      (∀ v, v ∈ Properties.teamIds (heap s) us → ∃ str, v = VStr str) →
      findTeam (heap s) TeamsViewController.isSigninTeam us = None →
      (∀ x, x ∈ us → Team.shouldDelete (deref (heap s) x) = false) →
      ∃ r s1,
        TeamsViewController.reconcile (Some us) s = Returns r s1
        ∧ ∀ us',
            TeamsViewController.sortedTeamIds (heap s1) us'
            = TeamsViewController.sortedTeamIds (heap s1) us →
            TeamsViewController.reconcile (Some us') s1
            = Returns (TeamsViewController.nothingMerged, false) s1).
Proof.
  split; [exact reconcile_skips|]. split.
  { intros s u Hflag. eexists. split; [by apply shouldMergeTeamList_first|].
    split; [by destruct (length (teamList s) =? 0)%nat|].
    split; [by destruct (length (teamList s) =? 0)%nat|].
    apply reconcile_merges. by apply shouldMergeTeamList_first. }
  split.
  { intros s u Hempty.
    assert (TeamsViewController.shouldMergeTeamList u s = Returns true s)
      as Hshould.
    { unfold TeamsViewController.shouldMergeTeamList, bind, get.
      by rewrite Hempty. }
    split; [done|]. by apply reconcile_merges. }
  intros s us Hstart Hus Hu Hnd Hstr Hsignin Hunmarked.
  destruct (decide (teamList s = [])) as [Hempty|Hne].
  { destruct Hstart as [|Hflag]; [done|].
    exists (TeamsViewController.nothingMerged, true), (set_teamList us s). split.
    - unfold TeamsViewController.reconcile, TeamsViewController.shouldMergeTeamList,
        TeamsViewController.mergeTeamList, bind, get.
      rewrite Hempty. simpl. rewrite Hempty. reflexivity.
    - intros us' Hsame. by apply reconcile_skips. }
  destruct (haveMergedTeamListOnce s) eqn:Hflag.
  - destruct (decide (TeamsViewController.sortedTeamIds (heap s) (teamList s)
                      = TeamsViewController.sortedTeamIds (heap s) us))
      as [Heq|Hneq].
    + exists (TeamsViewController.nothingMerged, false), s. split.
      * by apply reconcile_skips.
      * intros us' Hsame. apply reconcile_skips; try done. by rewrite Hsame.
    + destruct (merged_then_skips us s) as (r & s1 & Hmerge & Hskip); try done.
      exists (r, true), s1. split; [|exact Hskip].
      rewrite (reconcile_merges s (Some us) s).
      * unfold bind. by rewrite Hmerge.
      * rewrite shouldMergeTeamList_compares by done. simpl.
        by rewrite bool_decide_eq_false_2.
  - destruct (merged_then_skips us (set_haveMergedTeamListOnce true s))
      as (r & s1 & Hmerge & Hskip); try done.
    exists (r, true), s1. split; [|exact Hskip].
    rewrite (reconcile_merges s (Some us) (set_haveMergedTeamListOnce true s)).
    + unfold bind. by rewrite Hmerge.
    + rewrite shouldMergeTeamList_first by done.
      destruct (teamList s); [done|]. done.
Qed.

Lemma reconcile_suppresses_duplicates_witness :
  ∃ r s1,
    TeamsViewController.reconcile (Some [1%nat; 2%nat]) Properties.oneTeamAndIncoming
    = Returns r s1
    ∧ ∀ us',
        TeamsViewController.sortedTeamIds (heap s1) us'
        = TeamsViewController.sortedTeamIds (heap s1) [1%nat; 2%nat] →
        TeamsViewController.reconcile (Some us') s1
        = Returns (TeamsViewController.nothingMerged, false) s1.
Proof.
  apply (proj2 (proj2 (proj2 reconcile_suppresses_duplicates))
           Properties.oneTeamAndIncoming [1%nat; 2%nat]).
  - left. intros Hempty. vm_compute in Hempty. discriminate Hempty.
  - done.
  - apply (bool_decide_unpack _). vm_compute. exact I.
  - apply (bool_decide_unpack _). vm_compute. exact I.
  - intros v Hv.
    change (Properties.teamIds (heap Properties.oneTeamAndIncoming)
              [1%nat; 2%nat]) with [VStr "T1"; VStr "T2"] in Hv.
    apply elem_of_cons in Hv as [->|Hv]; [by eexists|].
    apply list_elem_of_singleton in Hv as ->. by eexists.
  - vm_compute. reflexivity.
  - intros x Hx. apply elem_of_cons in Hx as [->|Hx]; [by vm_compute|].
    apply list_elem_of_singleton in Hx as ->. by vm_compute.
Defined.

(** C3 as stated fails: on an empty registry [shouldMergeTeamList] returns
    true, also for an empty incoming list and with the flag set. *)
Lemma shouldMergeTeamList_empty_registry :
  ¬ (∀ s us,
       haveMergedTeamListOnce s = true →
       TeamsViewController.sortedTeamIds (heap s) us
       = TeamsViewController.sortedTeamIds (heap s) (teamList s) →
       TeamsViewController.shouldMergeTeamList (Some us) s = Returns false s).
Proof.
  intros H. specialize (H Properties.mergedAndEmpty [] eq_refl eq_refl).
  vm_compute in H. discriminate H.
Qed.

(** * Further properties *)

(** ** mergeTeamList: what is removed, what is new *)

Section MergeMore.
Import TeamsViewController Properties MoreProperties.

(** The main path on a registry without placeholder, with what step 2
    leaves alone. *)
Lemma mergeTeamList_plain us s r s' :
  teamList s ≠ [] →
  findTeam (heap s) isSigninTeam us = None →
  uniqueIds s →
  noPlaceholder s →
  mergeTeamList (Some us) s = Returns r s' →
  ∃ added s2 s3,
    addedBy us s added s2
    ∧ updatedBy us s2 s3
    ∧ r = mkMergeResult added (disposed (heap s3) (teamList s3))
    ∧ s' = set_teamList (kept (heap s3) (teamList s3)) s3
    ∧ (∀ l, l ∈ teamList s → deref (heap s2) l = deref (heap s) l)
    ∧ (∀ x, Team.webView (deref (heap s2) x) = Team.webView (deref (heap s) x)
            ∧ Team.shouldDelete (deref (heap s2) x)
              = Team.shouldDelete (deref (heap s) x)).
Proof.
  intros Hne Hsignin Hu Hnop Hmerge.
  destruct (mergeTeamList_main us s Hne Hsignin Hu)
    as (added & s2 & s3 & Ha & Hb & Heq).
  rewrite Heq in Hmerge. injection Hmerge as <- <-.
  rewrite fixupState_no_signin in Ha by done.
  exists added, s2, s3.
  split; [exact Ha|]. split; [exact Hb|]. split; [done|]. split; [done|].
  destruct Ha as (_ & _ & _ & _ & Hh2 & _). split.
  - intros l Hl.
    destruct (Hh2 l) as [|(_ & Hnew & _)]; [done|].
    exfalso. apply Hnew. apply list_elem_of_fmap. by exists l.
  - intros x. destruct (Hh2 x) as [->|(_ & _ & ->)]; [done|].
    unfold themed, ThemeCache.fetchThemeInfoAndIconsForTeam.
    by destruct (themeInfo s !! _).
Qed.

(** The record that step 3 leaves in a slot is marked exactly when the
    slot had no incoming match. *)
Lemma slot_outcome us s2 s3 i item :
  updatedBy us s2 s3 →
  (∀ x, x ∈ us → Team.shouldDelete (deref (heap s2) x) = false) →
  teamList s2 !! i = Some item →
  (∃ n, n ∈ us ∧ tid (heap s2) n = tid (heap s2) item
        ∧ teamList s3 !! i = Some n
        ∧ Team.shouldDelete (deref (heap s3) n) = false
        ∧ deref (heap s3) n
          = updatedRecord (themeInfo s2) (deref (heap s2) n) (deref (heap s2) item))
  ∨ ((tid (heap s2) item ∉ teamIds (heap s2) us)
     ∧ teamList s3 !! i = Some item
     ∧ deref (heap s3) item = Team.set_shouldDelete true (deref (heap s2) item)).
Proof.
  intros (Ho & Ht & Hl & Hh & Hslot & Hids) Hunmarked Hitem.
  specialize (Hslot i item Hitem). unfold slotSpec in Hslot.
  destruct (findTeam (heap s2) (sameTeamId (heap s2) item) us) as [n|] eqn:Hf.
  - left. destruct Hslot as [Ha Hb].
    apply findTeam_sameTeamId_Some in Hf as [Hin Hid].
    exists n. repeat split; try done.
    rewrite Hb, shouldDelete_updatedRecord. by apply Hunmarked.
  - right. apply findTeam_sameTeamId_None in Hf. by destruct Hslot.
Qed.

End MergeMore.

(** X1. On a registry that is not empty and has no placeholder, with an
    incoming list without ['__signin__'] entry and without marked entry,
    [mergeTeamList] returns a registry whose [team_id]s are exactly the
    incoming ones, and [toDispose] holds exactly the live web views of the
    records whose [team_id] is missing from the incoming list. *)
Theorem mergeTeamList_removes_missing
    (us : list loc) (s s' : State) (r : TeamsViewController.MergeResult) :
  teamList s ≠ [] →
  findTeam (heap s) TeamsViewController.isSigninTeam us = None →
  Properties.uniqueIds s →
  MoreProperties.noPlaceholder s →
  (∀ x, x ∈ us → Team.shouldDelete (deref (heap s) x) = false) →
  TeamsViewController.mergeTeamList (Some us) s = Returns r s' →
  (∀ id, id ∈ Properties.teamIds (heap s') (teamList s')
         ↔ id ∈ Properties.teamIds (heap s) us)
  ∧ (∀ v, v ∈ TeamsViewController.toDispose r
          ↔ ∃ l, l ∈ teamList s
                 ∧ (Properties.tid (heap s) l ∉ Properties.teamIds (heap s) us)
                 ∧ MoreProperties.liveWebView (heap s) l = Some v).
Proof.
  intros Hne Hsignin Hu Hnop Hunmarked Hmerge.
  destruct (mergeTeamList_main_incoming us s r s' 0%nat Hne Hsignin Hu Hmerge)
    as [Hids _].
  destruct (mergeTeamList_plain us s r s' Hne Hsignin Hu Hnop Hmerge)
    as (added & s2 & s3 & Ha & Hb & -> & -> & Hreg & Hkeep).
  assert (∀ x, x ∈ us → Team.shouldDelete (deref (heap s2) x) = false) as Hun2.
  { intros x Hx. destruct (Hkeep x) as [_ ->]. by apply Hunmarked. }
  destruct Ha as (Htl2 & Ho2 & Hadded & Ht2 & Hh2 & Hu2 & Hall).
  pose proof Hb as (Ho3 & Ht3 & Hl3 & Hh3 & Hslot3 & Hids3).
  assert (Properties.teamIds (heap s2) us = Properties.teamIds (heap s) us) as Hus2
    by (by apply teamIds_ext).
  simpl in *. split.
  - intros id. split.
    + intros (l' & -> & Hl')%list_elem_of_fmap.
      destruct (kept_slot us s2 s3 l' Hb Hl') as (i & item & _ & _ & Hfind & _).
      apply findTeam_Some in Hfind as [Hin _].
      rewrite Hids. apply list_elem_of_fmap. by exists l'.
    + intros (u & -> & Hin)%list_elem_of_fmap.
      specialize (Hall u Hin).
      apply list_elem_of_fmap in Hall as (item & Hitemid & Hitem).
      apply list_elem_of_lookup in Hitem as [i Hi].
      destruct (slot_outcome us s2 s3 i item Hb Hun2 Hi)
        as [(n & Hn & Hnid & Hslot & Hflag & _)|(Hno & _)].
      * apply list_elem_of_fmap. exists n. split.
        { rewrite Ht3, Hnid, <- Hitemid. done. }
        apply list_elem_of_filter. split; [done|].
        apply list_elem_of_lookup. by exists i.
      * exfalso. apply Hno. rewrite <- Hitemid.
        apply list_elem_of_fmap. exists u. split; [by rewrite Ht2|done].
  - intros v. unfold Properties.disposed. rewrite list_elem_of_omap. split.
    + intros (x & Hx & Hfx).
      apply list_elem_of_lookup in Hx as [i Hi].
      assert (is_Some (teamList s2 !! i)) as [item Hitem].
      { apply lookup_lt_is_Some. rewrite <- Hl3. by apply lookup_lt_Some in Hi. }
      destruct (slot_outcome us s2 s3 i item Hb Hun2 Hitem)
        as [(n & Hn & Hnid & Hslot & Hflag & _)|(Hno & Hslot & Hrec)].
      * rewrite Hi in Hslot. injection Hslot as ->. by rewrite Hflag in Hfx.
      * rewrite Hi in Hslot. injection Hslot as ->.
        assert (item ∈ teamList s) as Hreg'.
        { rewrite Htl2 in Hitem. apply list_elem_of_lookup_2 in Hitem.
          apply elem_of_app in Hitem as [|Hadd]; [done|].
          exfalso. apply Hno. apply list_elem_of_fmap. exists item.
          split; [done|by apply Hadded]. }
        exists item. split; [done|]. split.
        { rewrite <- Ht2, <- Hus2. exact Hno. }
        rewrite Hrec in Hfx. simpl in Hfx. rewrite (Hreg item Hreg') in Hfx.
        exact Hfx.
    + intros (l & Hl & Hno & Hlive).
      apply list_elem_of_lookup in Hl as [i Hi].
      assert (teamList s2 !! i = Some l) as Hi2
        by (rewrite Htl2; by apply lookup_app_l_Some).
      destruct (slot_outcome us s2 s3 i l Hb Hun2 Hi2)
        as [(n & Hn & Hnid & _)|(_ & Hslot & Hrec)].
      * exfalso. apply Hno. rewrite <- Ht2, <- Hnid, Ht2.
        apply list_elem_of_fmap. by exists n.
      * exists l. split; [apply list_elem_of_lookup; by exists i|].
        rewrite Hrec. simpl. rewrite Hreg by (apply list_elem_of_lookup; by exists i).
        exact Hlive.
Qed.

Lemma mergeTeamList_removes_missing_witness :
  let s := Properties.oneTeamAndIncoming in
  let s' := finalState (TeamsViewController.mergeTeamList (Some [2%nat]) s) in
  let r := TeamsViewController.mkMergeResult [2%nat] [VRef 0] in
  (∀ id, id ∈ Properties.teamIds (heap s') (teamList s')
         ↔ id ∈ Properties.teamIds (heap s) [2%nat])
  ∧ (∀ v, v ∈ TeamsViewController.toDispose r
          ↔ ∃ l, l ∈ teamList s
                 ∧ (Properties.tid (heap s) l ∉ Properties.teamIds (heap s) [2%nat])
                 ∧ MoreProperties.liveWebView (heap s) l = Some v).
Proof.
  intros s s' r.
  apply (mergeTeamList_removes_missing [2%nat] s s' r).
  - intros Hempty. vm_compute in Hempty. discriminate Hempty.
  - vm_compute. reflexivity.
  - apply (bool_decide_unpack _). vm_compute. exact I.
  - intros x Hx Hid. change (teamList s) with [0%nat] in Hx.
    apply list_elem_of_singleton in Hx as ->. vm_compute in Hid. discriminate Hid.
  - intros x Hx. apply list_elem_of_singleton in Hx as ->. by vm_compute.
  - vm_compute. reflexivity.
Defined.

(** X2. Under the same conditions the [newTeams] that [mergeTeamList]
    reports are incoming hashes whose [team_id] was not in the registry,
    every incoming [team_id] that was not in the registry is the id of one
    of them, and no [team_id] is reported twice. *)
Theorem mergeTeamList_reports_new_teams
    (us : list loc) (s s' : State) (r : TeamsViewController.MergeResult) :
  teamList s ≠ [] →
  findTeam (heap s) TeamsViewController.isSigninTeam us = None →
  Properties.uniqueIds s →
  MoreProperties.noPlaceholder s →
  TeamsViewController.mergeTeamList (Some us) s = Returns r s' →
  (∀ x, x ∈ TeamsViewController.newTeams r →
        x ∈ us
        ∧ (Properties.tid (heap s) x ∉ Properties.teamIds (heap s) (teamList s)))
  ∧ (∀ u, u ∈ us →
          Properties.tid (heap s) u ∉ Properties.teamIds (heap s) (teamList s) →
          Properties.tid (heap s) u
          ∈ Properties.teamIds (heap s) (TeamsViewController.newTeams r))
  ∧ NoDup (Properties.teamIds (heap s) (TeamsViewController.newTeams r)).
Proof.
  intros Hne Hsignin Hu Hnop Hmerge.
  destruct (mergeTeamList_plain us s r s' Hne Hsignin Hu Hnop Hmerge)
    as (added & s2 & s3 & Ha & Hb & -> & -> & Hreg & Hkeep).
  destruct Ha as (Htl2 & Ho2 & Hadded & Ht2 & Hh2 & Hu2 & Hall).
  specialize (Hu2 Hu). unfold Properties.uniqueIds in Hu2.
  rewrite (teamIds_ext (heap s)), Htl2 in Hu2 by done.
  unfold Properties.teamIds in Hu2. rewrite map_app in Hu2.
  apply NoDup_app in Hu2 as (Hnd1 & Hdisj & Hnd2).
  simpl. split; [|split].
  - intros x Hx. split; [by apply Hadded|].
    intros Hin. apply (Hdisj _ Hin). apply list_elem_of_fmap. by exists x.
  - intros u Hin Hnew. specialize (Hall u Hin).
    rewrite (teamIds_ext (heap s)), Htl2 in Hall by done.
    unfold Properties.teamIds in Hall. rewrite map_app in Hall.
    by apply elem_of_app in Hall as [|].
  - exact Hnd2.
Qed.

Lemma mergeTeamList_reports_new_teams_witness :
  let s := Properties.oneTeamAndIncoming in
  let r := TeamsViewController.mkMergeResult [2%nat] [] in
  (∀ x, x ∈ TeamsViewController.newTeams r →
        x ∈ [1%nat; 2%nat]
        ∧ (Properties.tid (heap s) x ∉ Properties.teamIds (heap s) (teamList s)))
  ∧ (∀ u, u ∈ [1%nat; 2%nat] →
          Properties.tid (heap s) u ∉ Properties.teamIds (heap s) (teamList s) →
          Properties.tid (heap s) u
          ∈ Properties.teamIds (heap s) (TeamsViewController.newTeams r))
  ∧ NoDup (Properties.teamIds (heap s) (TeamsViewController.newTeams r)).
Proof.
  intros s r.
  apply (mergeTeamList_reports_new_teams [1%nat; 2%nat] s
           (finalState (TeamsViewController.mergeTeamList (Some [1%nat; 2%nat]) s)) r).
  - intros Hempty. vm_compute in Hempty. discriminate Hempty.
  - vm_compute. reflexivity.
  - apply (bool_decide_unpack _). vm_compute. exact I.
  - intros x Hx Hid. change (teamList s) with [0%nat] in Hx.
    apply list_elem_of_singleton in Hx as ->. vm_compute in Hid. discriminate Hid.
  - vm_compute. reflexivity.
Defined.

Section WebViewsApart.
Import TeamsViewController Properties MoreProperties.

(** The web view of a record after the main path comes from the record
    that held its slot. *)
Lemma kept_webView us s s2 s3 added l v :
  addedBy us s added s2 →
  updatedBy us s2 s3 →
  (∀ x, Team.webView (deref (heap s2) x) = Team.webView (deref (heap s) x)) →
  (∀ u, u ∈ us → Team.webView (deref (heap s) u) = None) →
  l ∈ kept (heap s3) (teamList s3) →
  Team.webView (deref (heap s3) l) = Some v →
  ∃ i item,
    teamList s !! i = Some item
    ∧ teamList s3 !! i = Some l
    ∧ Team.webView (deref (heap s) item) = Some v.
Proof.
  intros Ha Hb Hkeep Hnone Hl Hv.
  destruct (kept_slot us s2 s3 l Hb Hl) as (i & item & Hitem & Hi3 & Hfind & Hrec).
  apply findTeam_Some in Hfind as [Hin _].
  destruct (webView_updatedRecord (themeInfo s2) (deref (heap s2) l)
              (deref (heap s2) item)) as [Hwv _].
  rewrite Hrec, Hwv, !Hkeep, (Hnone l Hin) in Hv.
  assert (Team.webView (deref (heap s) item) = Some v) as Hitemv
    by (by destruct (Team.webView (deref (heap s) item))).
  exists i, item. split; [|done].
  destruct Ha as (Htl2 & _ & Hadded & _).
  rewrite Htl2 in Hitem. apply lookup_app_Some in Hitem as [|[_ Hadd]]; [done|].
  apply list_elem_of_lookup_2, Hadded, Hnone in Hadd. congruence.
Qed.

End WebViewsApart.

(** X3. On a registry that is not empty, has unique [team_id]s and no
    placeholder, with incoming hashes that carry no [webView] key and no
    ['__signin__'] entry, [mergeTeamList] keeps the invariant that no two
    records of the registry hold the same live web view. *)
Theorem mergeTeamList_keeps_webViews_apart
    (us : list loc) (s s' : State) (r : TeamsViewController.MergeResult) :
  teamList s ≠ [] →
  findTeam (heap s) TeamsViewController.isSigninTeam us = None →
  Properties.uniqueIds s →
  MoreProperties.noPlaceholder s →
  (∀ u, u ∈ us → Team.webView (deref (heap s) u) = None) →
  MoreProperties.distinctWebViews s →
  TeamsViewController.mergeTeamList (Some us) s = Returns r s' →
  MoreProperties.distinctWebViews s'.
Proof.
  intros Hne Hsignin Hu Hnop Hnone Hdistinct Hmerge.
  pose proof (mergeTeamList_unique (Some us) s Hu) as Hu'.
  rewrite Hmerge in Hu'. simpl in Hu'.
  assert (Properties.uniqueIds s') as Hunique by (apply Hu'; intros; done).
  destruct (mergeTeamList_plain us s r s' Hne Hsignin Hu Hnop Hmerge)
    as (added & s2 & s3 & Ha & Hb & -> & -> & Hreg & Hkeep).
  intros i j l l' v Hij Hi Hj Hv Htruthy Hv'. simpl in *.
  assert (l ≠ l') as Hll'.
  { intros <-. apply Hij.
    apply (NoDup_lookup _ i j (Properties.tid (heap s3) l) Hunique);
      unfold Properties.teamIds; change (map ?f ?x) with (f <$> x);
      rewrite list_lookup_fmap; simpl.
    - by rewrite Hi.
    - by rewrite Hj. }
  destruct (kept_webView us s s2 s3 added l v Ha Hb) as (a & item & Ha1 & Ha2 & Ha3);
    [intros x; apply Hkeep|done|by apply list_elem_of_lookup_2 in Hi|done|].
  destruct (kept_webView us s s2 s3 added l' v Ha Hb) as (b & item' & Hb1 & Hb2 & Hb3);
    [intros x; apply Hkeep|done|by apply list_elem_of_lookup_2 in Hj|done|].
  assert (a ≠ b) as Hab by (intros <-; congruence).
  by apply (Hdistinct a b item item' v).
Qed.

Lemma mergeTeamList_keeps_webViews_apart_witness :
  MoreProperties.distinctWebViews
    (finalState (TeamsViewController.mergeTeamList (Some [1%nat; 2%nat])
                   Properties.oneTeamAndIncoming)).
Proof.
  apply (mergeTeamList_keeps_webViews_apart [1%nat; 2%nat]
           Properties.oneTeamAndIncoming _
           (TeamsViewController.mkMergeResult [2%nat] [])).
  - intros Hempty. vm_compute in Hempty. discriminate Hempty.
  - vm_compute. reflexivity.
  - apply (bool_decide_unpack _). vm_compute. exact I.
  - intros x Hx Hid.
    change (teamList Properties.oneTeamAndIncoming) with [0%nat] in Hx.
    apply list_elem_of_singleton in Hx as ->. vm_compute in Hid. discriminate Hid.
  - intros u Hu. apply elem_of_cons in Hu as [->|Hu]; [by vm_compute|].
    apply list_elem_of_singleton in Hu as ->. by vm_compute.
  - intros i j l l' v Hij Hi Hj.
    change (teamList Properties.oneTeamAndIncoming) with [0%nat] in Hi, Hj.
    destruct i as [|i]; [|by destruct i]. destruct j as [|j]; [done|by destruct j].
  - vm_compute. reflexivity.
Defined.

(** ** fetchTeam and the loading of the web views *)

Section FetchTeam.
Import TeamsViewController Properties MoreProperties TeamList.

(** [fetchTeam] either leaves the registry as it is, or gives the team
    it found a new web view. *)
Lemma fetchTeam_outcome teamId forceCreate s :
  let o := fetchTeam teamId forceCreate s in
  (heap (finalState o) = heap s ∧ teamList (finalState o) = teamList s
   ∧ nextRef (finalState o) = nextRef s)
  ∨ (∃ team ini s',
        findTeam (heap s) (λ x, strictEq (Team.team_id x) teamId) (teamList s)
        = Some team
        ∧ o = Returns (Some team) s'
        ∧ heap s' = update team (Team.set_webView (VRef (nextRef s))
                                                  (VRef (S (nextRef s))))
                      (update team (Team.set_initials (VStr ini)) (heap s))
        ∧ teamList s' = teamList s
        ∧ nextRef s' = S (S (nextRef s))).
Proof.
  unfold fetchTeam, bind, get. simpl.
  destruct (findTeam _ _ _) as [team|] eqn:Hfind; [|by left].
  destruct (truthy _ && negb forceCreate); [by left|].
  destruct (truthy (readProp (Team.webView (deref (heap s) team)))) eqn:Htr.
  - simpl. destruct (readProp _) as [| | | | |w|] eqn:Hwv; try by left.
    simpl. destruct (Initials.getInitialsOfName _ _) as [ini|]; [|by left].
    right. exists team, ini. eexists. by repeat split.
  - simpl. destruct (Initials.getInitialsOfName _ _) as [ini|]; [|by left].
    right. exists team, ini. eexists. by repeat split.
Qed.

Lemma uniqueIds_NoDup s : uniqueIds s → NoDup (teamList s).
Proof. unfold uniqueIds, teamIds. apply NoDup_fmap_1. Qed.

Lemma deref_created h team ini w l :
  deref (update team (Team.set_webView (VRef w) (VRef (S w)))
           (update team (Team.set_initials (VStr ini)) h)) l
  = if decide (team = l)
    then Team.set_webView (VRef w) (VRef (S w))
           (Team.set_initials (VStr ini) (deref h team))
    else deref h l.
Proof.
  rewrite deref_update. destruct (decide (team = l)) as [<-|Hne].
  - by rewrite deref_update_eq.
  - by rewrite deref_update_ne.
Qed.

Lemma registryOk_created s s' team ini :
  registryOk s →
  team ∈ teamList s →
  heap s' = update team (Team.set_webView (VRef (nextRef s))
                                          (VRef (S (nextRef s))))
              (update team (Team.set_initials (VStr ini)) (heap s)) →
  teamList s' = teamList s →
  nextRef s' = S (S (nextRef s)) →
  registryOk s' ∧ teamIds (heap s') (teamList s') = teamIds (heap s) (teamList s).
Proof.
  intros (Hu & Ha & Hd) Hin Hh Hl Hn.
  assert (Hids : teamIds (heap s') (teamList s') = teamIds (heap s) (teamList s)).
  { rewrite Hl, Hh. apply teamIds_ext. intros x. unfold tid.
    rewrite deref_created. by destruct (decide (team = x)) as [<-|]. }
  split; [|done]. split; [|split].
  - unfold uniqueIds. by rewrite Hids.
  - intros l w Hl' Hw. rewrite Hl in Hl'. rewrite Hh, deref_created in Hw.
    rewrite Hn. destruct (decide (team = l)) as [<-|Hne].
    + simpl in Hw. injection Hw as <-. lia.
    + specialize (Ha l w Hl' Hw). lia.
  - intros i j l l' v Hij Hi Hj Hv Htr Hv'.
    rewrite Hl in Hi, Hj. rewrite Hh, deref_created in Hv, Hv'.
    assert (Hll : l ≠ l').
    { intros <-. apply Hij.
      by apply (NoDup_lookup _ _ _ l (uniqueIds_NoDup s Hu)). }
    destruct (decide (team = l)) as [<-|Hne];
      destruct (decide (team = l')) as [<-|Hne']; try done.
    + simpl in Hv. injection Hv as Hv. subst v.
      assert (nextRef s < nextRef s)%nat; [|lia].
      apply (Ha l'); [by eapply list_elem_of_lookup_2 | done].
    + simpl in Hv'. injection Hv' as Hv'. subst v.
      assert (nextRef s < nextRef s)%nat; [|lia].
      apply (Ha l); [by eapply list_elem_of_lookup_2 | done].
    + by apply (Hd i j l l' v).
Qed.

Lemma registryOk_same s s' :
  registryOk s →
  heap s' = heap s → teamList s' = teamList s → nextRef s' = nextRef s →
  registryOk s'.
Proof.
  intros (Hu & Ha & Hd) Hh Hl Hn. split; [|split].
  - unfold uniqueIds. by rewrite Hh, Hl.
  - intros l w. rewrite Hh, Hl, Hn. apply Ha.
  - intros i j l l' v. rewrite Hh, Hl. apply Hd.
Qed.

(** One round of the loading loop. *)
Lemma fetchTeam_loads s l :
  findTeam (heap s) (λ x, strictEq (Team.team_id x) (tid (heap s) l)) (teamList s)
  = Some l →
  nameOk (heap s) l →
  ∃ s1, fetchTeam (tid (heap s) l) false s = Returns (Some l) s1
        ∧ teamList s1 = teamList s
        ∧ (∀ x, x ≠ l → deref (heap s1) x = deref (heap s) x)
        ∧ (∀ x, tid (heap s1) x = tid (heap s) x)
        ∧ (∀ x, Team.team_name (deref (heap s1) x)
                = Team.team_name (deref (heap s) x)
                ∧ Team.id (deref (heap s1) x) = Team.id (deref (heap s) x))
        ∧ loaded (heap s1) l
        ∧ controlView s1 = controlView s
        ∧ (if truthy (readProp (Team.webView (deref (heap s) l)))
           then s1 = s
           else nextRef s1 = S (S (nextRef s))
                ∧ effects s1
                  = effects s
                    ++ [WebView_new (nextRef s) (Team.team_url (deref (heap s) l))]
                ∧ Team.webView (deref (heap s1) l) = Some (VRef (nextRef s))).
Proof.
  intros Hfind Hname. unfold fetchTeam, bind, get. simpl. rewrite Hfind.
  destruct (truthy (readProp (Team.webView (deref (heap s) l)))) eqn:Htr; simpl.
  - exists s. by repeat split.
  - unfold nameOk in Hname.
    destruct (Initials.getInitialsOfName _ _) as [ini|]; [|done].
    eexists. split; [reflexivity|]. simpl.
    split; [done|]. split.
    { intros x Hx. rewrite deref_created. by destruct (decide (l = x)). }
    split.
    { intros x. unfold tid. rewrite deref_created.
      by destruct (decide (l = x)) as [<-|]. }
    split.
    { intros x. rewrite deref_created.
      by destruct (decide (l = x)) as [<-|]. }
    split.
    { unfold loaded. rewrite deref_created. by rewrite decide_True. }
    split; [done|]. split; [done|]. split; [done|].
    rewrite deref_created. by rewrite decide_True.
Qed.

Lemma newWebViews_ext h h' n l :
  (∀ x, x ∈ l → deref h' x = deref h x) →
  newWebViews h' n l = newWebViews h n l.
Proof.
  revert n. induction l as [|x l IH]; intros n H; simpl; [done|].
  rewrite (H x) by left.
  rewrite !IH by (intros y Hy; apply H; by right). done.
Qed.

(** The loading loop on a part [rest] of the registry. *)
Lemma loadLoop rest : ∀ s,
  uniqueIds s → rest ⊆ teamList s → NoDup rest →
  (∀ l, l ∈ rest → nameOk (heap s) l) →
  ∃ s', forEach (λ team, t <- readTeam team ;;
                         fetchTeam (Team.team_id t) false ;; ret tt) rest s
        = Returns tt s'
        ∧ teamList s' = teamList s
        ∧ (∀ x, tid (heap s') x = tid (heap s) x)
        ∧ (∀ x, x ∉ rest → deref (heap s') x = deref (heap s) x)
        ∧ (∀ x, x ∈ rest → loaded (heap s') x
                           ∧ (loaded (heap s) x →
                              deref (heap s') x = deref (heap s) x))
        ∧ effects s' = effects s ++ newWebViews (heap s) (nextRef s) rest
        ∧ (∀ x, Team.id (deref (heap s') x) = Team.id (deref (heap s) x))
        ∧ (∀ x, x ∈ rest → webViewOk (heap s) x →
                ∃ w, Team.webView (deref (heap s') x) = Some (VRef w))
        ∧ controlView s' = controlView s.
Proof.
  induction rest as [|l rest IH]; intros s Hu Hsub Hnd Hname.
  - exists s. simpl. rewrite app_nil_r.
    do 4 (split; [done|]). split.
    { intros x Hx. by apply not_elem_of_nil in Hx. }
    do 2 (split; [done|]). split; [|done].
    intros x Hx. by apply not_elem_of_nil in Hx.
  - apply NoDup_cons in Hnd as [Hl Hnd].
    assert (Hfind : findTeam (heap s)
              (λ x, strictEq (Team.team_id x) (tid (heap s) l)) (teamList s)
            = Some l).
    { destruct (findTeam _ _ _) as [y|] eqn:Hf.
      - apply findTeam_Some in Hf as [Hy1 Hy2]. apply strictEq_true in Hy2.
        f_equal. apply (uniqueIds_inj s); [done| |done|exact Hy2].
        apply Hsub. by left.
      - exfalso. rewrite findTeam_None in Hf.
        assert (Hin : l ∈ teamList s) by (apply Hsub; by left).
        specialize (Hf l Hin). by apply strictEq_false in Hf. }
    destruct (fetchTeam_loads s l Hfind)
      as (s1 & Hs1 & Hl1 & Hd1 & Ht1 & Hn1 & Hld & Hc1 & Hcase).
    { apply Hname. by left. }
    destruct (IH s1) as (s' & Hs' & Hl' & Ht' & Hd' & Hr' & He' & Hi' & Hw' & Hc').
    { unfold uniqueIds. rewrite Hl1.
      by rewrite (teamIds_ext (heap s) (heap s1)). }
    { rewrite Hl1. intros x Hx. apply Hsub. by right. }
    { done. }
    { intros x Hx. unfold nameOk. rewrite (proj1 (Hn1 x)). apply Hname.
      by right. }
    exists s'. split.
    { assert (Hbody : (t <- readTeam l ;;
                       fetchTeam (Team.team_id t) false ;; ret tt) s
                      = Returns tt s1).
      { unfold readTeam, bind, get, ret. unfold tid in Hs1. by rewrite Hs1. }
      simpl. unfold bind at 1. by rewrite Hbody. }
    split; [congruence|]. split; [intros x; by rewrite Ht', Ht1|].
    split.
    { intros x Hx. apply not_elem_of_cons in Hx as [Hx1 Hx2].
      rewrite Hd' by done. by apply Hd1. }
    split.
    { intros x Hx. apply elem_of_cons in Hx as [->|Hx].
      - unfold loaded in *. rewrite Hd' by done. split; [done|].
        intros Hwas. rewrite Hwas in Hcase. by rewrite Hcase.
      - destruct (Hr' x Hx) as [Hr1 Hr2]. split; [done|].
        assert (Hxl : x ≠ l) by (intros ->; done).
        unfold loaded in *. intros Hwas.
        rewrite Hr2; [by apply Hd1 | by rewrite (Hd1 x Hxl)]. }
    split.
    { simpl.
      assert (Hext : ∀ n, newWebViews (heap s1) n rest
                          = newWebViews (heap s) n rest).
      { intros n. apply newWebViews_ext. intros x Hx. apply Hd1.
        intros ->. done. }
      rewrite He', Hext.
      destruct (truthy (readProp (Team.webView (deref (heap s) l)))).
      + by rewrite Hcase.
      + destruct Hcase as (Hn & He & _). rewrite He, Hn.
        by rewrite <- app_assoc. }
    split; [intros x; by rewrite Hi', (proj2 (Hn1 x))|].
    split; [|by rewrite Hc', Hc1].
    intros x Hx Hok. apply elem_of_cons in Hx as [->|Hx].
    + rewrite Hd' by done. unfold webViewOk in Hok.
      destruct (truthy (readProp (Team.webView (deref (heap s) l)))) eqn:Htr.
      * rewrite Hcase. by apply Hok.
      * destruct Hcase as (_ & _ & Hw). by eexists.
    + apply Hw'; [done|]. unfold webViewOk.
      rewrite Hd1; [done|]. by intros ->.
Qed.

End FetchTeam.

(** X4. [fetchTeam] keeps the registry well formed whatever it is asked
    for, whether it returns or raises: the [team_id]s stay the same and
    distinct, every web view held is one that was created, and no two
    records hold the same web view, because a web view it creates is
    fresh. *)
Theorem fetchTeam_keeps_registry_ok (teamId : val) (forceCreate : bool) (s : State) :
  MoreProperties.registryOk s →
  let s' := finalState (TeamsViewController.fetchTeam teamId forceCreate s) in
  MoreProperties.registryOk s'
  ∧ teamList s' = teamList s
  ∧ Properties.teamIds (heap s') (teamList s')
    = Properties.teamIds (heap s) (teamList s).
Proof.
  intros Hok s'. subst s'.
  destruct (fetchTeam_outcome teamId forceCreate s)
    as [(Hh & Hl & Hn)|(team & ini & s1 & Hfind & Ho & Hh & Hl & Hn)].
  - split; [by apply (registryOk_same s)|]. split; [done|]. by rewrite Hh, Hl.
  - rewrite Ho. simpl. apply findTeam_Some in Hfind as [Hin _].
    destruct (registryOk_created s s1 team ini Hok Hin Hh Hl Hn) as [H1 H2].
    split; [exact H1|]. split; [exact Hl|exact H2].
Qed.

(** The sample registry holds one web view. *)
Ltac twoTeams_distinct :=
  let i := fresh "i" in let j := fresh "j" in
  let Hi := fresh "Hi" in let Hj := fresh "Hj" in
  let Hv := fresh "Hv" in let Hv' := fresh "Hv'" in
  intros i j ? ? ? ? Hi Hj Hv ? Hv';
  change (teamList MoreProperties.twoTeams) with [0%nat; 1%nat] in Hi, Hj;
  destruct i as [|[|i]]; destruct j as [|[|j]]; try done;
  simpl in Hi, Hj; injection Hi as <-; injection Hj as <-;
  vm_compute in Hv, Hv';
  [injection Hv as <-; discriminate Hv' | discriminate Hv].

Lemma fetchTeam_keeps_registry_ok_witness :
  let s := MoreProperties.twoTeams in
  let s' := finalState (TeamsViewController.fetchTeam (VStr "T2") false s) in
  MoreProperties.registryOk s'
  ∧ teamList s' = teamList s
  ∧ Properties.teamIds (heap s') (teamList s')
    = Properties.teamIds (heap s) (teamList s).
Proof.
  intros s.
  apply (fetchTeam_keeps_registry_ok (VStr "T2") false s).
  split; [|split].
  - apply (bool_decide_unpack _). vm_compute. exact I.
  - intros l w Hl Hw. change (teamList s) with [0%nat; 1%nat] in Hl.
    apply elem_of_cons in Hl as [->|Hl].
    + vm_compute in Hw. injection Hw as <-. vm_compute. lia.
    + apply list_elem_of_singleton in Hl as ->. vm_compute in Hw. discriminate Hw.
  - twoTeams_distinct.
Defined.

(** X5. The loop of [presentAvailableTeams] that loads the teams: when
    the [team_id]s of the registry are distinct and every name is falsy
    or a string, it returns, every team of the registry then holds a web
    view, a team that held one keeps its record as it was, and exactly
    one web view is created, in the order of the registry, for every team
    that held none. *)
Theorem loadAllTeams_loads_every_team (s : State) :
  Properties.uniqueIds s →
  (∀ l, l ∈ teamList s → MoreProperties.nameOk (heap s) l) →
  ∃ s', TeamList.loadAllTeams s = Returns tt s'
        ∧ teamList s' = teamList s
        ∧ (∀ l, l ∈ teamList s' → MoreProperties.loaded (heap s') l)
        ∧ (∀ l, l ∈ teamList s → MoreProperties.loaded (heap s) l →
                deref (heap s') l = deref (heap s) l)
        ∧ effects s'
          = effects s
            ++ MoreProperties.newWebViews (heap s) (nextRef s) (teamList s).
Proof.
  intros Hu Hname.
  destruct (loadLoop (teamList s) s Hu) as (s' & Hs' & Hl & _ & _ & Hr & He & _);
    [done|by apply uniqueIds_NoDup|done|].
  exists s'. split; [exact Hs'|]. split; [done|]. split.
  { intros l Hin. rewrite Hl in Hin. by apply Hr. }
  split; [|done]. intros l Hin. by apply Hr.
Qed.

Lemma loadAllTeams_loads_every_team_witness :
  let s := MoreProperties.twoTeams in
  ∃ s', TeamList.loadAllTeams s = Returns tt s'
        ∧ teamList s' = teamList s
        ∧ (∀ l, l ∈ teamList s' → MoreProperties.loaded (heap s') l)
        ∧ (∀ l, l ∈ teamList s → MoreProperties.loaded (heap s) l →
                deref (heap s') l = deref (heap s) l)
        ∧ effects s'
          = effects s
            ++ MoreProperties.newWebViews (heap s) (nextRef s) (teamList s).
Proof.
  intros s.
  apply (loadAllTeams_loads_every_team s).
  - apply (bool_decide_unpack _). vm_compute. exact I.
  - intros l Hl. change (teamList s) with [0%nat; 1%nat] in Hl.
    apply elem_of_cons in Hl as [->|Hl].
    + by vm_compute.
    + apply list_elem_of_singleton in Hl as ->. by vm_compute.
Defined.

(** ** Messages of the web views *)

Section Routing.
Import TeamsViewController Properties MoreProperties TeamList.

Lemma webViewIdOf_inj w w' : webViewIdOf w = webViewIdOf w' → w = w'.
Proof.
  unfold webViewIdOf. intros [= H]. change (pretty w = pretty w') in H.
  by apply (inj pretty) in H.
Qed.

(** The predicate of [teamFromWebViewId] picks the records that hold the
    web view of the id. *)
Lemma holds_webView t w :
  truthy (readProp (Team.webView t))
  && strictEq (webViewIdOfVal (readProp (Team.webView t))) (webViewIdOf w) = true
  ↔ Team.webView t = Some (VRef w).
Proof.
  split.
  - intros [Htr Heq]%andb_true_iff. apply strictEq_true in Heq.
    destruct (Team.webView t) as [[| | | | |w'|]|]; simpl in *; try done.
    by apply webViewIdOf_inj in Heq as ->.
  - intros ->. simpl. by apply strictEq_true.
Qed.

Lemma teamFromWebViewId_finds s l w :
  distinctWebViews s →
  l ∈ teamList s →
  Team.webView (deref (heap s) l) = Some (VRef w) →
  teamFromWebViewId (webViewIdOf w) s = Returns (Some l) s.
Proof.
  intros Hd Hin Hw. unfold teamFromWebViewId, bind, get, ret. f_equal.
  destruct (findTeam _ _ _) as [x|] eqn:Hf.
  - apply findTeam_Some in Hf as [Hx1 Hx2]. apply holds_webView in Hx2.
    apply list_elem_of_lookup in Hin as [i Hi].
    apply list_elem_of_lookup in Hx1 as [j Hj].
    destruct (decide (i = j)) as [->|Hij]; [congruence|].
    by destruct (Hd i j l x (VRef w) Hij Hi Hj Hw eq_refl).
  - rewrite findTeam_None in Hf. specialize (Hf l Hin).
    apply holds_webView in Hw. by rewrite Hw in Hf.
Qed.

Lemma teamFromWebViewId_unknown s w :
  (∀ l, l ∈ teamList s → Team.webView (deref (heap s) l) ≠ Some (VRef w)) →
  teamFromWebViewId (webViewIdOf w) s = Returns None s.
Proof.
  intros H. unfold teamFromWebViewId, bind, get, ret. f_equal.
  apply findTeam_None. intros x Hx. apply not_true_is_false.
  intros Hh%holds_webView. by apply (H x).
Qed.

(** A call with a badge state is the call without one on the registry
    where the state has been stored. *)
Lemma updateBadgeInfoForTeam_stores s given found b updateAll :
  truthy (Team.team_id (deref (heap s) given)) = true →
  findTeam (heap s)
    (λ x, strictEq (Team.team_id x) (Team.team_id (deref (heap s) given)))
    (teamList s) = Some found →
  updateBadgeInfoForTeam (Some given) (Some b) updateAll s
  = updateBadgeInfoForTeam (Some given) None updateAll (storeBadge found b s).
Proof.
  intros Hid Hfound. unfold updateBadgeInfoForTeam.
  unfold bind at 1, get. symmetry. unfold bind at 1, get. symmetry.
  assert (Htid : ∀ x, tid (heap (storeBadge found b s)) x = tid (heap s) x).
  { intros x. unfold storeBadge. apply tid_update. done. }
  unfold tid in Htid. rewrite Htid, Hid. simpl.
  rewrite (findTeam_ext (heap s) (heap (storeBadge found b s))
             (λ x, strictEq (Team.team_id x) (Team.team_id (deref (heap s) given)))
             (λ x, strictEq (Team.team_id x) (Team.team_id (deref (heap s) given))))
    by (intros x _; by rewrite Htid).
  rewrite Hfound. reflexivity.
Qed.

End Routing.

(** X6. [teamFromWebViewId] routes a message to its team: when no two
    records of the registry hold the same web view, the id of the web
    view of a record yields that record, and the id of a web view that no
    record holds yields nothing.  The registry is read, not changed. *)
Theorem teamFromWebViewId_routes (s : State) (w : nat) :
  MoreProperties.distinctWebViews s →
  (∀ l, l ∈ teamList s →
        Team.webView (deref (heap s) l) = Some (VRef w) →
        TeamList.teamFromWebViewId (TeamsViewController.webViewIdOf w) s
        = Returns (Some l) s)
  ∧ ((∀ l, l ∈ teamList s → Team.webView (deref (heap s) l) ≠ Some (VRef w)) →
     TeamList.teamFromWebViewId (TeamsViewController.webViewIdOf w) s
     = Returns None s).
Proof.
  intros Hd. split.
  - intros l. by apply teamFromWebViewId_finds.
  - apply teamFromWebViewId_unknown.
Qed.

Lemma teamFromWebViewId_routes_witness :
  let s := MoreProperties.twoTeams in
  (∀ l, l ∈ teamList s →
        Team.webView (deref (heap s) l) = Some (VRef 0%nat) →
        TeamList.teamFromWebViewId (TeamsViewController.webViewIdOf 0%nat) s
        = Returns (Some l) s)
  ∧ ((∀ l, l ∈ teamList s → Team.webView (deref (heap s) l) ≠ Some (VRef 0%nat)) →
     TeamList.teamFromWebViewId (TeamsViewController.webViewIdOf 0%nat) s
     = Returns None s).
Proof.
  intros s. apply (teamFromWebViewId_routes s 0%nat).
  subst s. twoTeams_distinct.
Defined.

(** X7. A ['setBadgeCount'] message of a web view stores the badge state
    on the team that holds the web view, and on no other, and then
    recomputes the global badge as [updateBadgeInfoForTeam(team)] does;
    a message of a web view that no team holds leaves the registry as it
    is.  The [team_id]s are distinct, the team's is truthy, and no two
    records hold the same web view. *)
Theorem onSetBadgeCount_updates_the_sender
    (s : State) (l : loc) (w : nat) (b : BadgeInfo) :
  Properties.uniqueIds s →
  MoreProperties.distinctWebViews s →
  l ∈ teamList s →
  Team.webView (deref (heap s) l) = Some (VRef w) →
  truthy (Properties.tid (heap s) l) = true →
  TeamList.onSetBadgeCount (TeamsViewController.webViewIdOf w) (Some b) s
  = TeamsViewController.updateBadgeInfoForTeam (Some l) None false
      (MoreProperties.storeBadge l b s)
  ∧ (∀ w', (∀ x, x ∈ teamList s →
                 Team.webView (deref (heap s) x) ≠ Some (VRef w')) →
           registryView
             (finalState (TeamList.onSetBadgeCount
                            (TeamsViewController.webViewIdOf w') (Some b) s))
           = registryView s).
Proof.
  intros Hu Hd Hin Hw Hid. split.
  - unfold TeamList.onSetBadgeCount, bind.
    rewrite (teamFromWebViewId_finds s l w) by done.
    apply updateBadgeInfoForTeam_stores; [done|].
    destruct (findTeam _ _ _) as [y|] eqn:Hf.
    + apply findTeam_Some in Hf as [Hy1 Hy2]. apply strictEq_true in Hy2.
      f_equal. by apply (uniqueIds_inj s).
    + rewrite findTeam_None in Hf. specialize (Hf l Hin).
      by apply strictEq_false in Hf.
  - intros w' Hnone. unfold TeamList.onSetBadgeCount, bind.
    rewrite (teamFromWebViewId_unknown s w') by done.
    unfold get. by destruct (hasReporter s).
Qed.

Lemma onSetBadgeCount_updates_the_sender_witness :
  let s := MoreProperties.twoTeams in
  let b := mkBadgeInfo (Some 3) (Some 1) (Some 0) in
  TeamList.onSetBadgeCount (TeamsViewController.webViewIdOf 0%nat) (Some b) s
  = TeamsViewController.updateBadgeInfoForTeam (Some 0%nat) None false
      (MoreProperties.storeBadge 0%nat b s)
  ∧ (∀ w', (∀ x, x ∈ teamList s →
                 Team.webView (deref (heap s) x) ≠ Some (VRef w')) →
           registryView
             (finalState (TeamList.onSetBadgeCount
                            (TeamsViewController.webViewIdOf w') (Some b) s))
           = registryView s).
Proof.
  intros s b. apply (onSetBadgeCount_updates_the_sender s 0%nat 0%nat b).
  - apply (bool_decide_unpack _). vm_compute. exact I.
  - subst s. twoTeams_distinct.
  - change (teamList s) with [0%nat; 1%nat]. by left.
  - vm_compute. reflexivity.
  - vm_compute. reflexivity.
Defined.

(** ** Moving between the teams *)

Section Navigation.
Import TeamsViewController Properties MoreProperties TeamList.

(** With distinct ids the loop of [indexOfTeamInList] stops at the
    position of the team. *)
Lemma indexFrom_lookup h l : ∀ i k q,
  NoDup (teamIds h l) →
  l !! i = Some q →
  indexFrom h (tid h q) k l = Some (k + i)%nat.
Proof.
  induction l as [|x l IH]; intros i k q Hnd Hi; [done|].
  simpl in Hnd. apply NoDup_cons in Hnd as [Hx Hnd]. simpl.
  destruct i as [|i]; simpl in Hi.
  - injection Hi as ->. unfold tid. unfold strictEq.
    rewrite bool_decide_eq_true_2 by done. f_equal. lia.
  - destruct (strictEq (Team.team_id (deref h x)) (tid h q)) eqn:Heq.
    + apply strictEq_true in Heq. exfalso. apply Hx.
      fold (tid h x) in Heq. rewrite Heq. unfold teamIds.
      apply list_elem_of_fmap. exists q. split; [done|].
      by eapply list_elem_of_lookup_2.
    + rewrite (IH i (S k) q Hnd Hi). f_equal. lia.
Qed.

Lemma indexOfTeamInList_lookup s p i q :
  uniqueIds s →
  teamList s !! i = Some q →
  tid (heap s) q = tid (heap s) p →
  indexOfTeamInList (Some p) s = Returns (Some i) s.
Proof.
  intros Hu Hi Hid. unfold indexOfTeamInList, bind, get.
  destruct (teamList s) as [|x l] eqn:Hl; [done|].
  unfold ret. f_equal. fold (tid (heap s) p). rewrite <- Hid.
  rewrite <- Hl in *. by rewrite (indexFrom_lookup _ _ i 0%nat q).
Qed.

Lemma offsetIndex_mod i n offset :
  (0 < n)%nat → - (Z.of_nat i + Z.of_nat n) ≤ offset →
  offsetIndex (Some i) n offset = (Z.of_nat i + offset) `mod` Z.of_nat n.
Proof.
  intros Hn Hoff. unfold offsetIndex. simpl.
  rewrite Z.rem_mod_nonneg by lia.
  replace (Z.of_nat i + Z.of_nat n + offset)
    with (Z.of_nat i + offset + 1 * Z.of_nat n) by lia.
  apply Z_mod_plus_full.
Qed.

End Navigation.

(** X8. [moveTeamByOffset] without a primary team or with fewer than two
    teams does nothing.  Otherwise, when the [team_id]s are distinct, the
    primary team is at position [i] and the offset is not below
    [-(i + n)] for the [n] teams of the registry, it makes the team at
    position [(i + offset) mod n] primary: the move wraps around the ends
    of the list. *)
Theorem moveTeamByOffset_wraps (offset : Z) (s : State) :
  ((primaryTeam s = None ∨ (length (teamList s) < 2)%nat) →
   TeamList.moveTeamByOffset offset s = Returns tt s)
  ∧ (∀ p q i,
       primaryTeam s = Some p →
       (2 ≤ length (teamList s))%nat →
       Properties.uniqueIds s →
       teamList s !! i = Some q →
       Properties.tid (heap s) q = Properties.tid (heap s) p →
       - (Z.of_nat i + Z.of_nat (length (teamList s))) ≤ offset →
       ∃ target,
         teamList s
           !! Z.to_nat ((Z.of_nat i + offset) `mod` Z.of_nat (length (teamList s)))
         = Some target
         ∧ TeamList.moveTeamByOffset offset s
           = (TeamsViewController.makeTeamPrimary (Some target) ;; ret tt) s).
Proof.
  split.
  - intros H. unfold TeamList.moveTeamByOffset, bind, get.
    destruct (primaryTeam s) as [p|]; [|done].
    destruct H as [H|H]; [done|].
    apply Nat.ltb_lt in H. by rewrite H.
  - intros p q i Hp Hlen Hu Hi Hid Hoff.
    set (n := length (teamList s)) in *.
    assert (Hrange : 0 ≤ (Z.of_nat i + offset) `mod` Z.of_nat n < Z.of_nat n)
      by (apply Z.mod_pos_bound; lia).
    destruct (lookup_lt_is_Some_2 (teamList s)
                (Z.to_nat ((Z.of_nat i + offset) `mod` Z.of_nat n)))
      as [target Htarget]; [fold n; lia|].
    exists target. split; [done|].
    unfold TeamList.moveTeamByOffset. unfold bind at 1, get. rewrite Hp.
    fold n. replace (n <? 2)%nat with false by (symmetry; apply Nat.ltb_ge; lia).
    unfold bind at 1. rewrite (indexOfTeamInList_lookup s p i q) by done.
    unfold bind at 1, get. fold n.
    rewrite offsetIndex_mod by (fold n; lia).
    unfold TeamList.teamAt.
    replace (_ <? 0) with false by (symmetry; apply Z.ltb_ge; lia).
    by rewrite Htarget.
Qed.

Lemma moveTeamByOffset_wraps_witness :
  let s := MoreProperties.threeTeams in
  ∃ target,
    teamList s !! Z.to_nat ((Z.of_nat 1 + (-2)) `mod` Z.of_nat (length (teamList s)))
    = Some target
    ∧ TeamList.moveTeamByOffset (-2) s
      = (TeamsViewController.makeTeamPrimary (Some target) ;; ret tt) s.
Proof.
  intros s.
  apply (proj2 (moveTeamByOffset_wraps (-2) s) 1%nat 1%nat 1%nat).
  - reflexivity.
  - vm_compute. lia.
  - apply (bool_decide_unpack _). vm_compute. exact I.
  - reflexivity.
  - reflexivity.
  - vm_compute. discriminate.
Defined.

(** ** Burning the web views *)

Section Teardown.
Import TeamsViewController Properties MoreProperties TeamList.

Lemma trashTeamWebview_eq s l :
  webViewOk (heap s) l →
  trashTeamWebview l s
  = Returns tt
      (set_heap (update l (Team.set_webView VNull VNull) (heap s))
         (set_effects (effects s ++ disposals (heap s) [l]) s)).
Proof.
  intros Hok. unfold trashTeamWebview, bind, readTeam, get, ret, disposals.
  unfold webViewOk in Hok. simpl.
  destruct (truthy (readProp (Team.webView (deref (heap s) l)))) eqn:Htr.
  - destruct (Hok eq_refl) as [w Hw]. rewrite Hw. simpl.
    unfold updateTeam, modify. done.
  - simpl. unfold updateTeam, modify. f_equal. f_equal.
    destruct (Team.webView (deref (heap s) l)) as [[| | | | |w|]|];
      simpl in Htr; try done; destruct s; simpl; by rewrite app_nil_r.
Qed.

Lemma disposals_ext h h' l :
  (∀ x, x ∈ l → deref h' x = deref h x) → disposals h' l = disposals h l.
Proof.
  intros H. unfold disposals. induction l as [|x l IH]; [done|].
  csimpl. rewrite (H x) by left.
  rewrite IH by (intros y Hy; apply H; by right). done.
Qed.

Lemma trashLoop rest : ∀ s,
  NoDup rest →
  (∀ x, x ∈ rest → webViewOk (heap s) x) →
  ∃ s', forEach trashTeamWebview rest s = Returns tt s'
        ∧ teamList s' = teamList s
        ∧ (∀ x, x ∉ rest → deref (heap s') x = deref (heap s) x)
        ∧ (∀ x, x ∈ rest →
                deref (heap s') x
                = Team.set_webView VNull VNull (deref (heap s) x))
        ∧ effects s' = effects s ++ disposals (heap s) rest.
Proof.
  induction rest as [|l rest IH]; intros s Hnd Hok.
  - exists s. simpl. rewrite app_nil_r.
    do 3 (split; [done|]). split; [|done].
    intros x Hx. by apply not_elem_of_nil in Hx.
  - apply NoDup_cons in Hnd as [Hl Hnd].
    pose proof (trashTeamWebview_eq s l (Hok l ltac:(by left))) as Hstep.
    set (s1 := set_heap _ _) in Hstep.
    assert (Hd1 : ∀ x, x ≠ l → deref (heap s1) x = deref (heap s) x).
    { intros x Hx. subst s1. simpl. by rewrite deref_update_ne. }
    destruct (IH s1 Hnd) as (s' & Hs' & Hl' & Hout & Hin & He).
    { intros x Hx. unfold webViewOk. rewrite Hd1 by (intros ->; done).
      apply Hok. by right. }
    exists s'. split.
    { simpl. unfold bind. by rewrite Hstep. }
    split; [by rewrite Hl'|]. split.
    { intros x Hx. apply not_elem_of_cons in Hx as [Hx1 Hx2].
      rewrite Hout by done. by apply Hd1. }
    split.
    { intros x Hx. apply elem_of_cons in Hx as [->|Hx].
      - rewrite Hout by done. subst s1. simpl. by rewrite deref_update_eq.
      - rewrite Hin by done. rewrite Hd1; [done|]. by intros ->. }
    rewrite He.
    assert (effects s1 = effects s ++ disposals (heap s) [l]) as -> by done.
    assert (disposals (heap s1) rest = disposals (heap s) rest) as ->.
    { apply disposals_ext. intros x Hx. apply Hd1. by intros ->. }
    rewrite <- app_assoc. f_equal. unfold disposals.
    change (l :: rest) with ([l] ++ rest). by rewrite omap_app.
Qed.

End Teardown.

(** X9. [trashAllTeamWebviews] on a registry without repeated records
    whose web views are web view contexts: it returns, disposes every web
    view held, once and in the order of the registry, and leaves every
    record of the registry with [webView] and [webViewLoaded] set to
    [null] and its other keys as they were; the registry itself and the
    hashes outside it are not changed. *)
Theorem trashAllTeamWebviews_burns (s : State) :
  NoDup (teamList s) →
  (∀ l, l ∈ teamList s → MoreProperties.webViewOk (heap s) l) →
  ∃ s', TeamList.trashAllTeamWebviews s = Returns tt s'
        ∧ teamList s' = teamList s
        ∧ (∀ l, l ∈ teamList s →
                deref (heap s') l
                = Team.set_webView VNull VNull (deref (heap s) l))
        ∧ (∀ l, l ∉ teamList s → deref (heap s') l = deref (heap s) l)
        ∧ effects s' = effects s ++ MoreProperties.disposals (heap s) (teamList s)
        ∧ (∀ l, l ∈ teamList s' → ¬ MoreProperties.loaded (heap s') l).
Proof.
  intros Hnd Hok.
  destruct (trashLoop (teamList s) s Hnd Hok) as (s' & Hs' & Hl & Hout & Hin & He).
  exists s'. split; [exact Hs'|]. split; [done|]. split; [done|].
  split; [done|]. split; [done|].
  intros l Hl'. rewrite Hl in Hl'. unfold MoreProperties.loaded.
  rewrite (Hin l Hl'). simpl. done.
Qed.

Lemma trashAllTeamWebviews_burns_witness :
  let s := MoreProperties.twoTeams in
  ∃ s', TeamList.trashAllTeamWebviews s = Returns tt s'
        ∧ teamList s' = teamList s
        ∧ (∀ l, l ∈ teamList s →
                deref (heap s') l
                = Team.set_webView VNull VNull (deref (heap s) l))
        ∧ (∀ l, l ∉ teamList s → deref (heap s') l = deref (heap s) l)
        ∧ effects s' = effects s ++ MoreProperties.disposals (heap s) (teamList s)
        ∧ (∀ l, l ∈ teamList s' → ¬ MoreProperties.loaded (heap s') l).
Proof.
  intros s. apply (trashAllTeamWebviews_burns s).
  - apply (bool_decide_unpack _). vm_compute. exact I.
  - intros l Hl Htr. change (teamList s) with [0%nat; 1%nat] in Hl.
    apply elem_of_cons in Hl as [->|Hl].
    + exists 0%nat. reflexivity.
    + apply list_elem_of_singleton in Hl as ->. vm_compute in Htr. discriminate Htr.
Defined.

(** ** Rearranging the teams *)

Section Sorted.
Import TeamsViewController Properties MoreProperties TeamList.

Lemma sortedTeams_fst h tl ids : ∀ k,
  map fst (sortedTeams h tl ids k)
  = omap (λ id, findTeam h (λ x, strictEq (Team.team_id x) id) tl) ids.
Proof.
  induction ids as [|id ids IH]; intros k; simpl; [done|].
  destruct (findTeam _ _ _); simpl; by rewrite IH.
Qed.

Lemma findTeam_id_Some h tl id x :
  findTeam h (λ x, strictEq (Team.team_id x) id) tl = Some x →
  x ∈ tl ∧ tid h x = id.
Proof.
  intros [H1 H2]%findTeam_Some. split; [done|]. by apply strictEq_true in H2.
Qed.

Lemma findTeam_id_None h tl id :
  findTeam h (λ x, strictEq (Team.team_id x) id) tl = None ↔ id ∉ teamIds h tl.
Proof.
  rewrite findTeam_None. unfold teamIds. rewrite list_elem_of_fmap. split.
  - intros H (x & -> & Hx). specialize (H x Hx). by apply strictEq_false in H.
  - intros H x Hx. apply strictEq_false. intros Heq. apply H. by exists x.
Qed.

(** The ids of the teams found are the ids asked for that are in the
    registry. *)
Lemma sorted_ids h tl ids :
  teamIds h (omap (λ id, findTeam h (λ x, strictEq (Team.team_id x) id) tl) ids)
  = filter (λ id, id ∈ teamIds h tl) ids.
Proof.
  induction ids as [|id ids IH]; [done|]. csimpl.
  destruct (findTeam _ _ _) as [x|] eqn:Hf.
  - destruct (findTeam_id_Some _ _ _ _ Hf) as [Hx Hid].
    rewrite filter_cons_True.
    + change (teamIds h (x :: ?l)) with (tid h x :: teamIds h l).
      by rewrite IH, Hid.
    + rewrite <- Hid. unfold teamIds. apply list_elem_of_fmap. by exists x.
  - apply findTeam_id_None in Hf. by rewrite filter_cons_False.
Qed.

Lemma filter_all {A} (P : A → Prop) `{!∀ x, Decision (P x)} (l : list A) :
  (∀ x, x ∈ l → P x) → filter P l = l.
Proof.
  induction l as [|x l IH]; intros Hall; [done|].
  rewrite filter_cons_True by (apply Hall; by left).
  rewrite IH; [done|]. intros y Hy. apply Hall. by right.
Qed.

Lemma onSorted_state sortedIds s :
  ∃ s', onSorted sortedIds s = Returns
          (mkRearranged (sortedTeams (heap s) (teamList s) sortedIds 0%nat)
             (take 9 (map (λ l, Team.prepareTeamForSerialization
                                  (deref (heap s) l))
                        (map fst (sortedTeams (heap s) (teamList s)
                                    sortedIds 0%nat))))) s'
        ∧ heap s' = heap s
        ∧ teamList s'
          = map fst (sortedTeams (heap s) (teamList s) sortedIds 0%nat)
        ∧ primaryView s'
          = (heap s, teamList s', primaryTeam s, primaryTeamDisp s).
Proof.
  unfold onSorted, bind, get, getTrimmedTeamList, serializeTeamList, bind, get.
  destruct (hasReporter s); simpl;
    destruct (findTeam _ _ _); simpl;
    try destruct (savedTsDevMenu s); simpl; eexists; by repeat split.
Qed.

End Sorted.

(** X10. The subscriber of the team selector's [sorted] observable puts
    into the registry the teams found for the ids, in the order of the
    ids: the [team_id]s of the new registry are the ids given that were
    in the registry, so ids that are unknown are skipped and teams whose
    id is not given are dropped; the hashes are not changed.  When the
    [team_id]s were distinct and the ids given are a rearrangement of
    them, the new registry is a rearrangement of the old one, with the
    ids in the order given. *)
Theorem onSorted_rearranges (sortedIds : list val) (s : State) :
  let s' := finalState (TeamList.onSorted sortedIds s) in
  heap s' = heap s
  ∧ Properties.teamIds (heap s') (teamList s')
    = filter (λ id, id ∈ Properties.teamIds (heap s) (teamList s)) sortedIds
  ∧ (∀ l, l ∈ teamList s' → l ∈ teamList s)
  ∧ (Properties.uniqueIds s →
     sortedIds ≡ₚ Properties.teamIds (heap s) (teamList s) →
     teamList s' ≡ₚ teamList s
     ∧ Properties.teamIds (heap s') (teamList s') = sortedIds).
Proof.
  intros s'. subst s'.
  destruct (onSorted_state sortedIds s) as (s' & Hs' & Hh & Hl & _).
  rewrite Hs'. simpl. rewrite sortedTeams_fst in Hl.
  assert (Hids : Properties.teamIds (heap s') (teamList s')
                 = filter (λ id, id ∈ Properties.teamIds (heap s) (teamList s))
                          sortedIds).
  { rewrite Hh, Hl. apply sorted_ids. }
  assert (Hsub : ∀ l, l ∈ teamList s' → l ∈ teamList s).
  { intros l. rewrite Hl. rewrite list_elem_of_omap.
    intros (id & _ & Hf). by apply findTeam_id_Some in Hf as [? _]. }
  do 3 (split; [done|]).
  intros Hu Hperm.
  assert (Hall : Properties.teamIds (heap s') (teamList s') = sortedIds).
  { rewrite Hids. apply filter_all. intros id Hid. by rewrite <- Hperm. }
  split; [|done].
  apply NoDup_Permutation.
  - apply (NoDup_fmap_1 (Properties.tid (heap s'))).
    change (NoDup (Properties.teamIds (heap s') (teamList s'))).
    rewrite Hall, Hperm. exact Hu.
  - by apply uniqueIds_NoDup.
  - intros l. split; [apply Hsub|]. intros Hin.
    rewrite Hl. apply list_elem_of_omap.
    exists (Properties.tid (heap s) l). split.
    + rewrite Hperm. unfold Properties.teamIds. apply list_elem_of_fmap.
      by exists l.
    + destruct (findTeam _ _ _) as [y|] eqn:Hf.
      * apply findTeam_id_Some in Hf as [Hy Hid]. f_equal.
        by apply (uniqueIds_inj s).
      * apply findTeam_id_None in Hf. exfalso. apply Hf.
        unfold Properties.teamIds. apply list_elem_of_fmap. by exists l.
Qed.

Lemma onSorted_rearranges_witness :
  let s := MoreProperties.threeTeams in
  let sortedIds := [VStr "T3"; VStr "T1"; VStr "T2"] in
  let s' := finalState (TeamList.onSorted sortedIds s) in
  teamList s' ≡ₚ teamList s
  ∧ Properties.teamIds (heap s') (teamList s') = sortedIds.
Proof.
  intros s sortedIds s'.
  apply (proj2 (proj2 (proj2 (onSorted_rearranges sortedIds s)))).
  - apply (bool_decide_unpack _). vm_compute. exact I.
  - apply (bool_decide_unpack _). vm_compute. exact I.
Defined.

(** ** The primary team and its subscriptions *)

Section OnlyEffects.
Import TeamsViewController Properties MoreProperties.

Lemma set_effects_nil s : set_effects (effects s ++ []) s = s.
Proof. destruct s. simpl. by rewrite app_nil_r. Qed.

Lemma onlyEffects_ret {A} (a : A) : onlyEffects (ret a).
Proof. intros s. exists []. simpl. by rewrite set_effects_nil. Qed.

Lemma onlyEffects_throw {A} e : onlyEffects (@throw A e).
Proof. intros s. exists []. simpl. by rewrite set_effects_nil. Qed.

Lemma onlyEffects_get : onlyEffects get.
Proof. intros s. exists []. simpl. by rewrite set_effects_nil. Qed.

Lemma onlyEffects_emit e : onlyEffects (emit e).
Proof. intros s. by exists [e]. Qed.

Lemma onlyEffects_bind {A B} (m : M A) (k : A → M B) :
  onlyEffects m → (∀ a, onlyEffects (k a)) → onlyEffects (bind m k).
Proof.
  intros Hm Hk s. destruct (Hm s) as [es Hes]. unfold bind.
  destruct (m s) as [a s1|e s1]; simpl in Hes; [|by exists es].
  destruct (Hk a s1) as [es' Hes']. exists (es ++ es').
  rewrite Hes', Hes. simpl. by rewrite app_assoc.
Qed.

Lemma onlyEffects_when b m : onlyEffects m → onlyEffects (when b m).
Proof. destruct b; [done|]. intros _. apply onlyEffects_ret. Qed.

Lemma onlyEffects_callWebView v method : onlyEffects (callWebView v method).
Proof.
  destruct v; try apply onlyEffects_throw. apply onlyEffects_emit.
Qed.

Lemma onlyEffects_readTeam l : onlyEffects (readTeam l).
Proof.
  unfold readTeam. apply onlyEffects_bind; [apply onlyEffects_get|].
  intros ?. apply onlyEffects_ret.
Qed.

Lemma onlyEffects_setSelectionStatus team :
  onlyEffects (setSelectionStatus team).
Proof.
  unfold setSelectionStatus. apply onlyEffects_bind; [apply onlyEffects_get|].
  intros s. destruct (primaryTeam s);
    [apply onlyEffects_emit | apply onlyEffects_throw].
Qed.

Lemma onlyEffects_badgeLoop updateAll teams : ∀ acc,
  onlyEffects (badgeLoop updateAll teams acc).
Proof.
  induction teams as [|t teams IH]; intros acc; simpl.
  - apply onlyEffects_ret.
  - apply onlyEffects_bind; [apply onlyEffects_readTeam|]. intros x.
    apply onlyEffects_bind; [|intros _; apply IH].
    apply onlyEffects_when, onlyEffects_setSelectionStatus.
Qed.

(** Without a badge state to store, [updateBadgeInfoForTeam] only talks
    to the team selector and the badge manager. *)
Lemma onlyEffects_updateBadgeInfoForTeam team updateAll :
  onlyEffects (updateBadgeInfoForTeam team None updateAll).
Proof.
  unfold updateBadgeInfoForTeam. destruct team as [given|];
    [|apply onlyEffects_ret].
  apply onlyEffects_bind; [apply onlyEffects_get|]. intros s.
  destruct (negb _); [apply onlyEffects_ret|].
  destruct (findTeam _ _ _); [|apply onlyEffects_ret].
  apply onlyEffects_bind; [apply onlyEffects_ret|]. intros _.
  apply onlyEffects_bind; [apply onlyEffects_badgeLoop|]. intros acc.
  apply onlyEffects_bind;
    [apply onlyEffects_when, onlyEffects_setSelectionStatus|]. intros _.
  apply onlyEffects_emit.
Qed.

Lemma onlyEffects_keeps {A X} (f : State → X) (m : M A) :
  (∀ e s, f (set_effects e s) = f s) → onlyEffects m → keeps f m.
Proof. intros Hf Hm s. destruct (Hm s) as [es ->]. apply Hf. Qed.

(** The state after a step that cannot fail, then anything that keeps
    [f]. *)
Lemma keeps_after {A B X} (f : State → X) (m : M A) (k : A → M B) s :
  (∀ a, keeps f (k a)) →
  f (finalState (bind m k s)) = f (finalState (m s)).
Proof.
  intros Hk. unfold bind. destruct (m s) as [a s1|e s1]; [|done].
  simpl. apply Hk.
Qed.

Lemma setDisposable_view d s :
  primaryView (finalState (setDisposable d s))
  = (heap s, teamList s, primaryTeam s, d).
Proof.
  unfold setDisposable. unfold bind at 1, get. unfold bind at 1, modify at 1.
  match goal with
  | |- primaryView (finalState (?m ?s1)) = _ =>
      transitivity (primaryView s1); [|done];
      apply (onlyEffects_keeps primaryView m); [done|]
  end.
  destruct (primaryTeamDisp s) as [old|]; [|apply onlyEffects_ret].
  apply onlyEffects_bind; [apply onlyEffects_readTeam|]. intros t.
  apply onlyEffects_bind;
    [apply onlyEffects_when, onlyEffects_callWebView|]. intros _.
  apply onlyEffects_bind; apply onlyEffects_emit || intros _.
  apply onlyEffects_emit.
Qed.

(** What [makeTeamPrimary] does to the primary team and its
    subscriptions. *)
Lemma makeTeamPrimary_view team s :
  primaryView (finalState (makeTeamPrimary team s))
  = match team with
    | None => (heap s, teamList s, None, None)
    | Some t =>
        if match primaryTeam s with
           | Some p => strictEq (tid (heap s) t) (tid (heap s) p)
           | None => false
           end
        then primaryView s
        else match readProp (Team.webView (deref (heap s) t)) with
             | VRef w => (heap s, teamList s, Some t,
                          Some (mkPrimaryDisposable t w))
             | _ => primaryView s
             end
    end.
Proof.
  assert (Heff : ∀ e s, primaryView (set_effects e s) = primaryView s) by done.
  destruct team as [t|]; unfold makeTeamPrimary.
  - unfold bind at 1, emit at 1, modify at 1. unfold bind at 1, get.
    cbn [heap primaryTeam set_effects].
    unfold tid.
    destruct (match primaryTeam s with Some _ => _ | None => _ end); [done|].
    unfold bind at 1, emit at 1, modify at 1.
    unfold bind at 1, emit at 1, modify at 1.
    destruct (readProp (Team.webView (deref (heap s) t))); try done.
    unfold bind at 1, emit at 1, modify at 1.
    cbn [hasBugsnag set_effects].
    rewrite bind_when_emit.
    unfold bind at 1, modify at 1.
    rewrite (keeps_after primaryView).
    { rewrite setDisposable_view. by destruct (hasBugsnag s). }
    intros _. apply onlyEffects_keeps; [done|].
    apply onlyEffects_bind; [apply onlyEffects_emit|]. intros _.
    apply onlyEffects_bind;
      [apply onlyEffects_updateBadgeInfoForTeam|]. intros _.
    apply onlyEffects_bind; [apply onlyEffects_emit|]. intros _.
    apply onlyEffects_ret.
  - unfold bind at 1, modify at 1.
    rewrite (keeps_after primaryView); [by rewrite setDisposable_view|].
    intros _. apply onlyEffects_keeps; [done|].
    apply onlyEffects_bind; [apply onlyEffects_emit|]. intros _.
    apply onlyEffects_bind; [apply onlyEffects_emit|]. intros _.
    apply onlyEffects_ret.
Qed.

End OnlyEffects.

Section PrimaryOnly.
Import TeamsViewController Properties MoreProperties.

Lemma sameButPrimary_refl s : sameButPrimary s s.
Proof. split; [done|]. exists []. by rewrite app_nil_r. Qed.

Lemma sameButPrimary_trans s s' s'' :
  sameButPrimary s s' → sameButPrimary s' s'' → sameButPrimary s s''.
Proof.
  intros [Hr [es Hes]] [Hr' [es' Hes']]. split; [congruence|].
  exists (es ++ es'). by rewrite Hes', Hes, app_assoc.
Qed.

Lemma primaryOnly_ret {A} (a : A) : primaryOnly (ret a).
Proof. intros s. apply sameButPrimary_refl. Qed.

Lemma primaryOnly_throw {A} e : primaryOnly (@throw A e).
Proof. intros s. apply sameButPrimary_refl. Qed.

Lemma primaryOnly_get : primaryOnly get.
Proof. intros s. apply sameButPrimary_refl. Qed.

Lemma primaryOnly_bind {A B} (m : M A) (k : A → M B) :
  primaryOnly m → (∀ a, primaryOnly (k a)) → primaryOnly (bind m k).
Proof.
  intros Hm Hk s. specialize (Hm s). unfold bind.
  destruct (m s) as [a s1|e s1]; simpl in *; [|done].
  eapply sameButPrimary_trans; [exact Hm|apply Hk].
Qed.

Lemma primaryOnly_onlyEffects {A} (m : M A) : onlyEffects m → primaryOnly m.
Proof.
  intros Hm s. destruct (Hm s) as [es Hes]. rewrite Hes.
  split; [done|]. by exists es.
Qed.

Lemma primaryOnly_set_primaryTeam p : primaryOnly (modify (set_primaryTeam p)).
Proof. intros s. split; [done|]. exists []. simpl. by rewrite app_nil_r. Qed.

Lemma primaryOnly_set_primaryTeamDisp d :
  primaryOnly (modify (set_primaryTeamDisp d)).
Proof. intros s. split; [done|]. exists []. simpl. by rewrite app_nil_r. Qed.

Lemma primaryOnly_setDisposable d : primaryOnly (setDisposable d).
Proof.
  unfold setDisposable. apply primaryOnly_bind; [apply primaryOnly_get|].
  intros s. apply primaryOnly_bind; [apply primaryOnly_set_primaryTeamDisp|].
  intros _. apply primaryOnly_onlyEffects.
  destruct (primaryTeamDisp s) as [old|]; [|apply onlyEffects_ret].
  apply onlyEffects_bind; [apply onlyEffects_readTeam|]. intros t.
  apply onlyEffects_bind;
    [apply onlyEffects_when, onlyEffects_callWebView|]. intros _.
  apply onlyEffects_bind; [apply onlyEffects_emit|]. intros _.
  apply onlyEffects_emit.
Qed.

(** [makeTeamPrimary] touches neither the hashes nor the registry. *)
Lemma primaryOnly_makeTeamPrimary team : primaryOnly (makeTeamPrimary team).
Proof.
  pose proof (@primaryOnly_onlyEffects) as Hoe.
  unfold makeTeamPrimary. destruct team as [t|].
  - apply primaryOnly_bind; [apply Hoe, onlyEffects_emit|]. intros _.
    apply primaryOnly_bind; [apply primaryOnly_get|]. intros s.
    destruct (match primaryTeam s with Some _ => _ | None => _ end);
      [apply primaryOnly_ret|].
    apply primaryOnly_bind; [apply Hoe, onlyEffects_emit|]. intros _.
    apply primaryOnly_bind; [apply Hoe, onlyEffects_emit|]. intros _.
    destruct (readProp (Team.webView (deref (heap s) t)));
      try apply primaryOnly_throw.
    apply primaryOnly_bind; [apply Hoe, onlyEffects_emit|]. intros _.
    apply primaryOnly_bind;
      [apply Hoe, onlyEffects_when, onlyEffects_emit|]. intros _.
    apply primaryOnly_bind; [apply primaryOnly_set_primaryTeam|]. intros _.
    apply primaryOnly_bind; [apply primaryOnly_setDisposable|]. intros _.
    apply primaryOnly_bind; [apply Hoe, onlyEffects_emit|]. intros _.
    apply primaryOnly_bind;
      [apply Hoe, onlyEffects_updateBadgeInfoForTeam|]. intros _.
    apply primaryOnly_bind; [apply Hoe, onlyEffects_emit|]. intros _.
    apply primaryOnly_ret.
  - apply primaryOnly_bind; [apply primaryOnly_set_primaryTeam|]. intros _.
    apply primaryOnly_bind; [apply primaryOnly_setDisposable|]. intros _.
    apply primaryOnly_bind; [apply Hoe, onlyEffects_emit|]. intros _.
    apply primaryOnly_bind; [apply Hoe, onlyEffects_emit|]. intros _.
    apply primaryOnly_ret.
Qed.

End PrimaryOnly.

(** X11. Let the focus and crash subscriptions that are live, made and
    not cancelled so far, be those that the serial disposable holds, and
    let them be the primary team's.  A call of [makeTeamPrimary] that
    returns keeps it so: afterwards the live subscriptions are those of
    the new disposable, on the web view of the new primary team, and
    there are none when the primary team was cleared.  The call raises
    only for a team that is not primary and holds no web view context;
    then the primary team and the disposable are as before, but the
    [windowFocus] listener made for that team stays live and nothing
    holds it.  The hashes and the registry are not touched. *)
Theorem makeTeamPrimary_keeps_subscriptions_in_step
    (team : option loc) (s : State) :
  MoreProperties.subscriptionsInStep s →
  MoreProperties.ownerOk s →
  let s' := finalState (TeamsViewController.makeTeamPrimary team s) in
  heap s' = heap s
  ∧ teamList s' = teamList s
  ∧ MoreProperties.disposableFollowsPrimary s'
  ∧ (∀ d, primaryTeamDisp s' = Some d →
          primaryTeamDisp s = Some d
          ∨ (team = Some (owner d)
             ∧ Team.webView (deref (heap s) (owner d)) = Some (VRef (crashedOn d))))
  ∧ match TeamsViewController.makeTeamPrimary team s with
    | Returns _ _ =>
        MoreProperties.liveSubscriptions (effects s') = MoreProperties.held s'
    | Throws _ _ =>
        ∃ t, team = Some t
             ∧ ¬ Properties.isPrimary s t
             ∧ (∀ w, Team.webView (deref (heap s) t) ≠ Some (VRef w))
             ∧ primaryTeam s' = primaryTeam s
             ∧ primaryTeamDisp s' = primaryTeamDisp s
             ∧ MoreProperties.liveSubscriptions (effects s')
               = MoreProperties.held s' ++ [MoreProperties.FocusOf t]
    end.
Proof.
  intros [Hinv Hlive] Hok s'. subst s'.
  pose proof (makeTeamPrimary_view team s) as Hview.
  split; [|split; [|split; [|split]]].
  - set (s' := finalState _) in *. unfold MoreProperties.primaryView in Hview.
    destruct team as [t|].
    + destruct (match primaryTeam s with Some _ => _ | None => _ end);
        [by injection Hview|].
      destruct (readProp (Team.webView (deref (heap s) t)));
        by injection Hview.
    + by injection Hview.
  - set (s' := finalState _) in *. unfold MoreProperties.primaryView in Hview.
    destruct team as [t|].
    + destruct (match primaryTeam s with Some _ => _ | None => _ end);
        [by injection Hview|].
      destruct (readProp (Team.webView (deref (heap s) t)));
        by injection Hview.
    + by injection Hview.
  - set (s' := finalState _) in *. unfold MoreProperties.primaryView in Hview.
    unfold MoreProperties.disposableFollowsPrimary in *.
    destruct team as [t|].
    + destruct (match primaryTeam s with Some _ => _ | None => _ end).
      { injection Hview as _ _ Hp Hd. by rewrite Hd, Hp. }
      destruct (readProp (Team.webView (deref (heap s) t)));
        injection Hview as _ _ Hp Hd; by rewrite Hd, Hp.
    + injection Hview as _ _ Hp Hd. by rewrite Hd, Hp.
  - set (s' := finalState _) in *. unfold MoreProperties.primaryView in Hview.
    destruct team as [t|].
    + destruct (match primaryTeam s with Some _ => _ | None => _ end).
      { injection Hview as _ _ _ Hd. rewrite Hd. intros d Hd'. by left. }
      destruct (readProp (Team.webView (deref (heap s) t))) as [| | | | |w|]
        eqn:Hw.
      all: injection Hview as _ _ _ Hd; rewrite Hd.
      all: try (intros d Hd'; by left).
      intros d [= <-]. right. split; [done|]. simpl.
      destruct (Team.webView (deref (heap s) t)); simpl in Hw; by subst.
    + injection Hview as _ _ _ Hd. rewrite Hd. intros d Hd'. done.
  - clear Hview. destruct team as [t|].
    + destruct (match primaryTeam s with
                | Some p => strictEq (Team.team_id (deref (heap s) t))
                                     (Team.team_id (deref (heap s) p))
                | None => false
                end) eqn:Hprimary.
      * apply isPrimary_strictEq in Hprimary.
        rewrite makeTeamPrimary_already_primary by done. simpl.
        rewrite liveSubscriptions_app. simpl. exact Hlive.
      * assert (Hnot : ¬ Properties.isPrimary s t).
        { intros (p & Hp & Hid). rewrite Hp in Hprimary.
          apply bool_decide_eq_false_1 in Hprimary. done. }
        destruct (Team.webView (deref (heap s) t)) as [v|] eqn:Hv.
        { assert ((∃ w, v = VRef w) ∨ ¬ (∃ w, v = VRef w)) as [[w ->]|Hno].
          { destruct v; try (right; by intros [? ?]). left. by eexists. }
          - destruct (makeTeamPrimary_switches s t w Hnot Hv Hok)
              as (badge & Honly & ->).
            simpl. rewrite liveSubscriptions_app, Hlive.
            by rewrite subscribe_switched.
          - destruct (makeTeamPrimary_raises s t Hnot) as [changed ->].
            { intros w Hw. rewrite Hw in Hv. injection Hv as <-.
              apply Hno. by exists w. }
            exists t. split; [done|]. split; [done|].
            split.
            { intros w Hw. rewrite Hw in Hv. injection Hv as <-.
              apply Hno. by exists w. }
            split; [done|]. split; [done|]. simpl.
            rewrite liveSubscriptions_app, Hlive. done. }
        destruct (makeTeamPrimary_raises s t Hnot) as [changed ->];
          [intros w; by rewrite Hv|].
        exists t. split; [done|]. split; [done|].
        split; [intros w; by rewrite Hv|].
        split; [done|]. split; [done|]. simpl.
        rewrite liveSubscriptions_app, Hlive. done.
    + rewrite makeTeamPrimary_None_eq by done. simpl.
      rewrite liveSubscriptions_app, Hlive.
      rewrite fold_left_app.
      rewrite <- (app_nil_r (MoreProperties.held s)).
      by rewrite subscribe_released.
Qed.

Lemma makeTeamPrimary_keeps_subscriptions_in_step_witness :
  let s := MoreProperties.threeTeamsSubscribed in
  let s' := finalState (TeamsViewController.makeTeamPrimary (Some 2%nat) s) in
  MoreProperties.liveSubscriptions (effects s')
  = [MoreProperties.FocusOf 2%nat; MoreProperties.CrashOf 4%nat 2%nat].
Proof.
  intros s.
  pose proof (makeTeamPrimary_keeps_subscriptions_in_step (Some 2%nat) s) as H.
  destruct H as (_ & _ & _ & _ & H).
  - split; reflexivity.
  - intros d [= <-]. intros _. by exists 2%nat.
  - exact H.
Defined.

(** ** The badge manager *)

Section BadgeManagerFacts.
Import BadgeManager MoreProperties.

Lemma setGlobalBadgeCount_overlay unreadHighlights unread status remembered :
  overlayStatuses
    (setGlobalBadgeCount unreadHighlights unread status remembered).1
  = match (setGlobalBadgeCount unreadHighlights unread status remembered).2 with
    | Some st => if bool_decide (remembered = Some st) then [] else [st]
    | None => []
    end.
Proof.
  unfold setGlobalBadgeCount. cbn [fst snd].
  set (st := if nonzero unreadHighlights && _ then _ else _).
  destruct (bool_decide (remembered = Some st));
    destruct (negb _ || negb _);
    destruct (positive unreadHighlights); destruct (positive unread); done.
Qed.

Lemma pretty_N_go_ne_empty x s : s ≠ "" → pretty_N_go x s ≠ "".
Proof.
  revert s. induction (N.lt_wf_0 x) as [x _ IH]; intros s Hs.
  assert (x = 0 ∨ 0 < x)%N as [->|Hx] by lia.
  - by rewrite pretty_N_go_0.
  - rewrite pretty_N_go_step by done. apply IH; [|done].
    by apply N.div_lt.
Qed.

(** The decimal notation of a positive number is not empty. *)
Lemma pretty_positive_ne_empty (z : Z) : 0 < z → pretty z ≠ "".
Proof.
  intros Hz. destruct z as [|p|p]; try lia.
  unfold pretty, pretty_Z, pretty, pretty_positive, pretty, pretty_N.
  destruct (decide (N.pos p = 0%N)); [done|].
  rewrite pretty_N_go_step by lia. by apply pretty_N_go_ne_empty.
Qed.

Lemma append_ne_empty_r (a b : string) : b ≠ "" → String.append a b ≠ "".
Proof. intros Hb. by destruct a. Qed.

Lemma exponentString_ne_empty m : exponentString m ≠ "".
Proof.
  unfold exponentString. destruct (shortestDigits _ _ _ _) as [n e'].
  by do 2 apply append_ne_empty_r.
Qed.

Lemma paddedString_ne_empty m : paddedString m ≠ "".
Proof.
  unfold paddedString. destruct (shortestDigits _ _ _ _) as [n e'].
  by destruct (list_ascii_of_string (pretty n)).
Qed.

(** The text of a positive count is not empty. *)
Lemma countString_ne_empty z : 0 < z → countString (CountOf (Finite z)) ≠ "".
Proof.
  intros Hz. unfold countString, numberString.
  destruct (Z.abs z <? 2 ^ 53); [by apply pretty_positive_ne_empty|].
  replace (z <? 0) with false by (symmetry; apply Z.ltb_ge; lia).
  destruct (Z.abs z <? 10 ^ 21);
    [apply paddedString_ne_empty|apply exponentString_ne_empty].
Qed.

(** The calls on the dock when a count is [null] or [undefined]: the
    badge is cleared before it is set. *)
Lemma setGlobalBadgeCount_dock unreadHighlights unread status remembered :
  dockBadges (setGlobalBadgeCount unreadHighlights unread status remembered).1
  = (if given unreadHighlights && given unread then [] else [""])
    ++ [if positive unreadHighlights then countString unreadHighlights
        else if positive unread then "â€¢" else ""].
Proof.
  unfold setGlobalBadgeCount. cbn [fst].
  destruct (negb (bool_decide _));
    destruct (given unreadHighlights), (given unread);
    destruct (positive unreadHighlights); destruct (positive unread); done.
Qed.

End BadgeManagerFacts.

(** X12. [setGlobalBadgeCount] makes one [setState] and one [setToolTip]
    call whatever it is given.  It sets the dock badge once when both
    counts are numbers; when a count is [null] or [undefined] it clears
    the badge first, so that [setBadge] is called twice.  It sends the
    overlay status only when it differs from the one it remembers, so a
    second call with the same arguments sends none.  A status other than
    ['online'] is remembered as it is, whatever the counts: unread
    messages never mask an offline or connecting team. *)
Theorem setGlobalBadgeCount_calls
    (unreadHighlights unread : BadgeManager.Count) (status : string)
    (remembered : option string) :
  let r := BadgeManager.setGlobalBadgeCount unreadHighlights unread status
             remembered in
  length (MoreProperties.trayStates r.1) = 1%nat
  ∧ length (MoreProperties.toolTips r.1) = 1%nat
  ∧ (if BadgeManager.given unreadHighlights && BadgeManager.given unread
     then length (MoreProperties.dockBadges r.1) = 1%nat
     else ∃ badge, MoreProperties.dockBadges r.1 = [""; badge])
  ∧ MoreProperties.overlayStatuses
      (BadgeManager.setGlobalBadgeCount unreadHighlights unread status r.2).1 = []
  ∧ (status ≠ "online" → r.2 = Some status)
  ∧ (r.2 = remembered → MoreProperties.overlayStatuses r.1 = []).
Proof.
  intros r. subst r.
  split; [|split; [|split; [|split; [|split]]]].
  - unfold BadgeManager.setGlobalBadgeCount. cbn [fst].
    destruct (negb (bool_decide _)); destruct (negb _ || negb _);
      destruct (BadgeManager.positive unreadHighlights);
      destruct (BadgeManager.positive unread); done.
  - unfold BadgeManager.setGlobalBadgeCount. cbn [fst].
    destruct (negb (bool_decide _)); destruct (negb _ || negb _);
      destruct (BadgeManager.positive unreadHighlights);
      destruct (BadgeManager.positive unread); done.
  - rewrite setGlobalBadgeCount_dock.
    destruct (BadgeManager.given unreadHighlights && BadgeManager.given unread);
      [done|by eexists].
  - rewrite setGlobalBadgeCount_overlay.
    unfold BadgeManager.setGlobalBadgeCount. cbn [snd].
    by rewrite bool_decide_eq_true_2.
  - intros Hst. unfold BadgeManager.setGlobalBadgeCount. cbn [snd].
    replace (String.eqb status "online") with false
      by (symmetry; by apply String.eqb_neq).
    by rewrite !andb_false_r.
  - intros Hsame. rewrite setGlobalBadgeCount_overlay.
    destruct (BadgeManager.setGlobalBadgeCount _ _ _ _).2 as [st|]; [|done].
    by rewrite bool_decide_eq_true_2.
Qed.

Lemma setGlobalBadgeCount_calls_witness :
  (BadgeManager.setGlobalBadgeCount
     (BadgeManager.CountOf (Finite 2)) (BadgeManager.CountOf (Finite 5))
     "offline" (Some "online")).2
  = Some "offline".
Proof.
  apply (setGlobalBadgeCount_calls
           (BadgeManager.CountOf (Finite 2)) (BadgeManager.CountOf (Finite 5))
           "offline" (Some "online")).
  discriminate.
Defined.

(** X13. With counts that are not negative and the status ['online'],
    the overlay status that [setGlobalBadgeCount] remembers agrees with
    the tray state it sets: ['highlight'] when there are unread
    highlights, else ['unread'] when there are unread messages, else
    ['online'] with the tray at ['rest']; the dock badge is the number of
    highlights, else the dot, else empty. *)
Theorem setGlobalBadgeCount_online (unreadHighlights unread : Z)
    (remembered : option string) :
  0 ≤ unreadHighlights → 0 ≤ unread →
  let r := BadgeManager.setGlobalBadgeCount
             (BadgeManager.CountOf (Finite unreadHighlights))
             (BadgeManager.CountOf (Finite unread))
             "online" remembered in
  ∃ state,
    MoreProperties.trayStates r.1 = [state]
    ∧ r.2 = Some (if String.eqb state "rest" then "online" else state)
    ∧ (state = "highlight" ↔ 0 < unreadHighlights)
    ∧ (state = "unread" ↔ unreadHighlights = 0 ∧ 0 < unread)
    ∧ (state = "rest" ↔ unreadHighlights = 0 ∧ unread = 0)
    ∧ (MoreProperties.dockBadges r.1 = [""] ↔ unreadHighlights = 0 ∧ unread = 0).
Proof.
  intros Hh Hu r. subst r.
  rewrite setGlobalBadgeCount_dock.
  unfold BadgeManager.setGlobalBadgeCount. cbn [fst snd].
  cbn [BadgeManager.given andb negb orb app].
  unfold BadgeManager.positive, BadgeManager.nonzero.
  destruct (0 <? unreadHighlights) eqn:H1.
  - apply Z.ltb_lt in H1.
    replace (unreadHighlights =? 0) with false by (symmetry; apply Z.eqb_neq; lia).
    pose proof (countString_ne_empty _ H1) as Hne.
    set (badge := BadgeManager.countString _) in *. clearbody badge.
    exists "highlight".
    destruct (negb (bool_decide _)); cbn; repeat split; try done; try lia;
      try (intros [? ?]; lia).
    all: congruence.
  - apply Z.ltb_ge in H1. assert (unreadHighlights = 0) as -> by lia.
    destruct (0 <? unread) eqn:H2.
    + apply Z.ltb_lt in H2.
      replace (unread =? 0) with false by (symmetry; apply Z.eqb_neq; lia).
      set (text := BadgeManager.countString _). clearbody text.
      exists "unread".
      destruct (negb (bool_decide _)); cbn; repeat split; try done; try lia;
        try (intros [? ?]; lia).
    + apply Z.ltb_ge in H2. assert (unread = 0) as -> by lia.
      exists "rest". cbn.
      destruct (negb (bool_decide _)); cbn; repeat split; try done; try lia.
Qed.

Lemma setGlobalBadgeCount_online_witness :
  let r := BadgeManager.setGlobalBadgeCount
             (BadgeManager.CountOf (Finite 0)) (BadgeManager.CountOf (Finite 4))
             "online" (Some "offline") in
  ∃ state,
    MoreProperties.trayStates r.1 = [state]
    ∧ r.2 = Some (if String.eqb state "rest" then "online" else state)
    ∧ (state = "highlight" ↔ 0 < 0)
    ∧ (state = "unread" ↔ 0 = 0 ∧ 0 < 4)
    ∧ (state = "rest" ↔ 0 = 0 ∧ 4 = 0)
    ∧ (MoreProperties.dockBadges r.1 = [""] ↔ 0 = 0 ∧ 4 = 0).
Proof.
  apply (setGlobalBadgeCount_online 0 4 (Some "offline")); lia.
Defined.

(** ** Replies to executeJavaScript *)

Section Correlation.
Import SlackWebViewContext MoreProperties.
Context {Json : Type} (JSON_parse : string → option Json).





End Correlation.



(** ** Presenting the teams *)

Section Present.
Import TeamsViewController Properties MoreProperties.

Lemma presentAvailableTeams_noise us s x :
  findTeam (heap s) hasSigninId us = Some x →
  teamList s ≠ [] →
  lastSignOut s us = false →
  presentAvailableTeams (Some us) s
  = match findTeam (heap s)
            (λ x, negb (hasSigninId x) && truthy (readProp (Team.webView x)))
            (teamList s) with
    | Some anyOtherTeam =>
        (callWebView (readProp (Team.webView (deref (heap s) anyOtherTeam)))
                     WebView_refreshTeams) s
    | None => Returns tt s
    end.
Proof.
  intros Hfind Hne Hlast. unfold presentAvailableTeams. unfold bind at 1, get.
  replace (match Some us with Some [only] => _ | _ => false end) with false
    by (symmetry; exact Hlast).
  change (default [] (Some us)) with us. rewrite Hfind.
  rewrite bool_decide_eq_true_2 by (by eexists).
  replace (0 <? length (teamList s))%nat with true
    by (symmetry; apply Nat.ltb_lt; destruct (teamList s); [done|simpl; lia]).
  cbn [andb negb].
  unfold bind. destruct (findTeam _ _ (teamList s)) as [other|]; [|done].
  by destruct (callWebView _ _ s) as [[] ?|].
Qed.

(** [_.find] yields the first element that fits. *)
Lemma findTeam_first h p l i x :
  l !! i = Some x →
  p (deref h x) = true →
  (∀ j y, (j < i)%nat → l !! j = Some y → p (deref h y) = false) →
  findTeam h p l = Some x.
Proof.
  unfold findTeam. revert i. induction l as [|y l IH]; intros i Hi Hx Hbefore;
    [done|].
  destruct i as [|i]; simpl in *.
  - injection Hi as ->. by rewrite Hx.
  - rewrite (Hbefore 0%nat y) by (done || lia).
    apply (IH i); [done|done|]. intros j z Hj Hz.
    apply (Hbefore (S j)); [lia|done].
Qed.

End Present.

(** X15. The bogus list that the web app sends while the user signs in
    or out is ignored: when the update has an entry whose [id] is
    ['__signin__'], the registry is not empty and this is not the
    sign-out of the last team, [presentAvailableTeams] changes nothing,
    it merges nothing, stores nothing and makes no team primary.  All it
    does is to ask the first team of the registry that is not the
    placeholder and holds a web view to send its teams again; it raises
    when what that team holds is not a web view context, and it does
    nothing when there is no such team. *)
Theorem presentAvailableTeams_ignores_signin_noise
    (us : list loc) (s : State) (x : loc) :
  findTeam (heap s) TeamsViewController.hasSigninId us = Some x →
  teamList s ≠ [] →
  MoreProperties.lastSignOut s us = false →
  ((∀ l, l ∈ teamList s → MoreProperties.canRefresh (heap s) l = false) →
   TeamsViewController.presentAvailableTeams (Some us) s = Returns tt s)
  ∧ (∀ i first,
       teamList s !! i = Some first →
       MoreProperties.canRefresh (heap s) first = true →
       (∀ j l, (j < i)%nat → teamList s !! j = Some l →
               MoreProperties.canRefresh (heap s) l = false) →
       TeamsViewController.presentAvailableTeams (Some us) s
       = match Team.webView (deref (heap s) first) with
         | Some (VRef w) =>
             Returns tt (Properties.andThen s [WebView_refreshTeams w])
         | _ => Throws "TypeError" s
         end).
Proof.
  intros Hfind Hne Hlast.
  rewrite (presentAvailableTeams_noise us s x) by done. split.
  - intros Hnone.
    replace (findTeam _ _ (teamList s)) with (@None loc); [done|].
    symmetry. apply findTeam_None. intros l Hl. by apply Hnone.
  - intros i first Hi Hcan Hbefore.
    rewrite (findTeam_first (heap s) _ (teamList s) i first Hi Hcan Hbefore).
    unfold MoreProperties.canRefresh in Hcan.
    apply andb_true_iff in Hcan as [_ Htr].
    by destruct (Team.webView (deref (heap s) first)) as [[| | | | |w|]|].
Qed.

Lemma presentAvailableTeams_ignores_signin_noise_witness :
  let s := MoreProperties.signingIn in
  TeamsViewController.presentAvailableTeams (Some [3%nat]) s
  = Returns tt (Properties.andThen s [WebView_refreshTeams 0%nat]).
Proof.
  intros s.
  apply (proj2 (presentAvailableTeams_ignores_signin_noise [3%nat] s 3%nat
                  eq_refl ltac:(discriminate) eq_refl)
           0%nat 0%nat).
  - reflexivity.
  - reflexivity.
  - intros j l Hj. lia.
Defined.

Section LastSignOut.
Import TeamsViewController Properties MoreProperties.

Lemma sortedTeamIds_nil h l : sortedTeamIds h l = [] → l = [].
Proof.
  unfold sortedTeamIds. intros H.
  pose proof (merge_sort_Permutation sortCompare
                (map (λ x, Team.team_id (deref h x)) l)) as Hperm.
  rewrite H in Hperm. apply Permutation_nil_l in Hperm.
  by destruct l.
Qed.

Lemma set_haveMergedTeamListOnce_same s :
  haveMergedTeamListOnce s = true → set_haveMergedTeamListOnce true s = s.
Proof. destruct s. simpl. by intros ->. Qed.

(** An update without teams always differs from a registry with teams. *)
Lemma shouldMergeTeamList_nothing_incoming u s :
  default [] u = [] → teamList s ≠ [] →
  shouldMergeTeamList u s = Returns true (set_haveMergedTeamListOnce true s).
Proof.
  intros Hu Hne. destruct (haveMergedTeamListOnce s) eqn:Hflag.
  - rewrite shouldMergeTeamList_compares by done. rewrite Hu.
    rewrite set_haveMergedTeamListOnce_same by done. f_equal.
    apply negb_true_iff, bool_decide_eq_false. intros Heq.
    by apply sortedTeamIds_nil in Heq.
  - rewrite shouldMergeTeamList_first by done.
    destruct (teamList s); done.
Qed.

(** Merging an update without teams into a registry of one team. *)
Lemma mergeTeamList_nothing_left l s :
  teamList s = [l] →
  mergeTeamList (Some []) s
  = Returns (mkMergeResult []
               (match liveWebView (heap s) l with Some v => [v] | None => [] end))
      (set_teamList []
         (set_heap (update l (Team.set_shouldDelete true) (heap s)) s)).
Proof.
  intros Hl. unfold mergeTeamList. unfold bind at 1, get. rewrite Hl.
  cbn [findTeam List.find]. unfold fixupSigninTeam.
  unfold bind at 1. unfold bind at 1, get.
  replace (match findTeam (heap s) isSigninTeam (teamList s) with
           | Some _ => ret tt | None => ret tt end s) with (Returns tt s)
    by (by destruct (findTeam _ _ _)).
  cbn [addTeams]. unfold bind at 1, ret at 1. unfold bind at 1, get.
  rewrite Hl. cbn [length seq forEach].
  unfold bind at 1. unfold bind at 1. unfold updateTeamAt at 1.
  unfold bind at 1, get. rewrite Hl. cbn [lookup list_lookup findTeam List.find].
  unfold updateTeam, modify, ret. unfold bind at 1, get.
  cbn [teamList heap set_heap removeDeleted]. rewrite Hl.
  cbn [removeDeleted]. rewrite deref_update_eq.
  cbn [Team.shouldDelete Team.set_shouldDelete Team.webView].
  unfold liveWebView.
  destruct (truthy (readProp (Team.webView (deref (heap s) l)))); done.
Qed.

End LastSignOut.

Section LastSignOutSteps.
Import TeamsViewController Properties MoreProperties.

Lemma released_marked l s :
  released (set_heap (update l (Team.set_shouldDelete true) (heap s)) s)
  = released s.
Proof.
  unfold released. simpl. destruct (primaryTeamDisp s) as [old|]; [|done].
  rewrite deref_update. by destruct (decide (l = owner old)) as [->|].
Qed.

Lemma ownerOk_marked l s :
  ownerOk s →
  ownerOk (set_heap (update l (Team.set_shouldDelete true) (heap s)) s).
Proof.
  intros Hok d Hd. specialize (Hok d Hd). unfold webViewOk in *. simpl.
  rewrite deref_update. by destruct (decide (l = owner d)) as [->|].
Qed.

End LastSignOutSteps.

(** X16. The sign-out of the last team: when the registry holds one team
    and the update is the single ['__signin__'] dummy with the reason
    ['didSignOut'], [presentAvailableTeams] empties the registry, stores
    the empty list, clears the primary team together with its
    subscriptions and shows the login dialog, which cannot be cancelled.
    The web view of the team is handed back by the merge but it is never
    disposed: the method returns before it comes to that. *)
Theorem presentAvailableTeams_last_sign_out (s : State) (l only : loc) :
  teamList s = [l] →
  Team.reason (deref (heap s) only) = VStr "didSignOut" →
  TeamsViewController.hasSigninId (deref (heap s) only) = true →
  MoreProperties.ownerOk s →
  ∃ s',
    TeamsViewController.presentAvailableTeams (Some [only]) s = Returns tt s'
    ∧ s' = set_effects
             (effects s
              ++ [LocalStorage_setItem_teamList []]
              ++ MoreProperties.released s
              ++ [LoadingScreen_showTrying;
                  SendToBrowser "teams:team-changed" [];
                  LoginDialog_setCancelable false;
                  LoginDialog_show])
             (MoreProperties.signedOut l s)
    ∧ (∀ w, WebView_dispose w ∈ effects s' → WebView_dispose w ∈ effects s).
Proof.
  intros Hl Hreason Hid Hok.
  eexists. split; [|split; [reflexivity|]].
  - unfold TeamsViewController.presentAvailableTeams. unfold bind at 1, get.
    rewrite Hreason, Hid, Hl.
    cbn [length Nat.eqb andb].
    rewrite (proj2 (strictEq_true (VStr "didSignOut") (VStr "didSignOut")) eq_refl).
    cbn [andb negb]. change (default [] (Some [])) with (@nil loc).
    cbn [findTeam List.find].
    rewrite bool_decide_eq_false_2 by (by intros [? ?]).
    cbn [andb].
    unfold TeamsViewController.presentMerged. unfold bind at 1.
    unfold TeamsViewController.reconcile. unfold bind at 1.
    rewrite shouldMergeTeamList_nothing_incoming by (try done; by rewrite Hl).
    unfold bind at 1.
    rewrite (mergeTeamList_nothing_left l) by done.
    unfold ret at 1. cbn [fst snd].
    unfold bind at 1. unfold TeamsViewController.serializeTeamList.
    unfold bind at 1, get. cbn [teamList set_teamList map findTeam List.find].
    unfold bind at 1, emit at 1, modify at 1. unfold ret at 1.
    unfold bind at 1, get. cbn [teamList set_teamList set_effects length Nat.eqb orb].
    unfold bind at 1. unfold bind at 1.
    rewrite makeTeamPrimary_None_eq.
    + unfold bind, emit, modify. 
      f_equal. unfold MoreProperties.signedOut.
      pose proof (released_marked l (set_haveMergedTeamListOnce true s)) as Hrel.
      unfold MoreProperties.released in *. simpl in *. rewrite Hrel.
      unfold set_effects. simpl. f_equal. by rewrite <- !app_assoc.
    + intros d Hd. simpl in Hd. specialize (Hok d Hd).
      unfold MoreProperties.webViewOk in *. simpl.
      rewrite deref_update. by destruct (decide (l = owner d)) as [->|].
  - intros w H. unfold set_effects in H. cbn [effects] in H.
    rewrite !elem_of_app in H. destruct H as [H|[H|[H|H]]]; [done|..].
    + by apply list_elem_of_singleton in H.
    + unfold MoreProperties.released in H.
      destruct (primaryTeamDisp s) as [old|]; [|by apply not_elem_of_nil in H].
      apply elem_of_app in H as [H|H].
      * destruct (Team.webView (deref (heap s) (owner old)))
          as [[| | | | |w'|]|]; try (by apply not_elem_of_nil in H).
        by apply list_elem_of_singleton in H.
      * apply elem_of_cons in H as [H|H]; [done|].
        by apply list_elem_of_singleton in H.
    + repeat (apply elem_of_cons in H as [H|H]; [done|]).
      by apply not_elem_of_nil in H.
Qed.

Lemma presentAvailableTeams_last_sign_out_witness :
  let s := MoreProperties.lastTeam in
  ∃ s',
    TeamsViewController.presentAvailableTeams (Some [1%nat]) s = Returns tt s'
    ∧ s' = set_effects
             (effects s
              ++ [LocalStorage_setItem_teamList []]
              ++ MoreProperties.released s
              ++ [LoadingScreen_showTrying;
                  SendToBrowser "teams:team-changed" [];
                  LoginDialog_setCancelable false;
                  LoginDialog_show])
             (MoreProperties.signedOut 0%nat s)
    ∧ (∀ w, WebView_dispose w ∈ effects s' → WebView_dispose w ∈ effects s).
Proof.
  intros s.
  apply (presentAvailableTeams_last_sign_out s 0%nat 1%nat).
  - reflexivity.
  - reflexivity.
  - reflexivity.
  - intros d Hd _. injection Hd as <-. exists 0%nat. reflexivity.
Defined.

(** ** The stored team list *)

Section Storage.
Import TeamsViewController Properties MoreProperties.

Lemma deref_allocate ts : ∀ base h l,
  deref (allocate base ts h) l
  = if decide (base ≤ l < base + length ts)%nat
    then default Team.empty (ts !! (l - base)%nat)
    else deref h l.
Proof.
  induction ts as [|t ts IH]; intros base h l; simpl.
  - rewrite decide_False by lia. done.
  - rewrite IH. destruct (decide (S base ≤ l < S base + length ts)%nat) as [H|H].
    + rewrite decide_True by lia.
      replace (l - base)%nat with (S (l - S base)) by lia. done.
    + destruct (decide (l = base)) as [->|Hne].
      * rewrite decide_True by lia. rewrite Nat.sub_diag. simpl.
        unfold deref. by rewrite lookup_insert_eq.
      * rewrite decide_False by lia. unfold deref.
        by rewrite lookup_insert_ne.
Qed.

Lemma map_deref_allocate ts h :
  map (deref (allocate 0%nat ts h)) (seq 0 (length ts)) = ts.
Proof.
  apply list_eq. intros i.
  change (map ?f ?l) with (f <$> l). rewrite list_lookup_fmap.
  destruct (decide (i < length ts)%nat) as [Hi|Hi].
  - rewrite lookup_seq_lt by done. simpl. rewrite deref_allocate.
    rewrite decide_True by lia. rewrite Nat.sub_0_r.
    destruct (lookup_lt_is_Some_2 ts i Hi) as [t Ht]. by rewrite Ht.
  - rewrite lookup_seq_ge by lia. simpl. symmetry.
    apply lookup_ge_None. lia.
Qed.

Lemma serializeTeamList_eq s :
  serializeTeamList s
  = Returns tt
      (let s1 := set_effects
                   (effects s
                    ++ [LocalStorage_setItem_teamList
                          (map (λ l, Team.prepareTeamForSerialization
                                       (deref (heap s) l)) (teamList s))]) s in
       if bool_decide (VStr "T024BE7LD" ∈ teamIds (heap s) (teamList s))
          && negb (savedTsDevMenu s)
       then set_savedTsDevMenu true
              (set_effects (effects s1 ++ [Fs_writeDevMenu]) s1)
       else s1).
Proof.
  unfold serializeTeamList. unfold bind at 1, get.
  unfold bind at 1, emit at 1, modify at 1.
  destruct (findTeam _ _ _) as [x|] eqn:Hfind.
  - apply findTeam_Some in Hfind as [Hin Hid]. apply strictEq_true in Hid.
    rewrite bool_decide_eq_true_2.
    + cbn [savedTsDevMenu set_effects]. by destruct (savedTsDevMenu s).
    + rewrite <- Hid. unfold teamIds. apply list_elem_of_fmap. by exists x.
  - rewrite bool_decide_eq_false_2; [done|].
    rewrite findTeam_None in Hfind. unfold teamIds.
    intros (x & Hid & Hin)%list_elem_of_fmap.
    specialize (Hfind x Hin). apply strictEq_false in Hfind.
    by apply Hfind.
Qed.

End Storage.

(** X17. The constructor takes the stored team list as a whole or not at
    all: when every stored entry has a truthy [team_id], the registry
    holds the stored hashes in their order, each extended with its entry
    of the theme cache, so with the stored [team_id], name, url and web
    view keys; when one entry has none, the registry is empty.  In both
    cases there is no primary team, no subscription and no effect yet,
    and no record is in the registry twice. *)
Theorem constructor_restores_stored_teams
    (stored : list Team.t) (themeInfo : gmap string ThemeCache.ThemeData)
    (reporter bugsnag : bool) :
  let s := TeamsViewController.constructor stored themeInfo reporter bugsnag in
  NoDup (teamList s)
  ∧ primaryTeam s = None ∧ primaryTeamDisp s = None ∧ effects s = []
  ∧ haveMergedTeamListOnce s = false
  ∧ ((∀ t, t ∈ stored → truthy (Team.team_id t) = true) →
     map (deref (heap s)) (teamList s)
     = map (λ t, Team.extend t
                   (ThemeCache.fetchThemeInfoAndIconsForTeam themeInfo t)) stored
     ∧ Properties.teamIds (heap s) (teamList s) = map Team.team_id stored
     ∧ map (λ l, Team.webView (deref (heap s) l)) (teamList s)
       = map Team.webView stored)
  ∧ ((∃ t, t ∈ stored ∧ truthy (Team.team_id t) = false) → teamList s = []).
Proof.
  intros s. subst s. unfold TeamsViewController.constructor.
  cbn [teamList primaryTeam primaryTeamDisp effects haveMergedTeamListOnce heap].
  split; [apply NoDup_seq|]. do 4 (split; [done|]). split.
  - intros Hall.
    replace (forallb (λ x, truthy (Team.team_id x)) stored) with true.
    + set (ts := map _ stored).
      assert (Hts : map (deref (TeamsViewController.allocate 0%nat ts ∅))
                        (seq 0 (length ts)) = ts) by apply map_deref_allocate.
      split; [exact Hts|].
      unfold Properties.teamIds, Properties.tid.
      split.
      * rewrite <- (map_map (deref _) Team.team_id), Hts. subst ts.
        rewrite map_map. by apply map_ext.
      * rewrite <- (map_map (deref _) Team.webView), Hts. subst ts.
        rewrite map_map. apply map_ext. intros t. simpl.
        unfold ThemeCache.fetchThemeInfoAndIconsForTeam.
        by destruct (themeInfo !! _).
    + symmetry. apply forallb_forall. intros t Ht. apply Hall.
      by apply list_elem_of_In.
  - intros (t & Hin & Hfalsy).
    replace (forallb (λ x, truthy (Team.team_id x)) stored) with false; [done|].
    symmetry. apply not_true_is_false. intros Hall.
    rewrite forallb_forall in Hall. rewrite Hall in Hfalsy; [done|].
    by apply list_elem_of_In.
Qed.

Lemma constructor_restores_stored_teams_witness :
  let stored :=
    [Team.mk VUndefined (VStr "T1") (VStr "Acme Corp")
       (VStr "https://acme.slack.com") VUndefined None None None None None None
       None false;
     Team.mk VUndefined VUndefined (VStr "Beta") (VStr "https://beta.slack.com")
       VUndefined None None None None None None None false] in
  teamList (TeamsViewController.constructor stored ∅ false false) = [].
Proof.
  intros stored.
  apply (constructor_restores_stored_teams stored ∅ false false).
  exists (Team.mk VUndefined VUndefined (VStr "Beta") (VStr "https://beta.slack.com")
            VUndefined None None None None None None None false).
  split; [|reflexivity]. right. by left.
Defined.

(** X18. [serializeTeamList] stores the hashes of the registry, in
    order, without their [webView], [webViewLoaded], [badgeInfo], [icons]
    and [initials] keys, and leaves the registry as it is.  The
    ['.devmenu'] file is written at most once: by the first call on a
    registry that has the team ['T024BE7LD'], and by no call after one
    that wrote it. *)
Theorem serializeTeamList_stores (s : State) :
  let saved := map (λ l, Team.prepareTeamForSerialization (deref (heap s) l))
                   (teamList s) in
  ∃ s', TeamsViewController.serializeTeamList s = Returns tt s'
        ∧ MoreProperties.primaryView s' = MoreProperties.primaryView s
        ∧ (∃ es, effects s' = effects s ++ LocalStorage_setItem_teamList saved :: es
                 ∧ (es = [] ∨ es = [Fs_writeDevMenu])
                 ∧ (es = [Fs_writeDevMenu]
                    ↔ VStr "T024BE7LD" ∈ Properties.teamIds (heap s) (teamList s)
                      ∧ savedTsDevMenu s = false)
                 ∧ (es = [Fs_writeDevMenu] → savedTsDevMenu s' = true)
                 ∧ (savedTsDevMenu s = true → savedTsDevMenu s' = true))
        ∧ (∀ t, t ∈ saved →
                Team.webView t = None ∧ Team.webViewLoaded t = None
                ∧ Team.badgeInfo t = None ∧ Team.icons t = None
                ∧ Team.initials t = None).
Proof.
  intros saved. eexists. split; [apply serializeTeamList_eq|].
  cbv zeta.
  destruct (bool_decide _) eqn:Hdev;
    [apply bool_decide_eq_true in Hdev | apply bool_decide_eq_false in Hdev];
    destruct (savedTsDevMenu s) eqn:Hsaved; cbn [andb negb].
  all: split; [done|]. all: split.
  1: { exists []. split; [done|]. split; [by left|]. split; [|done].
       split; [done|]. by intros [_ ?]. }
  2: { exists [Fs_writeDevMenu]. split; [simpl; by rewrite <- app_assoc|].
       split; [by right|]. by repeat split. }
  3: { exists []. split; [done|]. split; [by left|]. split; [|done].
       split; [done|]. by intros [? _]. }
  4: { exists []. split; [done|]. split; [by left|]. split; [|done].
       split; [done|]. by intros [? _]. }
  all: intros t (l & -> & _)%list_elem_of_fmap; done.
Qed.

Lemma serializeTeamList_stores_witness :
  let s := MoreProperties.twoTeams in
  let saved := map (λ l, Team.prepareTeamForSerialization (deref (heap s) l))
                   (teamList s) in
  ∃ s', TeamsViewController.serializeTeamList s = Returns tt s'
        ∧ MoreProperties.primaryView s' = MoreProperties.primaryView s
        ∧ (∃ es, effects s' = effects s ++ LocalStorage_setItem_teamList saved :: es
                 ∧ (es = [] ∨ es = [Fs_writeDevMenu])
                 ∧ (es = [Fs_writeDevMenu]
                    ↔ VStr "T024BE7LD" ∈ Properties.teamIds (heap s) (teamList s)
                      ∧ savedTsDevMenu s = false)
                 ∧ (es = [Fs_writeDevMenu] → savedTsDevMenu s' = true)
                 ∧ (savedTsDevMenu s = true → savedTsDevMenu s' = true))
        ∧ (∀ t, t ∈ saved →
                Team.webView t = None ∧ Team.webViewLoaded t = None
                ∧ Team.badgeInfo t = None ∧ Team.icons t = None
                ∧ Team.initials t = None).
Proof.
  intros s. apply (serializeTeamList_stores s).
Defined.

(** ** Presenting a registry that has teams *)

Section PresentMain.
Import TeamsViewController Properties MoreProperties.

Lemma updateBadgeInfoForTeam_returns s p team updateAll :
  primaryTeam s = Some p →
  ∃ es, updateBadgeInfoForTeam team None updateAll s = Returns tt (andThen s es).
Proof.
  intros Hp. unfold updateBadgeInfoForTeam.
  destruct team as [given|]; [|exists []; by rewrite andThen_nil].
  unfold bind at 1, get.
  destruct (negb _); [exists []; by rewrite andThen_nil|].
  destruct (findTeam _ _ _) as [found|]; [|exists []; by rewrite andThen_nil].
  unfold bind at 1, ret at 1. unfold bind at 1.
  rewrite (badgeLoop_returns s p) by done.
  set (es := if updateAll then _ else _).
  destruct updateAll; simpl.
  - eexists. unfold bind, ret, emit, modify. f_equal.
    unfold andThen, set_effects. simpl. by rewrite <- app_assoc.
  - eexists. unfold bind at 1, setSelectionStatus, bind at 1, get.
    simpl. rewrite Hp. unfold emit, modify, bind. f_equal.
    unfold andThen, set_effects. simpl. by rewrite <- !app_assoc.
Qed.

Lemma setDisposable_returns d s :
  ownerOk s →
  ∃ es, setDisposable d s = Returns tt (andThen (set_primaryTeamDisp d s) es).
Proof.
  intros Hok. unfold setDisposable. unfold bind at 1, get.
  unfold bind at 1, modify at 1.
  destruct (primaryTeamDisp s) as [old|] eqn:Hold;
    [|exists []; by rewrite andThen_nil].
  specialize (Hok old Hold). unfold webViewOk in Hok.
  unfold readTeam, bind, get, ret, emit, modify.
  cbn [heap set_primaryTeamDisp].
  destruct (truthy (readProp (Team.webView (deref (heap s) (owner old)))))
    eqn:Htr.
  - destruct (Hok eq_refl) as [w Hw]. rewrite Hw. simpl.
    eexists. f_equal. unfold andThen, set_effects. simpl.
    by rewrite <- !app_assoc.
  - simpl. eexists. f_equal. unfold andThen, set_effects. simpl.
    by rewrite <- !app_assoc.
Qed.

(** A team with a web view can be made primary. *)
Lemma makeTeamPrimary_returns s t w :
  Team.webView (deref (heap s) t) = Some (VRef w) →
  ownerOk s →
  ∃ r s', makeTeamPrimary (Some t) s = Returns r s'.
Proof.
  intros Hw Hok. unfold makeTeamPrimary.
  unfold bind at 1, emit at 1, modify at 1. unfold bind at 1, get.
  cbn [heap primaryTeam set_effects].
  destruct (match primaryTeam s with Some _ => _ | None => _ end);
    [by eexists _, _|].
  rewrite Hw. change (readProp (Some (VRef w))) with (VRef w). cbv beta iota.
  unfold bind at 1, emit at 1, modify at 1.
  unfold bind at 1, emit at 1, modify at 1.
  unfold bind at 1, emit at 1, modify at 1.
  cbn [hasBugsnag set_effects].
  rewrite bind_when_emit.
  unfold bind at 1, modify at 1.
  match goal with
  | |- context [bind (setDisposable ?d) _ ?s4] =>
      destruct (setDisposable_returns d s4) as [es Hes]
  end.
  { intros d Hd.
    assert (Hd' : primaryTeamDisp s = Some d) by (by destruct (hasBugsnag s)).
    specialize (Hok d Hd'). unfold webViewOk in *.
    by destruct (hasBugsnag s). }
  unfold bind at 1. rewrite Hes.
  unfold bind at 1, emit at 1, modify at 1.
  match goal with
  | |- context [bind (updateBadgeInfoForTeam ?a None ?u) _ ?s5] =>
      destruct (updateBadgeInfoForTeam_returns s5 t a u) as [es' Hes'];
        [by destruct (hasBugsnag s)|]
  end.
  unfold bind at 1. rewrite Hes'.
  by eexists _, _.
Qed.

End PresentMain.

Section PresentRegistry.
Import TeamsViewController Properties MoreProperties.

(** The end of [presentAvailableTeams] after a merge that removed no
    team: telling the team selector, the themes and the menu. *)
Lemma presentMerged_steps s :
  teamList s ≠ [] → uniqueIds s →
  (∀ l, l ∈ teamList s →
        nameOk (heap s) l ∧ webViewOk (heap s) l
        ∧ hasSigninId (deref (heap s) l) = false) →
  ownerOk s →
  ∃ s3 s4,
    (s0 <- get ;;
     forEach (λ team, t <- readTeam team ;;
                      fetchTeam (Team.team_id t) false ;; ret tt)
             (teamList s0)) s = Returns tt s3
    ∧ teamList s3 = teamList s
    ∧ (∀ x, tid (heap s3) x = tid (heap s) x)
    ∧ (∀ x, Team.id (deref (heap s3) x) = Team.id (deref (heap s) x))
    ∧ (∀ l, l ∈ teamList s → loaded (heap s3) l)
    ∧ controlView s3 = controlView s
    ∧ (s1 <- get ;;
       if match primaryTeam s1 with
          | None => false
          | Some p =>
              bool_decide (is_Some (findTeam (heap s1) (sameTeamId (heap s1) p)
                                             (teamList s1)))
          end
       then ret tt
       else makeTeamPrimary (head (teamList s1)) ;; ret tt) s3 = Returns tt s4
    ∧ sameButPrimary s3 s4
    ∧ (∃ p, primaryTeam s4 = Some p
            ∧ tid (heap s) p ∈ teamIds (heap s) (teamList s))
    ∧ (∀ p, primaryTeam s = Some p →
            tid (heap s) p ∈ teamIds (heap s) (teamList s) →
            primaryTeam s4 = Some p)
    ∧ ((∀ p, primaryTeam s = Some p →
             tid (heap s) p ∉ teamIds (heap s) (teamList s)) →
       primaryTeam s4 = head (teamList s)).
Proof.
  intros Hne Hu Hall Hok.
  destruct (loadLoop (teamList s) s Hu)
    as (s3 & Hs3 & Hl3 & Ht3 & Hd3 & Hr3 & He3 & Hi3 & Hw3 & Hc3);
    [done|by apply uniqueIds_NoDup|intros l Hl; by apply Hall|].
  assert (Hp3 : primaryTeam s3 = primaryTeam s) by (by injection Hc3).
  assert (Hdisp3 : primaryTeamDisp s3 = primaryTeamDisp s) by (by injection Hc3).
  assert (Hok3 : ownerOk s3).
  { intros d Hd. rewrite Hdisp3 in Hd. specialize (Hok d Hd).
    destruct (decide (owner d ∈ teamList s)) as [Hin|Hout].
    - destruct (Hw3 (owner d) Hin) as [w Hw]; [by apply Hall|].
      intros _. by exists w.
    - unfold webViewOk. by rewrite Hd3. }
  assert (Hids : ∀ p, tid (heap s) p ∈ teamIds (heap s) (teamList s)
                      ↔ is_Some (findTeam (heap s3) (sameTeamId (heap s3) p)
                                          (teamList s3))).
  { intros p. rewrite Hl3. split.
    - intros Hin. destruct (findTeam _ _ _) eqn:Hf; [done|].
      apply findTeam_sameTeamId_None in Hf. exfalso. apply Hf.
      rewrite Ht3. by rewrite (teamIds_ext (heap s) (heap s3)).
    - intros [x Hx]. apply findTeam_sameTeamId_Some in Hx as [Hx1 Hx2].
      rewrite !Ht3 in Hx2. rewrite <- Hx2. unfold teamIds.
      apply list_elem_of_fmap. by exists x. }
  assert (∃ first rest, teamList s = first :: rest) as (first & rest & Hteams)
    by (destruct (teamList s) as [|first rest]; [done|by exists first, rest]).
  assert (Hfirst : first ∈ teamList s) by (rewrite Hteams; by left).
  destruct (Hw3 first) as [w Hw]; [done|by apply Hall|].
  destruct (makeTeamPrimary_returns s3 first w Hw Hok3) as (r & s4 & Hs4).
  pose proof (makeTeamPrimary_view (Some first) s3) as Hview.
  rewrite Hs4 in Hview. simpl in Hview.
  destruct (match primaryTeam s3 with
            | None => false
            | Some p => bool_decide (is_Some (findTeam (heap s3)
                          (sameTeamId (heap s3) p) (teamList s3)))
            end) eqn:Hstill.
  - exists s3, s3. split; [exact Hs3|].
    split; [done|]. split; [done|]. split; [done|].
    split; [intros l Hl; by apply Hr3|]. split; [done|]. split.
    { unfold bind, get. by rewrite Hstill. }
    split; [apply sameButPrimary_refl|].
    destruct (primaryTeam s3) as [p|] eqn:Hp; [|done].
    apply bool_decide_eq_true in Hstill. split; [|split].
    + exists p. split; [done|]. by apply Hids.
    + intros p' Hp' _. congruence.
    + intros Hgone. exfalso. apply (Hgone p); [congruence|]. by apply Hids.
  - assert (Hnot : match primaryTeam s3 with
                   | Some p => strictEq (tid (heap s3) first) (tid (heap s3) p)
                   | None => false
                   end = false).
    { destruct (primaryTeam s3) as [p|]; [|done].
      apply bool_decide_eq_false in Hstill. apply strictEq_false.
      intros Heq. apply Hstill. apply Hids.
      rewrite !Ht3 in Heq. rewrite <- Heq. unfold teamIds.
      apply list_elem_of_fmap. by exists first. }
    rewrite Hnot, Hw in Hview. simpl in Hview.
    unfold primaryView in Hview. injection Hview as Hh4 Hl4 Hp4 Hd4.
    pose proof (primaryOnly_makeTeamPrimary (Some first) s3) as Hsame.
    rewrite Hs4 in Hsame. simpl in Hsame.
    exists s3, s4. split; [exact Hs3|].
    split; [done|]. split; [done|]. split; [done|].
    split; [intros l Hl; by apply Hr3|]. split; [done|]. split.
    { unfold bind at 1, get. rewrite Hstill. rewrite Hl3, Hteams.
      change (head (first :: rest)) with (Some first).
      unfold bind. by rewrite Hs4. }
    split; [exact Hsame|]. split; [|split].
    + exists first. split; [done|]. unfold teamIds.
      apply list_elem_of_fmap. by exists first.
    + intros p Hp Hin. exfalso. rewrite <- Hp3 in Hp. rewrite Hp in Hstill.
      apply bool_decide_eq_false in Hstill. apply Hstill. by apply Hids.
    + intros _. by rewrite Hteams.
Qed.

End PresentRegistry.

(** X19. Presenting a registry that has teams, as when the network comes
    back ([presentAvailableTeams()] without an update): when the
    [team_id]s are distinct, the names are falsy or strings, the web views
    held are web view contexts and no team is the ['__signin__'] dummy,
    the method returns; the registry keeps its teams, every team holds a
    web view afterwards, and there is a primary team that belongs to the
    registry: the one there was, when it is still in the registry, and
    the first team otherwise.  From then on the registry counts as merged
    once. *)
Theorem presentAvailableTeams_presents (s : State) :
  teamList s ≠ [] →
  Properties.uniqueIds s →
  (∀ l, l ∈ teamList s →
        MoreProperties.nameOk (heap s) l ∧ MoreProperties.webViewOk (heap s) l
        ∧ TeamsViewController.hasSigninId (deref (heap s) l) = false) →
  MoreProperties.ownerOk s →
  ∃ s', TeamsViewController.presentAvailableTeams None s = Returns tt s'
        ∧ teamList s' = teamList s
        ∧ Properties.teamIds (heap s') (teamList s')
          = Properties.teamIds (heap s) (teamList s)
        ∧ (∀ l, l ∈ teamList s' → MoreProperties.loaded (heap s') l)
        ∧ (∃ p, primaryTeam s' = Some p
                ∧ Properties.tid (heap s') p
                  ∈ Properties.teamIds (heap s') (teamList s'))
        ∧ (∀ p, primaryTeam s = Some p →
                Properties.tid (heap s) p
                ∈ Properties.teamIds (heap s) (teamList s) →
                primaryTeam s' = Some p)
        ∧ ((∀ p, primaryTeam s = Some p →
                 Properties.tid (heap s) p
                 ∉ Properties.teamIds (heap s) (teamList s)) →
           primaryTeam s' = head (teamList s))
        ∧ haveMergedTeamListOnce s' = true.
Proof.
  intros Hne Hu Hall Hok.
  unfold TeamsViewController.presentAvailableTeams. unfold bind at 1, get.
  change (default [] None) with (@nil loc).
  cbn [findTeam List.find].
  rewrite bool_decide_eq_false_2 by (by intros [? ?]). cbn [andb].
  unfold TeamsViewController.presentMerged. unfold bind at 1.
  unfold TeamsViewController.reconcile. unfold bind at 1.
  rewrite shouldMergeTeamList_nothing_incoming by done.
  unfold bind at 1. unfold TeamsViewController.mergeTeamList at 1.
  unfold ret at 1. unfold ret at 1. cbn [fst snd].
  unfold bind at 1. rewrite serializeTeamList_eq.
  cbn [heap teamList set_haveMergedTeamListOnce savedTsDevMenu effects].
  match goal with
  | |- ∃ s', ?m ?st = _ ∧ _ => set (s2 := st)
  end.
  assert (Hs2 : MoreProperties.primaryView s2 = MoreProperties.primaryView s
                ∧ haveMergedTeamListOnce s2 = true)
    by (subst s2; by destruct (bool_decide _ && _)).
  destruct Hs2 as [Hv2 Hm2]. injection Hv2 as Hh2 Hl2 Hp2 Hd2.
  destruct (presentMerged_steps s2)
    as (s3 & s4 & Hs3 & Hl3 & Ht3 & Hi3 & Hr3 & Hc3 & Hs4 & Hsame & Hprim & Hkeep
        & Helse).
  { by rewrite Hl2. }
  { unfold Properties.uniqueIds. by rewrite Hh2, Hl2. }
  { intros l Hl. rewrite Hl2 in Hl. unfold MoreProperties.nameOk,
      MoreProperties.webViewOk. rewrite Hh2. by apply Hall. }
  { intros d Hd. rewrite Hd2 in Hd. unfold MoreProperties.webViewOk.
    rewrite Hh2. by apply Hok. }
  unfold bind at 1, get in Hs3.
  unfold bind at 1, get.
  replace (length (teamList s2) =? 0)%nat with false
    by (symmetry; apply Nat.eqb_neq; rewrite Hl2; by destruct (teamList s)).
  cbn [orb].
  unfold bind at 1. rewrite Hs3.
  unfold bind at 1. cbn [TeamsViewController.newTeams TeamsViewController.nothingMerged].
  unfold get in Hs4. rewrite Hs4.
  assert (Hr4 : MoreProperties.restView s4 = MoreProperties.restView s3)
    by apply Hsame.
  injection Hr4 as Hh4 Hl4 Hm4 _ _ Hrep4 _ _.
  unfold bind at 1.
  assert (Htail : match teamList s4 with
                  | [only] =>
                      when (TeamsViewController.hasSigninId (deref (heap s4) only))
                           (TeamsViewController.subscribeRefreshOnLoaded only)
                  | _ => ret tt
                  end s4 = Returns tt s4).
  { destruct (teamList s4) as [|only [|? ?]] eqn:Hteams; try done.
    replace (TeamsViewController.hasSigninId (deref (heap s4) only)) with false;
      [done|].
    symmetry. unfold TeamsViewController.hasSigninId.
    rewrite Hh4, Hi3, Hh2.
    assert (Hin : only ∈ teamList s)
      by (rewrite <- Hl2, <- Hl3, <- Hl4; by left).
    by destruct (Hall only Hin) as (_ & _ & ?). }
  unfold bind at 1. rewrite Htail.
  unfold when at 1. unfold bind at 1. unfold bind at 1.
  unfold bind at 1, emit at 1, modify at 1.
  unfold bind at 1, emit at 1, modify at 1.
  unfold bind at 1, emit at 1, modify at 1.
  cbn [hasReporter set_effects TeamsViewController.toDispose
       TeamsViewController.nothingMerged forEach].
  assert (Hids : Properties.teamIds (heap s4) (teamList s4)
                 = Properties.teamIds (heap s) (teamList s)).
  { rewrite Hh4, Hl4, Hl3, Hl2. rewrite <- Hh2. by apply teamIds_ext. }
  destruct (hasReporter s4).
  all: eexists; split; [reflexivity|].
  all: cbn [teamList heap primaryTeam haveMergedTeamListOnce set_effects].
  all: split; [by rewrite Hl4, Hl3|].
  all: split; [exact Hids|].
  all: split; [intros l Hl; unfold MoreProperties.loaded; rewrite Hh4;
               apply Hr3; by rewrite <- Hl3, <- Hl4|].
  all: split.
  1,3: destruct Hprim as (p & Hp & Hin); exists p; split; [done|];
       rewrite Hids;
       replace (Properties.tid (heap s4) p) with (Properties.tid (heap s2) p)
         by (rewrite <- Ht3; unfold Properties.tid; by rewrite Hh4);
       rewrite Hh2, Hl2 in Hin; by rewrite Hh2.
  all: split;
    [intros p Hp Hin; apply Hkeep; [by rewrite Hp2|by rewrite Hh2, Hl2]|].
  all: split; [|by rewrite Hm4; injection Hc3 as _ _ _ -> _ _ _].
  all: intros Hgone; rewrite <- Hl2; apply Helse; intros p Hp;
    rewrite Hh2, Hl2; apply Hgone; by rewrite <- Hp2.
Qed.

Lemma presentAvailableTeams_presents_witness :
  let s := MoreProperties.twoTeams in
  ∃ s', TeamsViewController.presentAvailableTeams None s = Returns tt s'
        ∧ teamList s' = teamList s
        ∧ Properties.teamIds (heap s') (teamList s')
          = Properties.teamIds (heap s) (teamList s)
        ∧ (∀ l, l ∈ teamList s' → MoreProperties.loaded (heap s') l)
        ∧ (∃ p, primaryTeam s' = Some p
                ∧ Properties.tid (heap s') p
                  ∈ Properties.teamIds (heap s') (teamList s'))
        ∧ (∀ p, primaryTeam s = Some p →
                Properties.tid (heap s) p
                ∈ Properties.teamIds (heap s) (teamList s) →
                primaryTeam s' = Some p)
        ∧ ((∀ p, primaryTeam s = Some p →
                 Properties.tid (heap s) p
                 ∉ Properties.teamIds (heap s) (teamList s)) →
           primaryTeam s' = head (teamList s))
        ∧ haveMergedTeamListOnce s' = true.
Proof.
  intros s.
  apply (presentAvailableTeams_presents s).
  - intros Hempty. vm_compute in Hempty. discriminate Hempty.
  - apply (bool_decide_unpack _). vm_compute. exact I.
  - intros l Hl. change (teamList s) with [0%nat; 1%nat] in Hl.
    apply elem_of_cons in Hl as [->|Hl];
      [|apply list_elem_of_singleton in Hl as ->].
    + split; [by vm_compute|]. split; [|reflexivity].
      intros _. exists 0%nat. reflexivity.
    + split; [by vm_compute|]. split; [|reflexivity].
      intros Htr. vm_compute in Htr. discriminate Htr.
  - intros d Hd. vm_compute in Hd. discriminate Hd.
Defined.

(** ** Crashes and the primary team *)

(** X20. Only a crash of the web view of the primary team is handled:
    after [makeTeamPrimary(team)] changed the primary team to one that
    holds the web view [w], a crash of [w] reaches [handleWebViewCrash]
    with the url of that team and a crash of any other web view, the one
    of the former primary team included, is ignored; after
    [makeTeamPrimary(null)] no crash is handled at all. *)
Theorem onWebViewCrashed_follows_primary (s : State) (t : loc) (w : nat) :
  Team.webView (deref (heap s) t) = Some (VRef w) →
  (∀ p, primaryTeam s = Some p →
        Properties.tid (heap s) t ≠ Properties.tid (heap s) p) →
  (∀ w' type,
     let s' := finalState (TeamsViewController.makeTeamPrimary (Some t) s) in
     TeamsViewController.onWebViewCrashed w' type s'
     = if (w =? w')%nat
       then TeamsViewController.handleWebViewCrash type
              (Team.team_url (deref (heap s) t)) s'
       else Returns tt s')
  ∧ (∀ w' type,
       let s' := finalState (TeamsViewController.makeTeamPrimary None s) in
       TeamsViewController.onWebViewCrashed w' type s' = Returns tt s').
Proof.
  intros Hw Hother. split.
  - intros w' type s'. subst s'.
    pose proof (makeTeamPrimary_view (Some t) s) as Hview.
    cbv beta iota in Hview.
    replace (match primaryTeam s with
             | Some p => strictEq (Properties.tid (heap s) t)
                                  (Properties.tid (heap s) p)
             | None => false
             end) with false in Hview.
    + set (s' := finalState _) in *.
      rewrite Hw in Hview.
      change (readProp (Some (VRef w))) with (VRef w) in Hview.
      cbv beta iota in Hview. unfold MoreProperties.primaryView in Hview.
      injection Hview as Hh _ _ Hd.
      unfold TeamsViewController.onWebViewCrashed, bind, get.
      rewrite Hd, Hh. cbn [crashedOn owner]. by destruct (w =? w')%nat.
    + symmetry. destruct (primaryTeam s) as [p|] eqn:Hp; [|done].
      apply strictEq_false. by apply Hother.
  - intros w' type s'. subst s'.
    pose proof (makeTeamPrimary_view None s) as Hview.
    set (s' := finalState _) in *.
    unfold MoreProperties.primaryView in Hview.
    injection Hview as _ _ _ Hd.
    unfold TeamsViewController.onWebViewCrashed, bind, get.
    by rewrite Hd.
Qed.

Lemma onWebViewCrashed_follows_primary_witness :
  let s := MoreProperties.threeTeams in
  (∀ w' type,
     let s' := finalState (TeamsViewController.makeTeamPrimary (Some 2%nat) s) in
     TeamsViewController.onWebViewCrashed w' type s'
     = if (4 =? w')%nat
       then TeamsViewController.handleWebViewCrash type
              (Team.team_url (deref (heap s) 2%nat)) s'
       else Returns tt s')
  ∧ (∀ w' type,
       let s' := finalState (TeamsViewController.makeTeamPrimary None s) in
       TeamsViewController.onWebViewCrashed w' type s' = Returns tt s').
Proof.
  intros s.
  apply (onWebViewCrashed_follows_primary s 2%nat 4%nat).
  - reflexivity.
  - intros p Hp. injection Hp as <-. vm_compute. discriminate.
Defined.

(** ** Calls that are ignored *)

(** X21. [updateBadgeInfoForTeam] ignores a call without a team, for a
    team whose [team_id] is falsy, and for a team whose [team_id] is not
    in the registry: nothing is stored, the team selector is not told and
    the badge manager is not called, with or without a badge state. *)
Theorem updateBadgeInfoForTeam_ignores_unknown
    (s : State) (team : option loc) (badgeInfo : option BadgeInfo)
    (updateAll : bool) :
  match team with
  | None => True
  | Some given =>
      truthy (Properties.tid (heap s) given) = false
      ∨ Properties.tid (heap s) given ∉ Properties.teamIds (heap s) (teamList s)
  end →
  TeamsViewController.updateBadgeInfoForTeam team badgeInfo updateAll s
  = Returns tt s.
Proof.
  intros H. unfold TeamsViewController.updateBadgeInfoForTeam.
  destruct team as [given|]; [|done].
  unfold bind, get. fold (Properties.tid (heap s) given).
  destruct H as [H|H]; [by rewrite H|].
  destruct (negb _); [done|].
  change (λ x, strictEq (Team.team_id x) (Properties.tid (heap s) given))
    with (TeamsViewController.sameTeamId (heap s) given).
  apply findTeam_sameTeamId_None in H. by rewrite H.
Qed.

Lemma updateBadgeInfoForTeam_ignores_unknown_witness :
  TeamsViewController.updateBadgeInfoForTeam (Some 7%nat)
    (Some (mkBadgeInfo (Some 1) (Some 1) (Some 0))) true MoreProperties.threeTeams
  = Returns tt MoreProperties.threeTeams.
Proof.
  apply (updateBadgeInfoForTeam_ignores_unknown MoreProperties.threeTeams
           (Some 7%nat)).
  left. reflexivity.
Defined.

(** X22. The sign-out case of [mergeTeamList]: when the registry has
    teams and an incoming hash has the [team_id] ['__signin__'], nothing
    is merged.  The registry and the hashes stay as they are, no team is
    reported as new and no web view is handed back; the first team of the
    registry is asked to send its teams again, and the call raises a
    [TypeError] when that team has no web view. *)
Theorem mergeTeamList_signin_entry_only_refreshes
    (us : list loc) (s : State) (first x : loc) (rest : list loc) :
  teamList s = first :: rest →
  findTeam (heap s) TeamsViewController.isSigninTeam us = Some x →
  TeamsViewController.mergeTeamList (Some us) s
  = match readProp (Team.webView (deref (heap s) first)) with
    | VRef w =>
        Returns TeamsViewController.nothingMerged
                (Properties.andThen s [WebView_refreshTeams w])
    | _ => Throws "TypeError" s
    end.
Proof.
  intros Hl Hfind. unfold TeamsViewController.mergeTeamList.
  unfold bind at 1, get. rewrite Hl, Hfind.
  unfold bind, callWebView.
  by destruct (readProp (Team.webView (deref (heap s) first))).
Qed.

Lemma mergeTeamList_signin_entry_only_refreshes_witness :
  let s := MoreProperties.signingIn in
  TeamsViewController.mergeTeamList (Some [3%nat]) s
  = match readProp (Team.webView (deref (heap s) 0%nat)) with
    | VRef w =>
        Returns TeamsViewController.nothingMerged
                (Properties.andThen s [WebView_refreshTeams w])
    | _ => Throws "TypeError" s
    end.
Proof.
  intros s.
  apply (mergeTeamList_signin_entry_only_refreshes [3%nat] s 0%nat 3%nat
           [1%nat; 2%nat]).
  - reflexivity.
  - reflexivity.
Defined.

(** ** The loading screen *)

Section LoadingScreenFacts.
Import LoadingScreen.

Lemma display_hideAll s x : display (style (hideAll s) x) = "none".
Proof.
  unfold hideAll, hide, setStyle. simpl.
  destruct x; by repeat (destruct (decide _); try done).
Qed.

Lemma display_show s m x :
  display (style (show m s) x) = if decide (x = m) then "table-cell" else "none".
Proof.
  unfold show. cbn [style setStyle].
  destruct (decide (x = m)); [done|]. apply display_hideAll.
Qed.

Lemma display_runScheduled s x :
  display (style (runScheduled s) x) = display (style s x).
Proof.
  unfold runScheduled. destruct (scheduled s) as [|m rest]; [done|].
  cbn [style setStyle]. by destruct (decide (x = m)).
Qed.

Lemma display_ticks ticks : ∀ s x,
  (∀ c, c ∈ ticks → c = Tick) →
  display (style (run ticks s) x) = display (style s x).
Proof.
  induction ticks as [|c ticks IH]; intros s x Hticks; [done|].
  simpl. rewrite IH by (intros c' Hc'; apply Hticks; by right).
  rewrite (Hticks c) by left. apply display_runScheduled.
Qed.

(** Once the callback of the last [show] ran, its element is opaque. *)
Lemma opacity_ticks ticks m : ∀ s,
  (∀ c, c ∈ ticks → c = Tick) →
  (∃ q, scheduled s = q ++ [m])
  ∨ (scheduled s = [] ∧ opacity (style s m) = 1) →
  scheduled (run ticks s) = [] →
  opacity (style (run ticks s) m) = 1.
Proof.
  induction ticks as [|c ticks IH]; intros s Hticks Hinv Hdone.
  - simpl in *. destruct Hinv as [[q Hq]|[_ Hop]]; [|done].
    rewrite Hq in Hdone. by destruct q.
  - simpl in *. rewrite (Hticks c) in * by left. simpl in *.
    apply IH; [intros c' Hc'; apply Hticks; by right| |done].
    unfold runScheduled.
    destruct Hinv as [[q Hq]|[Hnil Hop]].
    + rewrite Hq. destruct q as [|x q]; simpl.
      * right. split; [done|]. by rewrite decide_True.
      * left. by exists q.
    + rewrite Hnil. by right.
Qed.

End LoadingScreenFacts.

(** X23. The loading screen shows at most one message: whatever was
    called before, after [showOffline], [showSlackDown] or [showTrying]
    and any number of scheduled callbacks the element of that message has
    the display ['table-cell'] and the two others ['none'], and after
    [hideAll] all three have ['none'].  Once all scheduled callbacks ran,
    the element shown is opaque. *)
Theorem loadingScreen_shows_one_message
    (calls ticks : list LoadingScreen.Call) (s : LoadingScreen.t) :
  (∀ c, c ∈ ticks → c = LoadingScreen.Tick) →
  (∀ m x,
     let s' := LoadingScreen.run (calls ++ LoadingScreen.CallShow m :: ticks) s in
     LoadingScreen.display (LoadingScreen.style s' x)
     = (if decide (x = m) then "table-cell" else "none")
     ∧ (LoadingScreen.scheduled s' = [] →
        LoadingScreen.opacity (LoadingScreen.style s' m) = 1))
  ∧ (∀ x,
       let s' := LoadingScreen.run (calls ++ LoadingScreen.CallHideAll :: ticks) s in
       LoadingScreen.display (LoadingScreen.style s' x) = "none").
Proof.
  intros Hticks. split.
  - intros m x s'. subst s'. unfold LoadingScreen.run.
    rewrite fold_left_app. simpl.
    set (s0 := fold_left LoadingScreen.step calls s). split.
    + rewrite (display_ticks ticks) by done. apply display_show.
    + apply opacity_ticks; [done|]. left.
      by exists (LoadingScreen.scheduled s0).
  - intros x s'. subst s'. unfold LoadingScreen.run.
    rewrite fold_left_app. simpl.
    rewrite (display_ticks ticks) by done. apply display_hideAll.
Qed.

Lemma loadingScreen_shows_one_message_witness :
  let s := LoadingScreen.mk (λ _, LoadingScreen.mkStyle "table-cell" 1) [] in
  let calls := [LoadingScreen.CallShow LoadingScreen.trying] in
  let ticks := [LoadingScreen.Tick; LoadingScreen.Tick] in
  (∀ m x,
     let s' := LoadingScreen.run (calls ++ LoadingScreen.CallShow m :: ticks) s in
     LoadingScreen.display (LoadingScreen.style s' x)
     = (if decide (x = m) then "table-cell" else "none")
     ∧ (LoadingScreen.scheduled s' = [] →
        LoadingScreen.opacity (LoadingScreen.style s' m) = 1))
  ∧ (∀ x,
       let s' := LoadingScreen.run (calls ++ LoadingScreen.CallHideAll :: ticks) s in
       LoadingScreen.display (LoadingScreen.style s' x) = "none").
Proof.
  intros s calls ticks.
  apply (loadingScreen_shows_one_message calls ticks s).
  intros c Hc. apply elem_of_cons in Hc as [->|Hc]; [done|].
  by apply list_elem_of_singleton in Hc.
Defined.

(** ** The network check *)



(** ** What only a merge changes *)

Section IdsKept.
Import TeamsViewController Properties MoreProperties.

Lemma sameIds_refl s : sameIds s s.
Proof. by split. Qed.

Lemma sameIds_trans s s' s'' : sameIds s s' → sameIds s' s'' → sameIds s s''.
Proof.
  intros [Hl Ht] [Hl' Ht']. split; [congruence|].
  intros l. by rewrite Ht', Ht.
Qed.

Lemma idsKept_ret {A} (a : A) : idsKept (ret a).
Proof. intros s. apply sameIds_refl. Qed.

Lemma idsKept_throw {A} e : idsKept (@throw A e).
Proof. intros s. apply sameIds_refl. Qed.

Lemma idsKept_get : idsKept get.
Proof. intros s. apply sameIds_refl. Qed.

Lemma idsKept_bind {A B} (m : M A) (k : A → M B) :
  idsKept m → (∀ a, idsKept (k a)) → idsKept (bind m k).
Proof.
  intros Hm Hk s. specialize (Hm s). unfold bind.
  destruct (m s) as [a s1|e s1]; simpl in *; [|done].
  eapply sameIds_trans; [exact Hm|apply Hk].
Qed.

Lemma idsKept_onlyEffects {A} (m : M A) : onlyEffects m → idsKept m.
Proof. intros Hm s. destruct (Hm s) as [es ->]. by split. Qed.

Lemma idsKept_primaryOnly {A} (m : M A) : primaryOnly m → idsKept m.
Proof.
  intros Hm s. destruct (Hm s) as [Hr _]. injection Hr as Hh Hl _ _ _ _ _ _.
  split; [done|]. intros l. unfold tid. by rewrite Hh.
Qed.

Lemma idsKept_when b m : idsKept m → idsKept (when b m).
Proof. destruct b; [done|]. intros _. apply idsKept_ret. Qed.

Lemma idsKept_forEach {A} (body : A → M unit) (l : list A) :
  (∀ x, idsKept (body x)) → idsKept (forEach body l).
Proof.
  intros Hbody. induction l as [|x l IH]; simpl.
  - apply idsKept_ret.
  - apply idsKept_bind; [apply Hbody | intros _; apply IH].
Qed.

Lemma idsKept_updateTeam l f :
  (∀ t, Team.team_id (f t) = Team.team_id t) → idsKept (updateTeam l f).
Proof. intros Hf s. split; [done|]. intros x. simpl. by apply tid_update. Qed.

Lemma idsKept_fetchTeam teamId forceCreate : idsKept (fetchTeam teamId forceCreate).
Proof.
  intros s. destruct (fetchTeam_outcome teamId forceCreate s)
    as [(Hh & Hl & _)|(team & ini & s1 & _ & -> & Hh & Hl & _)].
  - split; [done|]. intros l. unfold tid. by rewrite Hh.
  - simpl. split; [done|]. intros l. unfold tid. rewrite Hh, deref_created.
    by destruct (decide (team = l)) as [<-|].
Qed.

Lemma idsKept_updateBadgeInfoForTeam team badgeInfo updateAll :
  idsKept (updateBadgeInfoForTeam team badgeInfo updateAll).
Proof.
  unfold updateBadgeInfoForTeam. destruct team as [given|]; [|apply idsKept_ret].
  apply idsKept_bind; [apply idsKept_get|]. intros s.
  destruct (negb _); [apply idsKept_ret|].
  destruct (findTeam _ _ _) as [found|]; [|apply idsKept_ret].
  apply idsKept_bind.
  { destruct badgeInfo; [by apply idsKept_updateTeam | apply idsKept_ret]. }
  intros _. apply idsKept_onlyEffects.
  apply onlyEffects_bind; [apply onlyEffects_badgeLoop|]. intros acc.
  apply onlyEffects_bind;
    [apply onlyEffects_when, onlyEffects_setSelectionStatus|]. intros _.
  apply onlyEffects_emit.
Qed.

Lemma idsKept_makeTeamPrimary team : idsKept (makeTeamPrimary team).
Proof. apply idsKept_primaryOnly, primaryOnly_makeTeamPrimary. Qed.

Lemma idsKept_handle e : idsKept (Events.handle e).
Proof.
  destruct e; simpl.
  - apply idsKept_bind; [apply idsKept_fetchTeam|]. intros _. apply idsKept_ret.
  - apply idsKept_bind; [apply idsKept_makeTeamPrimary|]. intros _.
    apply idsKept_ret.
  - apply idsKept_updateBadgeInfoForTeam.
  - unfold TeamList.onSetBadgeCount. apply idsKept_bind.
    { unfold TeamList.teamFromWebViewId. apply idsKept_bind;
        [apply idsKept_get|]. intros ?. apply idsKept_ret. }
    intros [found|]; [apply idsKept_updateBadgeInfoForTeam|].
    apply idsKept_bind; [apply idsKept_get|]. intros s.
    apply idsKept_when, idsKept_onlyEffects, onlyEffects_emit.
  - unfold TeamList.moveTeamByOffset.
    apply idsKept_bind; [apply idsKept_get|]. intros s.
    destruct (primaryTeam s) as [p|]; [|apply idsKept_ret].
    destruct (length (teamList s) <? 2)%nat; [apply idsKept_ret|].
    apply idsKept_bind.
    { unfold TeamList.indexOfTeamInList. apply idsKept_bind;
        [apply idsKept_get|]. intros s0.
      destruct (teamList s0); [apply idsKept_ret|]. apply idsKept_ret. }
    intros idx. apply idsKept_bind; [apply idsKept_get|]. intros s1.
    apply idsKept_bind; [apply idsKept_makeTeamPrimary|]. intros _.
    apply idsKept_ret.
  - unfold onWebViewCrashed. apply idsKept_bind; [apply idsKept_get|].
    intros s. destruct (primaryTeamDisp s) as [d|]; [|apply idsKept_ret].
    destruct (crashedOn d =? w)%nat; [|apply idsKept_ret].
    unfold handleWebViewCrash.
    destruct (String.prefix _ _); [apply idsKept_ret|].
    destruct (negb _); apply idsKept_onlyEffects, onlyEffects_emit.
  - intros s. rewrite serializeTeamList_eq. cbv zeta. simpl.
    destruct (bool_decide _ && _); by split.
  - unfold TeamList.trashAllTeamWebviews.
    apply idsKept_bind; [apply idsKept_get|]. intros s.
    apply idsKept_forEach. intros team. unfold TeamList.trashTeamWebview.
    apply idsKept_bind;
      [apply idsKept_onlyEffects, onlyEffects_readTeam|]. intros t.
    apply idsKept_bind;
      [apply idsKept_when, idsKept_onlyEffects, onlyEffects_callWebView|].
    intros _. by apply idsKept_updateTeam.
Qed.

Lemma sameIds_handleAll events : ∀ s, sameIds s (Events.handleAll events s).
Proof.
  induction events as [|e events IH]; intros s; [apply sameIds_refl|].
  simpl. eapply sameIds_trans; [apply idsKept_handle|apply IH].
Qed.

End IdsKept.

(** X25. Only an update changes which teams there are: whatever [fetchTeam],
    [makeTeamPrimary], [updateBadgeInfoForTeam], ['setBadgeCount']
    messages, [moveTeamByOffset], crashes, [serializeTeamList] and
    [trashAllTeamWebviews] calls are handled, in whatever order and
    whether they return or raise, the registry holds the same records in
    the same order with the same [team_id]s afterwards, so distinct ids
    stay distinct. *)
Theorem handleAll_keeps_the_teams (events : list Events.Event) (s : State) :
  let s' := Events.handleAll events s in
  teamList s' = teamList s
  ∧ Properties.teamIds (heap s') (teamList s')
    = Properties.teamIds (heap s) (teamList s)
  ∧ (Properties.uniqueIds s → Properties.uniqueIds s').
Proof.
  intros s'. subst s'.
  destruct (sameIds_handleAll events s) as [Hl Ht].
  assert (Hids : Properties.teamIds (heap (Events.handleAll events s))
                   (teamList (Events.handleAll events s))
                 = Properties.teamIds (heap s) (teamList s))
    by (rewrite Hl; by apply teamIds_ext).
  split; [done|]. split; [done|].
  unfold Properties.uniqueIds. by rewrite Hids.
Qed.

Lemma handleAll_keeps_the_teams_witness :
  let s := MoreProperties.threeTeams in
  let events := [Events.MoveTeamByOffset 1; Events.TrashAllTeamWebviews;
                 Events.FetchTeam (VStr "T2") false] in
  Properties.uniqueIds (Events.handleAll events s).
Proof.
  intros s events.
  apply (proj2 (proj2 (handleAll_keeps_the_teams events s))).
  apply (bool_decide_unpack _). vm_compute. exact I.
Defined.

Section OkKept.
Import TeamsViewController Properties MoreProperties.

Lemma okKept_ret {A} (a : A) : okKept (ret a).
Proof. by intros s. Qed.

Lemma okKept_throw {A} e : okKept (@throw A e).
Proof. by intros s. Qed.

Lemma okKept_get : okKept get.
Proof. by intros s. Qed.

Lemma okKept_bind {A B} (m : M A) (k : A → M B) :
  okKept m → (∀ a, okKept (k a)) → okKept (bind m k).
Proof.
  intros Hm Hk s Hok. specialize (Hm s Hok). unfold bind.
  destruct (m s) as [a s1|e s1]; simpl in *; [|done]. by apply Hk.
Qed.

Lemma okKept_onlyEffects {A} (m : M A) : onlyEffects m → okKept m.
Proof.
  intros Hm s Hok. destruct (Hm s) as [es ->]. by apply (registryOk_same s).
Qed.

Lemma okKept_primaryOnly {A} (m : M A) : primaryOnly m → okKept m.
Proof.
  intros Hm s Hok. destruct (Hm s) as [Hr _].
  injection Hr as Hh Hl _ _ _ _ _ Hn. by apply (registryOk_same s).
Qed.

Lemma okKept_when b m : okKept m → okKept (when b m).
Proof. destruct b; [done|]. intros _. apply okKept_ret. Qed.

Lemma okKept_forEach {A} (body : A → M unit) (l : list A) :
  (∀ x, okKept (body x)) → okKept (forEach body l).
Proof.
  intros Hbody. induction l as [|x l IH]; simpl.
  - apply okKept_ret.
  - apply okKept_bind; [apply Hbody | intros _; apply IH].
Qed.

(** An update that leaves [team_id] and [webView] alone. *)
Lemma okKept_updateTeam l f :
  (∀ t, Team.team_id (f t) = Team.team_id t) →
  (∀ t, Team.webView (f t) = Team.webView t) →
  okKept (updateTeam l f).
Proof.
  intros Hid Hwv s (Hu & Ha & Hd). simpl.
  assert (Hsame : ∀ x, Team.webView (deref (update l f (heap s)) x)
                       = Team.webView (deref (heap s) x)).
  { intros x. rewrite deref_update. by destruct (decide (l = x)) as [<-|]. }
  split; [|split].
  - unfold uniqueIds. simpl.
    by rewrite (teamIds_ext (heap s)) by (by apply tid_update).
  - intros x w Hx. simpl in *. rewrite Hsame. by apply Ha.
  - intros i j x x' v Hij Hi Hj. simpl in *. rewrite !Hsame.
    by apply (Hd i j).
Qed.

(** Dropping the web view of a record. *)
Lemma okKept_dropWebView l :
  okKept (updateTeam l (Team.set_webView VNull VNull)).
Proof.
  intros s (Hu & Ha & Hd). simpl.
  assert (Hwv : ∀ x, Team.webView (deref (update l (Team.set_webView VNull VNull)
                                            (heap s)) x)
                     = if decide (l = x) then Some VNull
                       else Team.webView (deref (heap s) x)).
  { intros x. rewrite deref_update. by destruct (decide (l = x)). }
  split; [|split].
  - unfold uniqueIds. simpl.
    by rewrite (teamIds_ext (heap s)) by (by apply tid_update).
  - intros x w Hx. simpl in *. rewrite Hwv.
    destruct (decide (l = x)); [done|]. by apply Ha.
  - intros i j x x' v Hij Hi Hj. simpl in *. rewrite !Hwv.
    destruct (decide (l = x)) as [->|Hx].
    { intros [= <-]. done. }
    intros Hv Htr. destruct (decide (l = x')) as [->|Hx'].
    + intros [= <-]. done.
    + by apply (Hd i j x x').
Qed.

Lemma okKept_fetchTeam teamId forceCreate : okKept (fetchTeam teamId forceCreate).
Proof.
  intros s Hok. destruct (fetchTeam_outcome teamId forceCreate s)
    as [(Hh & Hl & Hn)|(team & ini & s1 & Hfind & Ho & Hh & Hl & Hn)].
  - by apply (registryOk_same s).
  - rewrite Ho. simpl. apply findTeam_Some in Hfind as [Hin _].
    by destruct (registryOk_created s s1 team ini Hok Hin Hh Hl Hn).
Qed.

Lemma okKept_updateBadgeInfoForTeam team badgeInfo updateAll :
  okKept (updateBadgeInfoForTeam team badgeInfo updateAll).
Proof.
  unfold updateBadgeInfoForTeam. destruct team as [given|]; [|apply okKept_ret].
  apply okKept_bind; [apply okKept_get|]. intros s.
  destruct (negb _); [apply okKept_ret|].
  destruct (findTeam _ _ _) as [found|]; [|apply okKept_ret].
  apply okKept_bind.
  { destruct badgeInfo; [by apply okKept_updateTeam | apply okKept_ret]. }
  intros _. apply okKept_onlyEffects.
  apply onlyEffects_bind; [apply onlyEffects_badgeLoop|]. intros acc.
  apply onlyEffects_bind;
    [apply onlyEffects_when, onlyEffects_setSelectionStatus|]. intros _.
  apply onlyEffects_emit.
Qed.

Lemma okKept_makeTeamPrimary team : okKept (makeTeamPrimary team).
Proof. apply okKept_primaryOnly, primaryOnly_makeTeamPrimary. Qed.

Lemma okKept_handle e : okKept (Events.handle e).
Proof.
  destruct e; simpl.
  - apply okKept_bind; [apply okKept_fetchTeam|]. intros _. apply okKept_ret.
  - apply okKept_bind; [apply okKept_makeTeamPrimary|]. intros _.
    apply okKept_ret.
  - apply okKept_updateBadgeInfoForTeam.
  - unfold TeamList.onSetBadgeCount. apply okKept_bind.
    { unfold TeamList.teamFromWebViewId. apply okKept_bind;
        [apply okKept_get|]. intros ?. apply okKept_ret. }
    intros [found|]; [apply okKept_updateBadgeInfoForTeam|].
    apply okKept_bind; [apply okKept_get|]. intros s.
    apply okKept_when, okKept_onlyEffects, onlyEffects_emit.
  - unfold TeamList.moveTeamByOffset.
    apply okKept_bind; [apply okKept_get|]. intros s.
    destruct (primaryTeam s) as [p|]; [|apply okKept_ret].
    destruct (length (teamList s) <? 2)%nat; [apply okKept_ret|].
    apply okKept_bind.
    { unfold TeamList.indexOfTeamInList. apply okKept_bind;
        [apply okKept_get|]. intros s0.
      destruct (teamList s0); [apply okKept_ret|]. apply okKept_ret. }
    intros idx. apply okKept_bind; [apply okKept_get|]. intros s1.
    apply okKept_bind; [apply okKept_makeTeamPrimary|]. intros _.
    apply okKept_ret.
  - unfold onWebViewCrashed. apply okKept_bind; [apply okKept_get|].
    intros s. destruct (primaryTeamDisp s) as [d|]; [|apply okKept_ret].
    destruct (crashedOn d =? w)%nat; [|apply okKept_ret].
    unfold handleWebViewCrash.
    destruct (String.prefix _ _); [apply okKept_ret|].
    destruct (negb _); apply okKept_onlyEffects, onlyEffects_emit.
  - intros s Hok. rewrite serializeTeamList_eq. cbv zeta. simpl.
    apply (registryOk_same s); [done|..];
      by destruct (bool_decide _ && _).
  - unfold TeamList.trashAllTeamWebviews.
    apply okKept_bind; [apply okKept_get|]. intros s.
    apply okKept_forEach. intros team. unfold TeamList.trashTeamWebview.
    apply okKept_bind;
      [apply okKept_onlyEffects, onlyEffects_readTeam|]. intros t.
    apply okKept_bind;
      [apply okKept_when, okKept_onlyEffects, onlyEffects_callWebView|].
    intros _. apply okKept_dropWebView.
Qed.

End OkKept.

(** X26. No call makes two teams share a web view: when the registry is
    well formed (distinct [team_id]s, every web view held is one that was
    created, no web view held by two records) it is still so after any
    sequence of [fetchTeam], [makeTeamPrimary], [updateBadgeInfoForTeam],
    ['setBadgeCount'], [moveTeamByOffset], crash, [serializeTeamList] and
    [trashAllTeamWebviews] calls, returning or raising. *)
Theorem handleAll_keeps_registry_ok (events : list Events.Event) (s : State) :
  MoreProperties.registryOk s →
  MoreProperties.registryOk (Events.handleAll events s).
Proof.
  revert s. induction events as [|e events IH]; intros s Hok; [done|].
  simpl. apply IH. by apply okKept_handle.
Qed.

Lemma handleAll_keeps_registry_ok_witness :
  MoreProperties.registryOk
    (Events.handleAll
       [Events.FetchTeam (VStr "T2") true; Events.MakeTeamPrimary (Some 1%nat);
        Events.TrashAllTeamWebviews; Events.FetchTeam (VStr "T1") false]
       MoreProperties.twoTeams).
Proof.
  apply (handleAll_keeps_registry_ok _ MoreProperties.twoTeams).
  split; [|split].
  - apply (bool_decide_unpack _). vm_compute. exact I.
  - intros l w Hl Hw.
    change (teamList MoreProperties.twoTeams) with [0%nat; 1%nat] in Hl.
    apply elem_of_cons in Hl as [->|Hl].
    + vm_compute in Hw. injection Hw as <-. vm_compute. lia.
    + apply list_elem_of_singleton in Hl as ->. vm_compute in Hw. discriminate Hw.
  - twoTeams_distinct.
Defined.

Section FollowKept.
Import TeamsViewController Properties MoreProperties.

Lemma followKept_keeps {A} (m : M A) : keeps primaryPair m → followKept m.
Proof.
  intros Hm s Hinv. specialize (Hm s). injection Hm as Hp Hd.
  unfold disposableFollowsPrimary in *. by rewrite Hd, Hp.
Qed.

Lemma followKept_bind {A B} (m : M A) (k : A → M B) :
  followKept m → (∀ a, followKept (k a)) → followKept (bind m k).
Proof.
  intros Hm Hk s Hinv. specialize (Hm s Hinv). unfold bind.
  destruct (m s) as [a s1|e s1]; simpl in *; [|done]. by apply Hk.
Qed.

Lemma followKept_makeTeamPrimary team : followKept (makeTeamPrimary team).
Proof.
  intros s Hinv. pose proof (makeTeamPrimary_view team s) as Hview.
  set (s' := finalState _) in *.
  unfold primaryView in Hview. unfold disposableFollowsPrimary in *.
  destruct team as [t|].
  - destruct (match primaryTeam s with Some _ => _ | None => _ end).
    { injection Hview as _ _ Hp Hd. by rewrite Hd, Hp. }
    destruct (readProp (Team.webView (deref (heap s) t)));
      injection Hview as _ _ Hp Hd; by rewrite Hd, Hp.
  - injection Hview as _ _ Hp Hd. by rewrite Hd, Hp.
Qed.

Lemma keeps_pair_readTeam l : keeps primaryPair (readTeam l).
Proof.
  unfold readTeam. apply keeps_bind; [apply keeps_get|]. intros ?.
  apply keeps_ret.
Qed.

Lemma keeps_pair_fetchTeam teamId forceCreate :
  keeps primaryPair (fetchTeam teamId forceCreate).
Proof.
  unfold fetchTeam. apply keeps_bind; [apply keeps_get|]. intros s.
  destruct (findTeam _ _ _) as [team|]; [|apply keeps_ret].
  destruct (_ && _); [apply keeps_ret|].
  apply keeps_bind; [by apply keeps_when, keeps_callWebView|]. intros _.
  destruct (Initials.getInitialsOfName _ _); [|apply keeps_throw].
  apply keeps_bind; [by apply keeps_modify|]. intros _.
  apply keeps_bind; [by apply keeps_modify|]. intros _.
  apply keeps_bind; [by apply keeps_emit|]. intros _.
  apply keeps_bind; [by apply keeps_modify|]. intros _.
  apply keeps_ret.
Qed.

Lemma keeps_pair_updateBadgeInfoForTeam team badgeInfo updateAll :
  keeps primaryPair (updateBadgeInfoForTeam team badgeInfo updateAll).
Proof.
  unfold updateBadgeInfoForTeam. destruct team as [given|]; [|apply keeps_ret].
  apply keeps_bind; [apply keeps_get|]. intros s.
  destruct (negb _); [apply keeps_ret|].
  destruct (findTeam _ _ _) as [found|]; [|apply keeps_ret].
  apply keeps_bind.
  { destruct badgeInfo; [by apply keeps_modify | apply keeps_ret]. }
  intros _. apply onlyEffects_keeps; [done|].
  apply onlyEffects_bind; [apply onlyEffects_badgeLoop|]. intros acc.
  apply onlyEffects_bind;
    [apply onlyEffects_when, onlyEffects_setSelectionStatus|]. intros _.
  apply onlyEffects_emit.
Qed.

Lemma followKept_handle e : followKept (Events.handle e).
Proof.
  destruct e; simpl.
  - apply followKept_keeps.
    apply keeps_bind; [apply keeps_pair_fetchTeam|]. intros _. apply keeps_ret.
  - apply followKept_bind; [apply followKept_makeTeamPrimary|]. intros _.
    apply followKept_keeps, keeps_ret.
  - apply followKept_keeps, keeps_pair_updateBadgeInfoForTeam.
  - apply followKept_keeps. unfold TeamList.onSetBadgeCount. apply keeps_bind.
    { unfold TeamList.teamFromWebViewId. apply keeps_bind;
        [apply keeps_get|]. intros ?. apply keeps_ret. }
    intros [found|]; [apply keeps_pair_updateBadgeInfoForTeam|].
    apply keeps_bind; [apply keeps_get|]. intros s.
    by apply keeps_when, keeps_emit.
  - unfold TeamList.moveTeamByOffset.
    apply followKept_bind; [apply followKept_keeps, keeps_get|]. intros s.
    destruct (primaryTeam s) as [p|]; [|apply followKept_keeps, keeps_ret].
    destruct (length (teamList s) <? 2)%nat;
      [apply followKept_keeps, keeps_ret|].
    apply followKept_bind.
    { apply followKept_keeps. unfold TeamList.indexOfTeamInList.
      apply keeps_bind; [apply keeps_get|]. intros s0.
      destruct (teamList s0); apply keeps_ret. }
    intros idx. apply followKept_bind; [apply followKept_keeps, keeps_get|].
    intros s1. apply followKept_bind; [apply followKept_makeTeamPrimary|].
    intros _. apply followKept_keeps, keeps_ret.
  - apply followKept_keeps. unfold onWebViewCrashed.
    apply keeps_bind; [apply keeps_get|].
    intros s. destruct (primaryTeamDisp s) as [d|]; [|apply keeps_ret].
    destruct (crashedOn d =? w)%nat; [|apply keeps_ret].
    unfold handleWebViewCrash.
    destruct (String.prefix _ _); [apply keeps_ret|].
    destruct (negb _); by apply keeps_emit.
  - apply followKept_keeps. intros s. rewrite serializeTeamList_eq.
    cbv zeta. simpl. by destruct (bool_decide _ && _).
  - apply followKept_keeps. unfold TeamList.trashAllTeamWebviews.
    apply keeps_bind; [apply keeps_get|]. intros s.
    apply keeps_forEach. intros team. unfold TeamList.trashTeamWebview.
    apply keeps_bind; [apply keeps_pair_readTeam|]. intros t.
    apply keeps_bind; [by apply keeps_when, keeps_callWebView|].
    intros _. by apply keeps_modify.
Qed.

End FollowKept.

(** X27. The serial disposable goes with the primary team through every
    call: when it holds the composite made for the primary team, and the
    empty disposable when there is no primary team, this is still so
    after any sequence of [fetchTeam], [makeTeamPrimary],
    [updateBadgeInfoForTeam], ['setBadgeCount'], [moveTeamByOffset],
    crash, [serializeTeamList] and [trashAllTeamWebviews] calls,
    returning or raising.  It holds for a controller that was just
    constructed. *)
Theorem handleAll_keeps_disposable_with_primary
    (events : list Events.Event) (s : State) :
  MoreProperties.disposableFollowsPrimary s →
  MoreProperties.disposableFollowsPrimary (Events.handleAll events s).
Proof.
  revert s. induction events as [|e events IH]; intros s Hinv; [done|].
  simpl. apply IH. by apply followKept_handle.
Qed.

Lemma handleAll_keeps_disposable_with_primary_witness :
  MoreProperties.disposableFollowsPrimary
    (Events.handleAll
       [Events.MakeTeamPrimary (Some 0%nat); Events.MoveTeamByOffset 1;
        Events.TrashAllTeamWebviews; Events.MakeTeamPrimary None]
       MoreProperties.threeTeams).
Proof.
  apply (handleAll_keeps_disposable_with_primary _ MoreProperties.threeTeams).
  reflexivity.
Defined.
